(** * gbasis/gradient/ad.py: Cartesian Gaussian contractions and their
      gradient with respect to the centre

    A shallow embedding of [eval_contractions] and [eval_deriv], and of
    the script the module runs when it is loaded.

    - Python exceptions are the [Raise] branch of [result].
    - A double is idealised as an exact real, with one extra value [nan]
      for a result that is not a finite number (what IEEE arithmetic
      gives for a division by zero): [float := option R].  Rounding and
      overflow are not modelled: a value [fin x] stands for the double
      that the evaluation of the expression [x] gives.  Where two
      different computations are compared, the forward pass is also
      given over binary64 ([eval_contractions_in]).
    - A numpy array is its shape together with its indexing function;
      [to_list] reads the elements back in C (row-major) order.
    - autograd's tracing is the type [value]: an operand is either a plain
      array or a box that also carries the pullback of the node to the
      traced argument; every primitive computes its value as numpy does
      and extends the pullback with the primitive's vector-Jacobian
      product, as registered in autograd. *)

From Stdlib Require Import List ZArith Reals Lia Lra Arith Bool Permutation.
From Stdlib Require Import FunctionalExtensionality.
From Stdlib Require PrimFloat.
Import ListNotations.

Set Implicit Arguments.

(** ** Exceptions *)

Inductive exn : Type := ValueError | TypeError | IndexError | AxisError.

Inductive result (A : Type) : Type :=
| Ok (a : A)
| Raise (e : exn).

Arguments Ok {A} a.
Arguments Raise {A} e.

Definition bind {A B : Type} (m : result A) (k : A -> result B) : result B :=
  match m with
  | Ok a => k a
  | Raise e => Raise e
  end.

Notation "x <- m ;; k" := (bind m (fun x => k))
  (at level 61, m at next level, right associativity).

Fixpoint mapM {A B : Type} (f : A -> result B) (l : list A) : result (list B) :=
  match l with
  | [] => Ok []
  | x :: l' => y <- f x ;; ys <- mapM f l' ;; Ok (y :: ys)
  end.

(** ** Floats *)

Definition float : Type := option R.

Definition nan : float := None.
Definition fin (x : R) : float := Some x.

Definition lift1 (f : R -> R) (x : float) : float :=
  match x with Some a => Some (f a) | None => None end.

Definition lift2 (f : R -> R -> R) (x y : float) : float :=
  match x, y with Some a, Some b => Some (f a b) | _, _ => None end.

Definition fadd : float -> float -> float := lift2 Rplus.
Definition fsub : float -> float -> float := lift2 Rminus.
Definition fmul : float -> float -> float := lift2 Rmult.
Definition fneg : float -> float := lift1 Ropp.
Definition fexp : float -> float := lift1 exp.

(** [x / y]: a zero divisor gives no finite number. *)
Definition fdiv (x y : float) : float :=
  match x, y with
  | Some a, Some b => if Req_dec_T b 0 then None else Some (a / b)%R
  | _, _ => None
  end.

(** [x ** n] for an integer exponent: [x ** 0] is [1] for every [x],
    also for [x = 0]; a negative power is the inverse of the positive
    one. *)
Definition rpow (a : R) (n : Z) : float :=
  if (0 <=? n)%Z then Some (a ^ Z.to_nat n)%R
  else if Req_dec_T a 0 then None
  else Some (/ a ^ Z.to_nat (- n))%R.

Definition fpow (x : float) (n : Z) : float :=
  match x with Some a => rpow a n | None => None end.

Definition of_int (n : Z) : float := Some (IZR n).

Fixpoint fsum (n : nat) (f : nat -> float) : float :=
  match n with
  | O => Some 0%R
  | S n' => fadd (fsum n' f) (f n')
  end.

Fixpoint fprod (n : nat) (f : nat -> float) : float :=
  match n with
  | O => Some 1%R
  | S n' => fmul (fprod n' f) (f n')
  end.

(** The same folds on reals, for statements. *)
Fixpoint rsum (n : nat) (f : nat -> R) : R :=
  match n with
  | O => 0%R
  | S n' => (rsum n' f + f n')%R
  end.

(** ** Arrays *)

Record ndarray (A : Type) : Type := mkarray {
  shape : list nat;
  item : list nat -> A
}.

Definition ndim {A} (a : ndarray A) : nat := length (shape a).

Definition size (s : list nat) : nat := fold_right Nat.mul 1 s.

(** Position of a multi-index in C order, and back. *)
Fixpoint ravel (s idx : list nat) : nat :=
  match s, idx with
  | _ :: s', i :: idx' => i * size s' + ravel s' idx'
  | _, _ => 0
  end.

Fixpoint unravel (s : list nat) (i : nat) : list nat :=
  match s with
  | [] => []
  | _ :: s' => i / size s' :: unravel s' (i mod size s')
  end.

Definition to_list {A} (a : ndarray A) : list A :=
  map (fun i => item a (unravel (shape a) i)) (seq 0 (size (shape a))).

Definition of_list {A} (d : A) (s : list nat) (l : list A) : ndarray A :=
  mkarray s (fun idx => nth (ravel s idx) l d).

(** A Python scalar is an array without axes. *)
Definition scalar {A} (x : A) : ndarray A := mkarray [] (fun _ => x).

Definition amap {A B} (f : A -> B) (a : ndarray A) : ndarray B :=
  mkarray (shape a) (fun idx => f (item a idx)).

(** [a.reshape(s)] *)
Definition reshape {A} (s : list nat) (a : ndarray A) : result (ndarray A) :=
  if size s =? size (shape a)
  then Ok (mkarray s (fun idx => item a (unravel (shape a) (ravel s idx))))
  else Raise ValueError.

(** [a.T] reverses the axes. *)
Definition transpose {A} (a : ndarray A) : ndarray A :=
  mkarray (rev (shape a)) (fun idx => item a (rev idx)).

(** [a[...]] with [np.newaxis] and [:] entries only. *)
Inductive index : Type := newaxis | all.

Fixpoint getitem_shape (spec : list index) (s : list nat) : result (list nat) :=
  match spec with
  | [] => Ok s
  | newaxis :: spec' => r <- getitem_shape spec' s ;; Ok (1 :: r)
  | all :: spec' =>
      match s with
      | [] => Raise IndexError
      | d :: s' => r <- getitem_shape spec' s' ;; Ok (d :: r)
      end
  end.

(** The index in the indexed array that an index of the result reads. *)
Fixpoint getitem_index (spec : list index) (idx : list nat) : list nat :=
  match spec, idx with
  | [], _ => idx
  | newaxis :: spec', _ :: idx' => getitem_index spec' idx'
  | all :: spec', i :: idx' => i :: getitem_index spec' idx'
  | _ :: _, [] => []
  end.

Definition getitem {A} (spec : list index) (a : ndarray A) : result (ndarray A) :=
  s <- getitem_shape spec (shape a) ;;
  Ok (mkarray s (fun idx => item a (getitem_index spec idx))).

(** *** Broadcasting *)

Definition bdim (a b : nat) : result nat :=
  if a =? b then Ok a
  else if a =? 1 then Ok b
  else if b =? 1 then Ok a
  else Raise ValueError.

(** Shapes are aligned on their last axis: the argument lists are
    reversed shapes. *)
Fixpoint bshape_rev (s t : list nat) : result (list nat) :=
  match s, t with
  | [], _ => Ok t
  | _, [] => Ok s
  | a :: s', b :: t' => d <- bdim a b ;; r <- bshape_rev s' t' ;; Ok (d :: r)
  end.

Definition broadcast_shapes (s t : list nat) : result (list nat) :=
  r <- bshape_rev (rev s) (rev t) ;; Ok (rev r).

Definition clip (d i : nat) : nat := if d =? 1 then 0 else i.

Fixpoint clips (s idx : list nat) : list nat :=
  match s, idx with
  | d :: s', i :: idx' => clip d i :: clips s' idx'
  | _, _ => []
  end.

(** The index of an operand of shape [s] read at index [idx] of the
    broadcast result: leading axes the operand lacks are dropped and an
    axis of length one is read at 0. *)
Definition bindex (s idx : list nat) : list nat :=
  clips s (skipn (length idx - length s) idx).

(** Elementwise operation at a given result shape. *)
Definition zip_at {A B C} (f : A -> B -> C) (s : list nat)
    (a : ndarray A) (b : ndarray B) : ndarray C :=
  mkarray s (fun idx => f (item a (bindex (shape a) idx))
                          (item b (bindex (shape b) idx))).

Definition broadcast2 {A B C} (f : A -> B -> C)
    (a : ndarray A) (b : ndarray B) : result (ndarray C) :=
  s <- broadcast_shapes (shape a) (shape b) ;;
  Ok (zip_at f s a b).

(** *** Reductions *)

Definition insert_at (n x : nat) (idx : list nat) : list nat :=
  firstn n idx ++ x :: skipn n idx.

Definition remove_at (n : nat) (s : list nat) : list nat :=
  firstn n s ++ skipn (S n) s.

Definition set_at (n x : nat) (idx : list nat) : list nat :=
  firstn n idx ++ x :: skipn (S n) idx.

(** Reduce one axis away. *)
Definition reduce_axis (fold : nat -> (nat -> float) -> float) (axis : nat)
    (a : ndarray float) : ndarray float :=
  mkarray (remove_at axis (shape a))
          (fun idx => fold (nth axis (shape a) 0)
                           (fun j => item a (insert_at axis j idx))).

(** Reduce one axis and keep it with length one. *)
Definition reduce_keep (fold : nat -> (nat -> float) -> float) (axis : nat)
    (a : ndarray float) : ndarray float :=
  mkarray (set_at axis 1 (shape a))
          (fun idx => fold (nth axis (shape a) 0)
                           (fun j => item a (set_at axis j idx))).

(** Reduce the axes of an increasing tuple, the last one first. *)
Fixpoint reduce_axes (fold : nat -> (nat -> float) -> float) (axes : list nat)
    (a : ndarray float) : result (ndarray float) :=
  match axes with
  | [] => Ok a
  | ax :: axes' =>
      if ax <? ndim a
      then r <- reduce_axes fold axes' a ;; Ok (reduce_axis fold ax r)
      else Raise AxisError
  end.

(** [np.prod(a, axis=axes)] *)
Definition np_prod_arr (axes : list nat) (a : ndarray float) : result (ndarray float) :=
  reduce_axes fprod axes a.

(** [np.tensordot(a, b, (0, 0))]: the first axes of [a] and [b] are
    summed against each other. *)
Definition tensordot_arr (a b : ndarray float) : result (ndarray float) :=
  match shape a, shape b with
  | ka :: sa, kb :: sb =>
      if ka =? kb
      then Ok (mkarray (sa ++ sb)
                 (fun idx => fsum ka (fun k =>
                    fmul (item a (k :: firstn (length sa) idx))
                         (item b (k :: skipn (length sa) idx)))))
      else Raise ValueError
  | _, _ => Raise IndexError
  end.

(** [a.flatten()] *)
Definition flatten_arr {A} (a : ndarray A) : ndarray A :=
  mkarray [size (shape a)] (fun idx => item a (unravel (shape a) (hd 0 idx))).

(** [np.ones(s)], [np.zeros(s)] *)
Definition ones (s : list nat) : ndarray float := mkarray s (fun _ => Some 1%R).
Definition zeros (s : list nat) : ndarray float := mkarray s (fun _ => Some 0%R).

(** The reshape of a cotangent back to the shape of the operand. *)
Definition reshape_to {A} (s : list nat) (a : ndarray A) : ndarray A :=
  mkarray s (fun idx => item a (unravel (shape a) (ravel s idx))).

(** ** Traced values *)

(** A [Boxed] value depends on the traced argument; [pull g] is the
    cotangent of that argument for the cotangent [g] of the node.  The
    cotangents autograd accumulates on a node before it propagates them
    are propagated one by one here and added at the argument; all
    vector-Jacobian products being linear in [g], the result is the
    same number, and it is [nan] in the same cases. *)
Inductive value : Type :=
| Plain (a : ndarray float)
| Boxed (a : ndarray float) (pull : ndarray float -> float).

Definition val (x : value) : ndarray float :=
  match x with Plain a => a | Boxed a _ => a end.

Definition trace1 (x : value) (ans : ndarray float)
    (vjp : ndarray float -> ndarray float) : value :=
  match x with
  | Plain _ => Plain ans
  | Boxed _ px => Boxed ans (fun g => px (vjp g))
  end.

Definition trace2 (x y : value) (ans : ndarray float)
    (vjp_x vjp_y : ndarray float -> ndarray float) : value :=
  match x, y with
  | Plain _, Plain _ => Plain ans
  | Boxed _ px, Plain _ => Boxed ans (fun g => px (vjp_x g))
  | Plain _, Boxed _ py => Boxed ans (fun g => py (vjp_y g))
  | Boxed _ px, Boxed _ py => Boxed ans (fun g => fadd (px (vjp_x g)) (py (vjp_y g)))
  end.

(** autograd's [unbroadcast]: sum the leading axes the operand lacks,
    then every axis on which the operand has length one. *)
Fixpoint sum_leading (n : nat) (x : ndarray float) : ndarray float :=
  match n with
  | O => x
  | S n' => sum_leading n' (reduce_axis fsum 0 x)
  end.

Fixpoint sum_ones (axis : nat) (target : list nat) (x : ndarray float) : ndarray float :=
  match target with
  | [] => x
  | d :: target' =>
      sum_ones (S axis) target' (if d =? 1 then reduce_keep fsum axis x else x)
  end.

Definition unbroadcast (target : list nat) (x : ndarray float) : ndarray float :=
  sum_ones 0 target (sum_leading (ndim x - length target) x).

(** *** Primitives and their vector-Jacobian products

    The cotangent [g] of a node has the shape of the node ([ans]); the
    products of a vjp with [g] are taken at that shape. *)

(** [x - y]; vjps [g] and [-g]. *)
Definition np_subtract (x y : value) : result value :=
  ans <- broadcast2 fsub (val x) (val y) ;;
  Ok (trace2 x y ans
        (fun g => unbroadcast (shape (val x)) g)
        (fun g => unbroadcast (shape (val y)) (amap fneg g))).

(** [x * y]; vjps [y * g] and [x * g]. *)
Definition np_multiply (x y : value) : result value :=
  ans <- broadcast2 fmul (val x) (val y) ;;
  Ok (trace2 x y ans
        (fun g => unbroadcast (shape (val x)) (zip_at fmul (shape ans) (val y) g))
        (fun g => unbroadcast (shape (val y)) (zip_at fmul (shape ans) (val x) g))).

(** [np.where(y, y - 1, 1.)] *)
Definition where_pred (y : ndarray Z) : ndarray Z :=
  amap (fun n => if (n =? 0)%Z then 1%Z else (n - 1)%Z) y.

(** [x ** y] for an integer array [y];
    vjp [g * y * x ** np.where(y, y - 1, 1.)]. *)
Definition np_power (x : value) (y : ndarray Z) : result value :=
  ans <- broadcast2 fpow (val x) y ;;
  Ok (trace1 x ans
        (fun g => unbroadcast (shape (val x))
           (zip_at fmul (shape ans)
              (zip_at (fun gv n => fmul gv (of_int n)) (shape ans) g y)
              (zip_at fpow (shape ans) (val x) (where_pred y))))).

(** [np.exp(x)]; vjp [ans * g]. *)
Definition np_exp (x : value) : value :=
  let ans := amap fexp (val x) in
  trace1 x ans (fun g => zip_at fmul (shape ans) ans g).

(** The cotangent of a reduction brought back to the shape of the
    operand: the reduced axes are put back with length one. *)
Fixpoint remove_axes (axes : list nat) (idx : list nat) : list nat :=
  match axes with
  | [] => idx
  | ax :: axes' => remove_at ax (remove_axes axes' idx)
  end.

Definition keep_axes (axes : list nat) (s : list nat) (a : ndarray float) : ndarray float :=
  mkarray (fold_right (fun ax t => set_at ax 1 t) s axes)
          (fun idx => item a (remove_axes axes idx)).

(** [np.prod(x, axis=axes)];
    vjp [repeat_to_match_shape(g * ans, shape(x)) / x], where
    [repeat_to_match_shape(h, s)] is [reshape(h, new_shape) + zeros(s)]. *)
Definition np_prod (axes : list nat) (x : value) : result value :=
  ans <- np_prod_arr axes (val x) ;;
  Ok (trace1 x ans
        (fun g =>
           let s := shape (val x) in
           let g_repeated :=
             zip_at fadd s (keep_axes axes s (zip_at fmul (shape ans) g ans)) (zeros s) in
           zip_at fdiv s g_repeated (val x))).

(** [np.tensordot(a, b, (0, 0))]; the vjps contract the cotangent with
    the other operand over the axes that operand keeps. *)
Definition tensordot_vjp_a (a b g : ndarray float) : ndarray float :=
  mkarray (shape a)
    (fun idx => let sb := tl (shape b) in
       fsum (size sb) (fun i =>
         fmul (item g (tl idx ++ unravel sb i)) (item b (hd 0 idx :: unravel sb i)))).

Definition tensordot_vjp_b (a b g : ndarray float) : ndarray float :=
  mkarray (shape b)
    (fun idx => let sa := tl (shape a) in
       fsum (size sa) (fun i =>
         fmul (item a (hd 0 idx :: unravel sa i)) (item g (unravel sa i ++ tl idx)))).

Definition np_tensordot (a b : value) : result value :=
  ans <- tensordot_arr (val a) (val b) ;;
  Ok (trace2 a b ans (tensordot_vjp_a (val a) (val b)) (tensordot_vjp_b (val a) (val b))).

(** [x.flatten()] (autograd: [ravel]); vjp [reshape(g, shape(x))]. *)
Definition np_flatten (x : value) : value :=
  trace1 x (flatten_arr (val x)) (fun g => reshape_to (shape (val x)) g).

(** The index of the result of [a[spec]] at which an index of [a] is
    read. *)
Fixpoint getitem_back (spec : list index) (idx : list nat) : list nat :=
  match spec with
  | [] => idx
  | newaxis :: spec' => 0 :: getitem_back spec' idx
  | all :: spec' =>
      match idx with
      | [] => []
      | i :: idx' => i :: getitem_back spec' idx'
      end
  end.

(** [x[spec]]; vjp: zeros of the shape of [x] to which [g] is added at
    [spec]. *)
Definition np_getitem (spec : list index) (x : value) : result value :=
  ans <- getitem spec (val x) ;;
  Ok (trace1 x ans
        (fun g => mkarray (shape (val x))
           (fun idx => fadd (Some 0%R) (item g (getitem_back spec idx))))).

(** [np.array([x0, x1, ...])] of operands of one shape (autograd:
    [array_from_args]); the vjp of operand [i] is [g[i]]. *)
Fixpoint shape_eqb (s t : list nat) : bool :=
  match s, t with
  | [], [] => true
  | a :: s', b :: t' => (a =? b) && shape_eqb s' t'
  | _, _ => false
  end.

Definition subarray (i : nat) (g : ndarray float) : ndarray float :=
  mkarray (tl (shape g)) (fun idx => item g (i :: idx)).

Fixpoint array_pull (i : nat) (l : list value) : option (ndarray float -> float) :=
  match l with
  | [] => None
  | x :: l' =>
      match x, array_pull (S i) l' with
      | Plain _, p => p
      | Boxed _ px, None => Some (fun g => px (subarray i g))
      | Boxed _ px, Some p => Some (fun g => fadd (px (subarray i g)) (p g))
      end
  end.

Definition np_array (l : list value) : result value :=
  let s := match l with [] => [] | x :: _ => shape (val x) end in
  if forallb (fun x => shape_eqb (shape (val x)) s) l
  then
    let ans := mkarray (length l :: s)
                 (fun idx => item (val (nth (hd 0 idx) l (Plain (scalar nan)))) (tl idx)) in
    Ok (match array_pull 0 l with
        | None => Plain ans
        | Some p => Boxed ans p
        end)
  else Raise ValueError.

(** ** The program *)

(** [eval_contractions]: the three centre scalars are the arguments the
    program differentiates, so they are the ones that may be traced. *)
Definition eval_contractions (coords : ndarray float) (R_x R_y R_z : value)
    (angmom_comps : ndarray Z) (alphas prim_coeffs norm : ndarray float)
    : result value :=
  coords <- reshape [1; 3] coords ;;
  coords <- getitem [newaxis; newaxis; all; newaxis; all] (transpose coords) ;;
  center <- np_array [R_x; R_y; R_z] ;;
  center <- np_getitem [newaxis; newaxis; all; newaxis; newaxis] center ;;
  angmom_comps <- getitem [newaxis; newaxis; all; all; newaxis] (transpose angmom_comps) ;;
  alphas <- getitem [newaxis; all; newaxis; newaxis; newaxis] alphas ;;
  coords <- np_subtract (Plain coords) center ;;
  squares <- np_power coords (scalar 2%Z) ;;
  exponent <- np_multiply (Plain (amap fneg alphas)) squares ;;
  let gauss := np_exp exponent in
  monomial <- np_power coords angmom_comps ;;
  factors <- np_multiply monomial gauss ;;
  zeroth_part <- np_prod [0; 2] factors ;;
  norm <- getitem [all; all; newaxis] (transpose norm) ;;
  normed <- np_multiply (Plain norm) zeroth_part ;;
  contracted <- np_tensordot (Plain prim_coeffs) normed ;;
  Ok (np_flatten contracted).

(** The flat sequence a call returns. *)
Definition eval_contractions_list (coords : ndarray float) (R_x R_y R_z : float)
    (angmom_comps : ndarray Z) (alphas prim_coeffs norm : ndarray float)
    : result (list float) :=
  out <- eval_contractions coords (Plain (scalar R_x)) (Plain (scalar R_y))
           (Plain (scalar R_z)) angmom_comps alphas prim_coeffs norm ;;
  Ok (to_list (val out)).

(** [grad(eval_contractions, argnum)] for [argnum] 1, 2 or 3: the call
    is traced with that argument boxed; an output that is not a single
    number is refused, and the cotangent [ones] is pulled back. *)
Definition box_arg (argnum i : nat) (x : float) : value :=
  if argnum =? i
  then Boxed (scalar x) (fun g => item g [])
  else Plain (scalar x).

Definition grad_eval_contractions (argnum : nat)
    (coords : ndarray float) (R_x R_y R_z : float)
    (angmom_comps : ndarray Z) (alphas prim_coeffs norm : ndarray float)
    : result float :=
  ans <- eval_contractions coords (box_arg argnum 1 R_x) (box_arg argnum 2 R_y)
           (box_arg argnum 3 R_z) angmom_comps alphas prim_coeffs norm ;;
  if size (shape (val ans)) =? 1
  then Ok (match ans with
           | Boxed a pull => pull (ones (shape a))
           | Plain _ => Some 0%R
           end)
  else Raise TypeError.

(** [np.apply_along_axis(func1d, axis, arr, ...)] for a [func1d] that
    returns one number: the 1-d slices of [arr] along [axis] are visited
    in C order of the remaining axes, and there must be one at least. *)
Definition slice_along {A} (axis : nat) (arr : ndarray A) (idx : list nat) : ndarray A :=
  mkarray [nth axis (shape arr) 0]
          (fun j => item arr (insert_at axis (hd 0 j) idx)).

Definition apply_along_axis (func1d : ndarray float -> result float) (axis : nat)
    (arr : ndarray float) : result (ndarray float) :=
  if axis <? ndim arr then
    let outer := remove_at axis (shape arr) in
    if size outer =? 0 then Raise ValueError
    else
      res <- mapM (fun i => func1d (slice_along axis arr (unravel outer i)))
                  (seq 0 (size outer)) ;;
      Ok (of_list nan outer res)
  else Raise AxisError.

(** [np.vstack]: every array is made 2-d at least, then they are
    concatenated along the first axis. *)
Definition atleast_2d {A} (a : ndarray A) : ndarray A :=
  match shape a with
  | [] => mkarray [1; 1] (fun _ => item a [])
  | [n] => mkarray [1; n] (fun idx => item a (tl idx))
  | _ => a
  end.

Definition concat2 {A} (a b : ndarray A) : result (ndarray A) :=
  match shape a, shape b with
  | da :: sa, db :: sb =>
      if shape_eqb sa sb
      then Ok (mkarray (da + db :: sa)
                 (fun idx => let i := hd 0 idx in
                    if i <? da then item a idx else item b (i - da :: tl idx)))
      else Raise ValueError
  | _, _ => Raise ValueError
  end.

Fixpoint concatenate {A} (l : list (ndarray A)) : result (ndarray A) :=
  match l with
  | [] => Raise ValueError
  | [a] => Ok a
  | a :: l' => b <- concatenate l' ;; concat2 a b
  end.

Definition vstack {A} (l : list (ndarray A)) : result (ndarray A) :=
  concatenate (map atleast_2d l).

(** [eval_deriv]; [center] is unpacked into its three elements. *)
Definition eval_deriv {Orders : Type} (coords : ndarray float) (orders : Orders)
    (center : list float) (angmom_comps : ndarray Z)
    (alphas prim_coeffs norm : ndarray float) : result (ndarray float) :=
  match center with
  | [R_x; R_y; R_z] =>
      let g_x := grad_eval_contractions 1 in
      let g_y := grad_eval_contractions 2 in
      let g_z := grad_eval_contractions 3 in
      grad_x <- apply_along_axis
                  (fun p => g_x p R_x R_y R_z angmom_comps alphas prim_coeffs norm)
                  1 coords ;;
      grad_y <- apply_along_axis
                  (fun p => g_y p R_x R_y R_z angmom_comps alphas prim_coeffs norm)
                  1 coords ;;
      grad_z <- apply_along_axis
                  (fun p => g_z p R_x R_y R_z angmom_comps alphas prim_coeffs norm)
                  1 coords ;;
      stacked <- vstack [grad_x; grad_y; grad_z] ;;
      Ok (transpose stacked)
  | _ => Raise ValueError
  end.

(** ** The arrays of a call as objects of a store

    A numpy array is an object: a reference to a buffer, seen through
    a view.  The store is the list of the buffers; [x.reshape], [x.T] and
    [x[...]] return a reference to the buffer of [x], every other
    operation of the program allocates a buffer for its result, and no
    statement of the program assigns into an array. *)

Inductive obj : Type :=
| FloatArray (a : ndarray float)
| IntArray (a : ndarray Z).

Definition store : Type := list obj.

Record fref : Type := mkfref {
  fcell : nat;
  fview : ndarray float -> ndarray float
}.

Record zref : Type := mkzref {
  zcell : nat;
  zview : ndarray Z -> ndarray Z
}.

(** A traced operand: the reference to its array, and its pullback. *)
Inductive svalue : Type :=
| SPlain (r : fref)
| SBoxed (r : fref) (pull : ndarray float -> float).

Definition M (A : Type) : Type := store -> result A * store.

Definition ret {A} (a : A) : M A := fun st => (Ok a, st).

Definition raise {A} (e : exn) : M A := fun st => (Raise e, st).

Definition bindM {A B} (m : M A) (k : A -> M B) : M B :=
  fun st =>
    match m st with
    | (Ok a, st') => k a st'
    | (Raise e, st') => (Raise e, st')
    end.

Definition lift {A} (r : result A) : M A := fun st => (r, st).

Notation "x <~ m ;; k" := (bindM m (fun x => k))
  (at level 61, m at next level, right associativity).

Definition load (r : fref) : M (ndarray float) :=
  fun st =>
    match nth_error st (fcell r) with
    | Some (FloatArray a) => (Ok (fview r a), st)
    | _ => (Raise TypeError, st)
    end.

Definition loadz (r : zref) : M (ndarray Z) :=
  fun st =>
    match nth_error st (zcell r) with
    | Some (IntArray a) => (Ok (zview r a), st)
    | _ => (Raise TypeError, st)
    end.

Definition alloc (a : ndarray float) : M fref :=
  fun st => (Ok (mkfref (length st) (fun x => x)), st ++ [FloatArray a]).

Definition view_of (f : ndarray float -> ndarray float) (r : fref) : fref :=
  mkfref (fcell r) (fun x => f (fview r x)).

Definition zview_of (f : ndarray Z -> ndarray Z) (r : zref) : zref :=
  mkzref (zcell r) (fun x => f (zview r x)).

Definition sref (h : svalue) : fref :=
  match h with SPlain r => r | SBoxed r _ => r end.

Definition load_value (h : svalue) : M value :=
  match h with
  | SPlain r => a <~ load r ;; ret (Plain a)
  | SBoxed r pull => a <~ load r ;; ret (Boxed a pull)
  end.

Definition alloc_value (v : value) : M svalue :=
  match v with
  | Plain a => r <~ alloc a ;; ret (SPlain r)
  | Boxed a pull => r <~ alloc a ;; ret (SBoxed r pull)
  end.

(** Views. *)
Definition getitem_to {A} (s : list nat) (spec : list index) (a : ndarray A) : ndarray A :=
  mkarray s (fun idx => item a (getitem_index spec idx)).

Definition st_reshape (s : list nat) (r : fref) : M fref :=
  a <~ load r ;;
  if size s =? size (shape a) then ret (view_of (reshape_to s) r)
  else raise ValueError.

Definition st_getitem (spec : list index) (r : fref) : M fref :=
  a <~ load r ;;
  s <~ lift (getitem_shape spec (shape a)) ;;
  ret (view_of (getitem_to s spec) r).

Definition st_getitemz (spec : list index) (r : zref) : M zref :=
  a <~ loadz r ;;
  s <~ lift (getitem_shape spec (shape a)) ;;
  ret (zview_of (getitem_to s spec) r).

(** [x[spec]] for a traced operand: a view of its array, with the
    pullback [np_getitem] gives. *)
Definition st_np_getitem (spec : list index) (h : svalue) : M svalue :=
  v <~ load_value h ;;
  v' <~ lift (np_getitem spec v) ;;
  let r := view_of (getitem_to (shape (val v')) spec) (sref h) in
  ret (match v' with
       | Plain _ => SPlain r
       | Boxed _ pull => SBoxed r pull
       end).

(** Operations that allocate their result. *)
Definition st_op1 (f : value -> result value) (h : svalue) : M svalue :=
  v <~ load_value h ;; r <~ lift (f v) ;; alloc_value r.

Definition st_op2 (f : value -> value -> result value) (h1 h2 : svalue) : M svalue :=
  v1 <~ load_value h1 ;; v2 <~ load_value h2 ;; r <~ lift (f v1 v2) ;; alloc_value r.

Definition st_power (h : svalue) (y : ndarray Z) : M svalue :=
  v <~ load_value h ;; r <~ lift (np_power v y) ;; alloc_value r.

Definition st_negative (r : fref) : M fref :=
  a <~ load r ;; alloc (amap fneg a).

(** [eval_contractions], statement by statement. *)
Definition eval_contractions_st (coords : fref) (R_x R_y R_z : value)
    (angmom_comps : zref) (alphas prim_coeffs norm : fref) : M svalue :=
  coords <~ st_reshape [1; 3] coords ;;
  coords <~ st_getitem [newaxis; newaxis; all; newaxis; all] (view_of transpose coords) ;;
  center <~ (v <~ lift (np_array [R_x; R_y; R_z]) ;; alloc_value v) ;;
  center <~ st_np_getitem [newaxis; newaxis; all; newaxis; newaxis] center ;;
  angmom_comps <~ st_getitemz [newaxis; newaxis; all; all; newaxis]
                    (zview_of transpose angmom_comps) ;;
  alphas <~ st_getitem [newaxis; all; newaxis; newaxis; newaxis] alphas ;;
  coords <~ st_op2 np_subtract (SPlain coords) center ;;
  squares <~ st_power coords (scalar 2%Z) ;;
  neg_alphas <~ st_negative alphas ;;
  exponent <~ st_op2 np_multiply (SPlain neg_alphas) squares ;;
  gauss <~ st_op1 (fun x => Ok (np_exp x)) exponent ;;
  angmom <~ loadz angmom_comps ;;
  monomial <~ st_power coords angmom ;;
  factors <~ st_op2 np_multiply monomial gauss ;;
  zeroth_part <~ st_op1 (np_prod [0; 2]) factors ;;
  norm <~ st_getitem [all; all; newaxis] (view_of transpose norm) ;;
  normed <~ st_op2 np_multiply (SPlain norm) zeroth_part ;;
  contracted <~ st_op2 np_tensordot (SPlain prim_coeffs) normed ;;
  st_op1 (fun x => Ok (np_flatten x)) contracted.

Fixpoint mapM_st {A B} (f : A -> M B) (l : list A) : M (list B) :=
  match l with
  | [] => ret []
  | x :: l' => y <~ f x ;; ys <~ mapM_st f l' ;; ret (y :: ys)
  end.

(** [grad(eval_contractions, argnum)] on references. *)
Definition grad_st (argnum : nat) (coords : fref) (R_x R_y R_z : float)
    (angmom_comps : zref) (alphas prim_coeffs norm : fref) : M float :=
  ans <~ eval_contractions_st coords (box_arg argnum 1 R_x) (box_arg argnum 2 R_y)
           (box_arg argnum 3 R_z) angmom_comps alphas prim_coeffs norm ;;
  v <~ load_value ans ;;
  if size (shape (val v)) =? 1
  then ret (match v with
            | Boxed a pull => pull (ones (shape a))
            | Plain _ => Some 0%R
            end)
  else raise TypeError.

(** [np.apply_along_axis]: [func1d] receives views of [arr]; the
    results are gathered in a new array. *)
Definition apply_along_axis_st (func1d : fref -> M float) (axis : nat) (arr : fref)
    : M fref :=
  a <~ load arr ;;
  if axis <? ndim a then
    let outer := remove_at axis (shape a) in
    if size outer =? 0 then raise ValueError
    else
      res <~ mapM_st
               (fun i => func1d (view_of (fun x => slice_along axis x (unravel outer i)) arr))
               (seq 0 (size outer)) ;;
      alloc (of_list nan outer res)
  else raise AxisError.

Definition vstack_st (l : list fref) : M fref :=
  arrs <~ mapM_st load l ;; r <~ lift (vstack arrs) ;; alloc r.

(** [eval_deriv], statement by statement.  [center] is a 1-d array, as
    the script of the module passes it: unpacking it gives its elements,
    and raises [ValueError] unless there are three. *)
Definition eval_deriv_st {Orders : Type} (coords : fref) (orders : Orders)
    (center : fref) (angmom_comps : zref) (alphas prim_coeffs norm : fref) : M fref :=
  c <~ load center ;;
  match to_list c with
  | [R_x; R_y; R_z] =>
      grad_x <~ apply_along_axis_st
                  (fun p => grad_st 1 p R_x R_y R_z angmom_comps alphas prim_coeffs norm)
                  1 coords ;;
      grad_y <~ apply_along_axis_st
                  (fun p => grad_st 2 p R_x R_y R_z angmom_comps alphas prim_coeffs norm)
                  1 coords ;;
      grad_z <~ apply_along_axis_st
                  (fun p => grad_st 3 p R_x R_y R_z angmom_comps alphas prim_coeffs norm)
                  1 coords ;;
      stacked <~ vstack_st [grad_x; grad_y; grad_z] ;;
      ret (view_of transpose stacked)
  | _ => raise ValueError
  end.


(** *** What a run on the store has to do with the function of the values *)

Definition extends (st st1 : store) : Prop := exists ext, st1 = st ++ ext.

(** [m] run from [st] only allocates, raises what [p] raises, and
    returns a result related to the one of [p]. *)
Definition refines {A B} (rel : store -> A -> B -> Prop) (m : M A) (p : result B)
    (st : store) : Prop :=
  extends st (snd (m st))
  /\ match p with
     | Ok b => exists a, fst (m st) = Ok a /\ rel (snd (m st)) a b
     | Raise e => fst (m st) = Raise e
     end.

Definition denotes_f (st : store) (r : fref) (a : ndarray float) : Prop :=
  load r st = (Ok a, st).

Definition denotes_z (st : store) (r : zref) (a : ndarray Z) : Prop :=
  loadz r st = (Ok a, st).

Definition denotes_v (st : store) (h : svalue) (v : value) : Prop :=
  load_value h st = (Ok v, st).

Definition same {A} (st : store) (x y : A) : Prop := x = y.


(** ** The closed form the specification gives

    Written from the words of the specification, to be compared with
    what [eval_contractions] computes. *)
Section ClosedForm.
Variables (coords : ndarray R) (R_x R_y R_z : R).
Variables (angmom_comps : ndarray nat) (alphas prim_coeffs norm : ndarray R).

(** The shifted coordinate [p_d - R_d]. *)
Definition spec_delta (d : nat) : R :=
  (item coords [d] - nth d [R_x; R_y; R_z] 0)%R.

(** [(p_d - R_d)^a_{l,d} * exp(- alpha_k * (p_d - R_d)^2)] *)
Definition spec_factor (l k d : nat) : R :=
  (spec_delta d ^ item angmom_comps [l; d]
   * exp (- (item alphas [k] * (spec_delta d) ^ 2)))%R.

(** The value of contraction [m] for the angular momentum vector [l]. *)
Definition spec_contraction (K m l : nat) : R :=
  rsum K (fun k =>
    item prim_coeffs [k; m] * item norm [l; k]
    * (spec_factor l k 0 * spec_factor l k 1 * spec_factor l k 2))%R.
End ClosedForm.


(** Rows and columns of a matrix, and a reordering of one axis, for the
    statements about the layout of the arguments. *)
Definition row {A} (l : nat) (a : ndarray A) : ndarray A :=
  mkarray (1 :: tl (shape a)) (fun idx => item a (l :: tl idx)).

Definition column {A} (m : nat) (a : ndarray A) : ndarray A :=
  match shape a with
  | d :: _ => mkarray [d; 1] (fun idx => item a [hd 0 idx; m])
  | [] => a
  end.



(** ** The backward pass

    [wexp a] is the exponent [np.where(a, a - 1, 1.)] of the power rule,
    [prod3] the product over the axes (0, 2) of the factors of one
    primitive, in the order [np.prod] multiplies them here. *)
Definition wexp (n : nat) : Z := if (Z.of_nat n =? 0)%Z then 1%Z else (Z.of_nat n - 1)%Z.

Definition prod3 (v : nat -> R) : R := (1 * (1 * v 0%nat * v 1%nat * v 2%nat))%R.


(** The number the backward pass computes for centre scalar [d]. *)
Section Backward.
Variables (K d : nat).
Variables (delta : nat -> R) (a : nat -> nat) (alpha c n : nat -> R).

Definition fwd_gauss (k j : nat) : R := exp (- alpha k * delta j ^ 2)%R.
Definition fwd_factor (k j : nat) : R := (delta j ^ a j * fwd_gauss k j)%R.

Definition pull_shift (g : float) : float := fneg g.
Definition pull_square (g : float) : float :=
  pull_shift (fmul (fmul g (of_int 2)) (rpow (delta d) 1)).
Definition pull_exponent (g : nat -> float) : float :=
  pull_square (fsum K (fun k => fmul (Some (- alpha k)%R) (g k))).
Definition pull_gauss (g : nat -> float) : float :=
  pull_exponent (fun k => fmul (Some (fwd_gauss k d)) (g k)).
Definition pull_monomial (g : float) : float :=
  pull_shift (fmul (fmul g (of_int (Z.of_nat (a d)))) (rpow (delta d) (wexp (a d)))).
Definition pull_factors (g : nat -> float) : float :=
  fadd (pull_monomial (fsum K (fun k => fmul (Some (fwd_gauss k d)) (g k))))
       (pull_gauss (fun k => fmul (Some (delta d ^ a d)%R) (g k))).
Definition pull_prod (g : nat -> float) : float :=
  pull_factors (fun k =>
    fdiv (fadd (fmul (g k) (Some (prod3 (fwd_factor k)))) (Some 0%R))
         (Some (fwd_factor k d))).
Definition pull_normed (g : nat -> float) : float :=
  pull_prod (fun k => fmul (Some (n k)) (g k)).
Definition ad_gradient : float :=
  pull_normed (fun k => fmul (Some (c k)) (Some 1%R)).
End Backward.


(** A traced node of the tape of a call with one angular momentum
    vector and one contraction, for the centre scalar [d]: its shape, its
    elements [v], and its pullback [q] as a function of the elements of
    the cotangent it reads. *)
Definition node1 (d : nat) (x : value) (v : nat -> R) (q : float -> float) : Prop :=
  exists A p, x = Boxed A p /\ shape A = [1; 1; 3; 1; 1]
    /\ (forall j, j < 3 -> item A [0; 0; j; 0; 0] = Some (v j))
    /\ (forall g, shape g = [1; 1; 3; 1; 1] -> p g = q (item g [0; 0; d; 0; 0])).

Definition bounded_ext (K : nat) (q : (nat -> float) -> float) : Prop :=
  forall f f', (forall k, k < K -> f k = f' k) -> q f = q f'.

Definition nodeK (K d : nat) (x : value) (v : nat -> nat -> R)
    (q : (nat -> float) -> float) : Prop :=
  exists A p, x = Boxed A p /\ shape A = [1; K; 3; 1; 1]
    /\ (forall k j, k < K -> j < 3 -> item A [0; k; j; 0; 0] = Some (v k j))
    /\ (forall g, shape g = [1; K; 3; 1; 1] -> p g = q (fun k => item g [0; k; d; 0; 0]))
    /\ bounded_ext K q.

Definition node3 (K : nat) (x : value) (v : nat -> R)
    (q : (nat -> float) -> float) : Prop :=
  exists A p, x = Boxed A p /\ shape A = [K; 1; 1]
    /\ (forall k, k < K -> item A [k; 0; 0] = Some (v k))
    /\ (forall g, shape g = [K; 1; 1] -> p g = q (fun k => item g [k; 0; 0]))
    /\ bounded_ext K q.


Ltac bix := cbn [bindex clips skipn length Nat.sub clip Nat.eqb].

Ltac zitem := cbn [item zip_at shape where_pred amap scalar rev app].


(** ** Elements, and the derivative the specification speaks of *)

Definition elem {A} (a : ndarray A) (i : nat) : A := item a [i].
Definition entry {A} (a : ndarray A) (i j : nat) : A := item a [i; j].

(** The closed form as a function of the centre scalar [d], for one
    angular momentum vector and one contraction. *)
Definition with_center (d : nat) (r : R) (j : nat) (R_j : R) : R :=
  if j =? d then r else R_j.

Definition spec_of_center (coords : ndarray R) (R_x R_y R_z : R)
    (angmom_comps : ndarray nat) (alphas prim_coeffs norm : ndarray R)
    (K d : nat) (r : R) : R :=
  spec_contraction coords (with_center d r 0 R_x) (with_center d r 1 R_y)
    (with_center d r 2 R_z) angmom_comps alphas prim_coeffs norm K 0 0.

(** One factor [(p - r)^a * exp(- (alpha (p - r)^2))] as a function of
    the centre scalar [r], and its derivative. *)
Definition factor_of_center (p : R) (a : nat) (alpha r : R) : R :=
  ((p - r) ^ a * exp (- (alpha * (p - r) ^ 2)))%R.

Definition factor_slope (p : R) (a : nat) (alpha r : R) : R :=
  (- (INR a * (p - r) ^ pred a) * exp (- (alpha * (p - r) ^ 2))
   + (p - r) ^ a * (exp (- (alpha * (p - r) ^ 2)) * (2 * alpha * (p - r))))%R.

(** The real number the backward pass computes when the factor of axis
    [d] is not zero. *)
Definition wexp_nat (n : nat) : nat := if n =? 0 then 1 else n - 1.

Definition ad_weight (d : nat) (delta : nat -> R) (a : nat -> nat)
    (alpha c n : nat -> R) (k : nat) : R :=
  ((n k * (c k * 1) * prod3 (fwd_factor delta a alpha k) + 0)
   / fwd_factor delta a alpha k d)%R.

Definition ad_value (K d : nat) (delta : nat -> R) (a : nat -> nat)
    (alpha c n : nat -> R) : R :=
  (- (rsum K (fun k => fwd_gauss delta alpha k d * ad_weight d delta a alpha c n k)
      * IZR (Z.of_nat (a d)) * delta d ^ wexp_nat (a d))
   + - (rsum K (fun k => - alpha k * (fwd_gauss delta alpha k d
                                      * (delta d ^ a d * ad_weight d delta a alpha c n k)))
        * IZR 2 * delta d ^ 1))%R.

(** The rows of the batch: [coords[i]]. *)
Definition point_of {A} (coords : ndarray A) (i : nat) : ndarray A :=
  slice_along 1 coords [i].


(** The exact derivative of the closed form with respect to the centre
    scalar [d]: the factor of axis [d] is differentiated, the two others
    are constants. *)
Definition other_factors (coords : ndarray R) (R_x R_y R_z : R)
    (angmom_comps : ndarray nat) (alphas : ndarray R) (d k : nat) : R :=
  match d with
  | 0 => spec_factor coords R_x R_y R_z angmom_comps alphas 0 k 1
         * spec_factor coords R_x R_y R_z angmom_comps alphas 0 k 2
  | 1 => spec_factor coords R_x R_y R_z angmom_comps alphas 0 k 0
         * spec_factor coords R_x R_y R_z angmom_comps alphas 0 k 2
  | _ => spec_factor coords R_x R_y R_z angmom_comps alphas 0 k 0
         * spec_factor coords R_x R_y R_z angmom_comps alphas 0 k 1
  end%R.

Definition spec_slope (coords : ndarray R) (R_x R_y R_z : R)
    (angmom_comps : ndarray nat) (alphas prim_coeffs norm : ndarray R)
    (K d : nat) : R :=
  rsum K (fun k =>
    entry prim_coeffs k 0 * entry norm 0 k
    * other_factors coords R_x R_y R_z angmom_comps alphas d k
    * factor_slope (elem coords d) (entry angmom_comps 0 d) (elem alphas k)
        (nth d [R_x; R_y; R_z] 0))%R.

(** An array of finite floats, and arrays written out element by
    element. *)
Definition finite (a : ndarray R) : ndarray float := amap fin a.

Definition vector {A} (d : A) (l : list A) : ndarray A := of_list d [length l] l.

Definition matrix {A} (d : A) (rows cols : nat) (l : list A) : ndarray A :=
  of_list d [rows; cols] l.

(** [p + t] for two vectors. *)
Definition translate (p t : ndarray R) : ndarray R := zip_at Rplus (shape p) p t.

(** A sample basis: two primitives, two angular momentum vectors, two
    contractions. *)
Definition sample_point : ndarray R := vector 0%R [1; 2; 3]%R.
Definition sample_angmom : ndarray nat := matrix 0 2 3 [1; 0; 0; 0; 1; 1].
Definition sample_alphas : ndarray R := vector 0%R [1; 2]%R.
Definition sample_coeffs : ndarray R := matrix 0%R 2 2 [1; 2; 3; 4]%R.
Definition sample_norm : ndarray R := matrix 0%R 2 2 [1; 1; 1; 1]%R.

(** The scenarios of the specification: one primitive with exponent 1,
    one contraction with coefficient 1, normalisation 1. *)
Definition unit_alphas : ndarray R := vector 0%R [1%R].
Definition unit_coeffs : ndarray R := matrix 0%R 1 1 [1%R].
Definition unit_norm : ndarray R := matrix 0%R 1 1 [1%R].
Definition angmom_px : ndarray nat := matrix 0 1 3 [1; 0; 0].
Definition point_origin : ndarray R := vector 0%R [0; 0; 0]%R.
Definition point_x1 : ndarray R := vector 0%R [1; 0; 0]%R.

(** Batches of points, and a basis with one angular momentum vector and
    one contraction. *)
Definition batch_origin : ndarray R := matrix 0%R 1 3 [0; 0; 0]%R.
Definition batch_x1 : ndarray R := matrix 0%R 1 3 [1; 0; 0]%R.
Definition sample_batch : ndarray R := matrix 0%R 2 3 [1; 2; 3; 4; 5; 6]%R.
Definition sample_angmom1 : ndarray nat := matrix 0 1 3 [1; 0; 2].
Definition sample_coeffs1 : ndarray R := matrix 0%R 2 1 [1; 2]%R.
Definition sample_norm1 : ndarray R := matrix 0%R 1 2 [1; 1]%R.


(** A store that holds the arguments of a call. *)
Definition cell_ref (c : nat) : fref := mkfref c (fun x => x).
Definition cell_zref (c : nat) : zref := mkzref c (fun x => x).

Definition sample_store : store :=
  [FloatArray (finite sample_point); FloatArray (finite sample_batch);
   FloatArray (finite (vector 0%R [0; 1; 2]%R));
   IntArray (amap Z.of_nat sample_angmom1); FloatArray (finite sample_alphas);
   FloatArray (finite sample_coeffs1); FloatArray (finite sample_norm1)].

(** ** The forward pass over any arithmetic

    The statements of [eval_contractions] once more, without tracing,
    over the numbers and the operations of a record: the exact numbers
    of this file ([exact]), which give what [eval_contractions] gives, or
    binary64 numbers with the rounding of every operation, which show
    where the equalities of exact arithmetic stop. *)
Record arithmetic (F : Type) : Type := mkarithmetic {
  a_nan : F;
  a_zero : F;
  a_one : F;
  a_add : F -> F -> F;
  a_sub : F -> F -> F;
  a_mul : F -> F -> F;
  a_neg : F -> F;
  a_exp : F -> F;
  (** [x ** n] for a Python integer [n], and for an element [n] of an
      integer array. *)
  a_pow_scalar : F -> Z -> F;
  a_pow : F -> Z -> F
}.

Section Forward.
Variables (F : Type) (ops : arithmetic F).

(** Sums and products accumulate in the order of the index. *)
Fixpoint sum_in (n : nat) (f : nat -> F) : F :=
  match n with
  | O => a_zero ops
  | S n' => a_add ops (sum_in n' f) (f n')
  end.

Fixpoint prod_in (n : nat) (f : nat -> F) : F :=
  match n with
  | O => a_one ops
  | S n' => a_mul ops (prod_in n' f) (f n')
  end.

Definition reduce_axis_in (fold : nat -> (nat -> F) -> F) (axis : nat)
    (a : ndarray F) : ndarray F :=
  mkarray (remove_at axis (shape a))
          (fun idx => fold (nth axis (shape a) 0)
                           (fun j => item a (insert_at axis j idx))).

Fixpoint reduce_axes_in (fold : nat -> (nat -> F) -> F) (axes : list nat)
    (a : ndarray F) : result (ndarray F) :=
  match axes with
  | [] => Ok a
  | ax :: axes' =>
      if ax <? ndim a
      then r <- reduce_axes_in fold axes' a ;; Ok (reduce_axis_in fold ax r)
      else Raise AxisError
  end.

Definition tensordot_in (a b : ndarray F) : result (ndarray F) :=
  match shape a, shape b with
  | ka :: sa, kb :: sb =>
      if ka =? kb
      then Ok (mkarray (sa ++ sb)
                 (fun idx => sum_in ka (fun k =>
                    a_mul ops (item a (k :: firstn (length sa) idx))
                              (item b (k :: skipn (length sa) idx)))))
      else Raise ValueError
  | _, _ => Raise IndexError
  end.

Definition eval_contractions_in (coords : ndarray F) (R_x R_y R_z : F)
    (angmom_comps : ndarray Z) (alphas prim_coeffs norm : ndarray F)
    : result (ndarray F) :=
  coords <- reshape [1; 3] coords ;;
  coords <- getitem [newaxis; newaxis; all; newaxis; all] (transpose coords) ;;
  let center := mkarray [3] (fun idx => nth (hd 0 idx) [R_x; R_y; R_z] (a_nan ops)) in
  center <- getitem [newaxis; newaxis; all; newaxis; newaxis] center ;;
  angmom_comps <- getitem [newaxis; newaxis; all; all; newaxis] (transpose angmom_comps) ;;
  alphas <- getitem [newaxis; all; newaxis; newaxis; newaxis] alphas ;;
  coords <- broadcast2 (a_sub ops) coords center ;;
  squares <- broadcast2 (a_pow_scalar ops) coords (scalar 2%Z) ;;
  exponent <- broadcast2 (a_mul ops) (amap (a_neg ops) alphas) squares ;;
  let gauss := amap (a_exp ops) exponent in
  monomial <- broadcast2 (a_pow ops) coords angmom_comps ;;
  factors <- broadcast2 (a_mul ops) monomial gauss ;;
  zeroth_part <- reduce_axes_in prod_in [0; 2] factors ;;
  norm <- getitem [all; all; newaxis] (transpose norm) ;;
  normed <- broadcast2 (a_mul ops) norm zeroth_part ;;
  contracted <- tensordot_in prim_coeffs normed ;;
  Ok (flatten_arr contracted).

Definition eval_contractions_list_in (coords : ndarray F) (R_x R_y R_z : F)
    (angmom_comps : ndarray Z) (alphas prim_coeffs norm : ndarray F)
    : result (list F) :=
  out <- eval_contractions_in coords R_x R_y R_z angmom_comps alphas prim_coeffs norm ;;
  Ok (to_list out).
End Forward.

(** The exact arithmetic of this file. *)
Definition exact : arithmetic float :=
  mkarithmetic nan (Some 0%R) (Some 1%R) fadd fsub fmul fneg fexp fpow fpow.

(** Binary64: every operation is rounded to the nearest double.  [exp]
    and the [pow] that numpy calls for the elements of an integer array
    are functions of the C library, parameters here; [x ** 2] is
    [x * x]. *)
Module Binary64.
Import PrimFloat.

Definition zero : PrimFloat.float := 0%float.
Definition neg_zero : PrimFloat.float := (- 0)%float.
Definition one : PrimFloat.float := 1%float.
(** The doubles nearest to 0.1, 0.2 and 0.3. *)
Definition c01 : PrimFloat.float := 0x1.999999999999ap-4%float.
Definition c02 : PrimFloat.float := 0x1.999999999999ap-3%float.
Definition c03 : PrimFloat.float := 0x1.3333333333333p-2%float.
(** The double nearest to -0.2, and the next one towards 0. *)
Definition m02 : PrimFloat.float := (-0x1.9999999999999p-3)%float.
Definition m02_up : PrimFloat.float := (-0x1.9999999999998p-3)%float.

Definition arith (exp64 : PrimFloat.float -> PrimFloat.float)
    (pow64 : PrimFloat.float -> Z -> PrimFloat.float) : arithmetic PrimFloat.float :=
  mkarithmetic PrimFloat.nan zero one PrimFloat.add PrimFloat.sub PrimFloat.mul
    PrimFloat.opp exp64
    (fun x n => if (n =? 2)%Z then PrimFloat.mul x x else pow64 x n)
    pow64.
End Binary64.

Definition b64_angmom_px : ndarray Z := matrix 0%Z 1 3 [1; 0; 0]%Z.
Definition b64_alphas1 : ndarray PrimFloat.float := vector Binary64.zero [Binary64.zero].
Definition b64_coeffs1 : ndarray PrimFloat.float := matrix Binary64.zero 1 1 [Binary64.one].
Definition b64_norm1 : ndarray PrimFloat.float := matrix Binary64.zero 1 1 [Binary64.one].
Definition b64_point_x : ndarray PrimFloat.float :=
  vector Binary64.zero [Binary64.c01; Binary64.zero; Binary64.zero].
(** [p + t] and [R_x + t_x] for [t = (0.2, 0, 0)], as binary64 forms them. *)
Definition b64_point_x_moved : ndarray PrimFloat.float :=
  vector Binary64.zero
    [PrimFloat.add Binary64.c01 Binary64.c02; PrimFloat.add Binary64.zero Binary64.zero;
     PrimFloat.add Binary64.zero Binary64.zero].
Definition b64_center_x : PrimFloat.float := Binary64.c03.
Definition b64_center_x_moved : PrimFloat.float := PrimFloat.add Binary64.c03 Binary64.c02.

(** [np.broadcast_to(a, s)] *)
Definition broadcast_to {A} (s : list nat) (a : ndarray A) : ndarray A :=
  mkarray s (fun idx => item a (bindex (shape a) idx)).

(** ** The script of the module

    The statements the module runs when it is loaded: they draw a batch
    of points and a basis at random, evaluate the contraction and its
    gradient, and compare the gradient with central differences.  The
    draws are the arguments of the definitions. *)

(** [np.apply_along_axis(func1d, axis, arr, ...)] for a [func1d] that
    returns a 1-d array, given as the list of its elements: the first
    result fixes the length [n] of the new axis, every result is assigned
    to its place in the buffer (a result of length one is broadcast,
    another length is refused), and the new axis takes the place of
    [axis]. *)
Definition fit (n : nat) (r : list float) : result (list float) :=
  if length r =? n then Ok r
  else if length r =? 1 then Ok (repeat (hd nan r) n)
  else Raise ValueError.

Definition apply_along_axis_1d (func1d : ndarray float -> result (list float))
    (axis : nat) (arr : ndarray float) : result (ndarray float) :=
  if axis <? ndim arr then
    let outer := remove_at axis (shape arr) in
    if size outer =? 0 then Raise ValueError
    else
      res <- func1d (slice_along axis arr (unravel outer 0)) ;;
      let n := length res in
      buff <- mapM (fun i => r <- func1d (slice_along axis arr (unravel outer i)) ;;
                             fit n r)
                   (seq 0 (size outer)) ;;
      Ok (mkarray (insert_at axis n outer)
            (fun idx => nth (nth axis idx 0)
                            (nth (ravel outer (remove_at axis idx)) buff []) nan))
  else Raise AxisError.

(** [np.hstack]: every array is made 1-d at least; 1-d arrays are
    concatenated along the first axis, the others along the second. *)
Definition atleast_1d {A} (a : ndarray A) : ndarray A :=
  match shape a with
  | [] => mkarray [1] (fun _ => item a [])
  | _ => a
  end.

Definition concat2_at {A} (axis : nat) (a b : ndarray A) : result (ndarray A) :=
  if axis <? ndim a then
    if (ndim a =? ndim b) && shape_eqb (remove_at axis (shape a)) (remove_at axis (shape b))
    then
      let da := nth axis (shape a) 0 in
      Ok (mkarray (set_at axis (da + nth axis (shape b) 0) (shape a))
            (fun idx => let i := nth axis idx 0 in
               if i <? da then item a idx else item b (set_at axis (i - da) idx)))
    else Raise ValueError
  else Raise AxisError.

Fixpoint concatenate_at {A} (axis : nat) (l : list (ndarray A)) : result (ndarray A) :=
  match l with
  | [] => Raise ValueError
  | [a] => if axis <? ndim a then Ok a else Raise AxisError
  | a :: l' => b <- concatenate_at axis l' ;; concat2_at axis a b
  end.

Definition hstack {A} (l : list (ndarray A)) : result (ndarray A) :=
  match map atleast_1d l with
  | [] => Raise IndexError
  | (a :: _) as arrs =>
      if ndim a =? 1 then concatenate_at 0 arrs else concatenate_at 1 arrs
  end.

(** [np.allclose(a, b)] with the default tolerances: every element of
    [a] is within [atol + rtol * |b|] of the element of [b]; [nan] is
    close to nothing. *)
Definition rtol : R := (/ 100000)%R.
Definition atol : R := (/ 100000000)%R.

Definition isclose (x y : float) : bool :=
  match x, y with
  | Some a, Some b =>
      if Rle_dec (Rabs (a - b)) (atol + rtol * Rabs b) then true else false
  | _, _ => false
  end.

Definition allclose (a b : ndarray float) : result bool :=
  c <- broadcast2 isclose a b ;;
  Ok (forallb (fun x => x) (to_list c)).

(** [output]: the contraction at every point of the batch. *)
Definition output (coords : ndarray float) (R_x R_y R_z : float)
    (angmom_comps : ndarray Z) (alphas prim_coeffs norm : ndarray float)
    : result (ndarray float) :=
  apply_along_axis_1d
    (fun p => eval_contractions_list p R_x R_y R_z angmom_comps alphas prim_coeffs norm)
    1 coords.

(** [(f(R + dx) - f(R - dx)) / (2 * dx)], for the three centre scalars. *)
Definition central_difference (dx : float) (plus minus : ndarray float)
    : result (ndarray float) :=
  diff <- broadcast2 fsub plus minus ;;
  broadcast2 fdiv diff (scalar (fmul (of_int 2) dx)).

Definition grad_numerical_x (dx : float) (coords : ndarray float) (R_x R_y R_z : float)
    (angmom_comps : ndarray Z) (alphas prim_coeffs norm : ndarray float)
    : result (ndarray float) :=
  plus <- output coords (fadd R_x dx) R_y R_z angmom_comps alphas prim_coeffs norm ;;
  minus <- output coords (fsub R_x dx) R_y R_z angmom_comps alphas prim_coeffs norm ;;
  central_difference dx plus minus.

Definition grad_numerical_y (dx : float) (coords : ndarray float) (R_x R_y R_z : float)
    (angmom_comps : ndarray Z) (alphas prim_coeffs norm : ndarray float)
    : result (ndarray float) :=
  plus <- output coords R_x (fadd R_y dx) R_z angmom_comps alphas prim_coeffs norm ;;
  minus <- output coords R_x (fsub R_y dx) R_z angmom_comps alphas prim_coeffs norm ;;
  central_difference dx plus minus.

Definition grad_numerical_z (dx : float) (coords : ndarray float) (R_x R_y R_z : float)
    (angmom_comps : ndarray Z) (alphas prim_coeffs norm : ndarray float)
    : result (ndarray float) :=
  plus <- output coords R_x R_y (fadd R_z dx) angmom_comps alphas prim_coeffs norm ;;
  minus <- output coords R_x R_y (fsub R_z dx) angmom_comps alphas prim_coeffs norm ;;
  central_difference dx plus minus.

Definition grad_numerical (dx : float) (coords : ndarray float) (R_x R_y R_z : float)
    (angmom_comps : ndarray Z) (alphas prim_coeffs norm : ndarray float)
    : result (ndarray float) :=
  gx <- grad_numerical_x dx coords R_x R_y R_z angmom_comps alphas prim_coeffs norm ;;
  gy <- grad_numerical_y dx coords R_x R_y R_z angmom_comps alphas prim_coeffs norm ;;
  gz <- grad_numerical_z dx coords R_x R_y R_z angmom_comps alphas prim_coeffs norm ;;
  hstack [gx; gy; gz].

(** The statements of the script after the draws, for a step [dx] and a
    normalisation [norm]: what it prints.  [center] is the 1-d array the
    script draws; [eval_deriv] unpacks it into its elements. *)
Definition script_from (dx : float) (coords center : ndarray float)
    (angmom_comps : ndarray Z) (alphas prim_coeffs norm : ndarray float)
    : result (ndarray float * (ndarray float * list nat) * bool) :=
  match to_list center with
  | [R_x; R_y; R_z] =>
      out <- output coords R_x R_y R_z angmom_comps alphas prim_coeffs norm ;;
      gradient <- eval_deriv coords 1%Z (to_list center) angmom_comps alphas
                    prim_coeffs norm ;;
      numerical <- grad_numerical dx coords R_x R_y R_z angmom_comps alphas
                     prim_coeffs norm ;;
      close <- allclose gradient numerical ;;
      Ok (out, (gradient, shape gradient), close)
  | _ => Raise ValueError
  end.

(** The script: [dx = 1e-5], [norm = np.ones((1, 2))]; the arguments are
    the draws [coords] (10 x 3), [center] (3), [angmom_comps] (1 x 3),
    [alphas] (1) and [prim_coeffs] (2 x 1). *)
Definition dx : float := fin (/ 100000)%R.

Definition script (coords center : ndarray float) (angmom_comps : ndarray Z)
    (alphas prim_coeffs : ndarray float)
    : result (ndarray float * (ndarray float * list nat) * bool) :=
  script_from dx coords center angmom_comps alphas prim_coeffs (ones [1; 2]).

(** The central difference quotient of [f] at [c] for the step [h], for
    the statements. *)
Definition difference_quotient (f : R -> R) (c h : R) : R :=
  ((f (c + h) - f (c - h)) / (2 * h))%R.

(** [np.ones(s)] as an array of reals. *)
Definition ones_R (s : list nat) : ndarray R := mkarray s (fun _ => 1%R).

(** * Proofs *)

(** ** Floats and sums *)

Lemma fsum_ext n f g : (forall k, k < n -> f k = g k) -> fsum n f = fsum n g.
Proof.
  induction n as [|n IH]; intros H; simpl; [reflexivity|].
  rewrite IH, H by auto with arith. reflexivity.
Qed.

Lemma fsum_fin n (f : nat -> R) : fsum n (fun k => Some (f k)) = Some (rsum n f).
Proof. induction n as [|n IH]; simpl; [reflexivity|]. now rewrite IH. Qed.

Lemma rsum_ext n f g : (forall k, k < n -> f k = g k) -> rsum n f = rsum n g.
Proof.
  induction n as [|n IH]; intros H; simpl; [reflexivity|].
  rewrite IH, H by auto with arith. reflexivity.
Qed.

Lemma rpow_nat x n : rpow x (Z.of_nat n) = Some (x ^ n)%R.
Proof.
  unfold rpow. destruct (Z.leb_spec 0 (Z.of_nat n)); [|lia].
  now rewrite Nat2Z.id.
Qed.

Lemma rpow_2 x : rpow x 2 = Some (x ^ 2)%R.
Proof. exact (rpow_nat x 2). Qed.

(** ** Shapes and indices *)

Lemma bdim_refl n : bdim n n = Ok n.
Proof. unfold bdim. now rewrite Nat.eqb_refl. Qed.

Lemma bdim_1_l n : bdim 1 n = Ok n.
Proof. unfold bdim. destruct (Nat.eqb_spec 1 n); [now subst|reflexivity]. Qed.

Lemma bdim_1_r n : bdim n 1 = Ok n.
Proof. unfold bdim. destruct (Nat.eqb_spec n 1); [now subst|reflexivity]. Qed.

Lemma clip_lt d i : i < d -> clip d i = i.
Proof. unfold clip. destruct (Nat.eqb_spec d 1); lia. Qed.

Lemma unravel_rows M L i : unravel [M; L; 1] i = [i / L; i mod L; 0].
Proof.
  cbn [unravel size fold_right].
  rewrite !Nat.mul_1_r, !Nat.div_1_r, Nat.mod_1_r. reflexivity.
Qed.

Lemma nth_to_list A (a : ndarray A) d i :
  i < size (shape a) -> nth i (to_list a) d = item a (unravel (shape a) i).
Proof.
  intros Hi. unfold to_list.
  rewrite (nth_indep _ d (item a (unravel (shape a) 0)))
    by (now rewrite length_map, length_seq).
  rewrite (map_nth (fun j => item a (unravel (shape a) j))).
  now rewrite seq_nth.
Qed.

Lemma to_list_flatten A (a : ndarray A) : to_list (flatten_arr a) = to_list a.
Proof.
  unfold to_list. cbn [flatten_arr shape item size fold_right].
  rewrite Nat.mul_1_r. apply map_ext. intros i.
  cbn [unravel size fold_right hd]. now rewrite Nat.div_1_r.
Qed.

Lemma length_to_list A (a : ndarray A) : length (to_list a) = size (shape a).
Proof. unfold to_list. now rewrite length_map, length_seq. Qed.

Arguments clip !d i /.
Arguments fsum : simpl never.
Arguments pow : simpl never.
Arguments rpow : simpl never.

(** The operations of the program, opened up to the computation of
    their shapes. *)
Ltac open_ops :=
  unfold np_subtract, np_multiply, np_power, np_prod, np_tensordot,
    np_getitem, np_array, np_prod_arr, broadcast2, broadcast_shapes.

Ltac shapes :=
  cbn [bind shape val ndim trace1 trace2 amap zip_at transpose scalar
       reshape getitem getitem_shape bshape_rev
       rev app length size fold_right Nat.mul Nat.add Nat.eqb Nat.ltb Nat.leb
       np_exp reduce_axes reduce_axis
       remove_at firstn skipn tensordot_arr np_flatten flatten_arr
       forallb shape_eqb array_pull andb hd tl nth box_arg];
  rewrite ?bdim_1_l, ?bdim_1_r, ?bdim_refl, ?Nat.eqb_refl.

(** ** The values of [eval_contractions] *)

Section Evaluation.
Variables (K L M : nat).
Variables (coords : ndarray R) (R_x R_y R_z : R).
Variables (angmom_comps : ndarray nat) (alphas prim_coeffs norm : ndarray R).
Hypothesis coords_shape : shape coords = [3].
Hypothesis angmom_shape : shape angmom_comps = [L; 3].
Hypothesis alphas_shape : shape alphas = [K].
Hypothesis coeffs_shape : shape prim_coeffs = [K; M].
Hypothesis norm_shape : shape norm = [L; K].

Lemma eval_contractions_closed :
  eval_contractions_list (finite coords) (fin R_x) (fin R_y) (fin R_z)
    (amap Z.of_nat angmom_comps) (finite alphas) (finite prim_coeffs)
    (finite norm)
  = Ok (map (fun i => fin (spec_contraction coords R_x R_y R_z angmom_comps
                             alphas prim_coeffs norm K (i / L) (i mod L)))
            (seq 0 (M * L))).
Proof.
  unfold finite.
  destruct coords as [s0 p], angmom_comps as [s1 am], alphas as [s2 al],
    prim_coeffs as [s3 c], norm as [s4 nm].
  cbn [shape] in *. subst s0 s1 s2 s3 s4.
  unfold eval_contractions_list, eval_contractions. open_ops.
  do 12 shapes.
  rewrite to_list_flatten. unfold to_list. cbn [shape size fold_right].
  rewrite !Nat.mul_1_r. f_equal.
  apply map_ext_in. intros i Hi. apply in_seq in Hi.
  rewrite (unravel_rows M L i). cbn [item].
  assert (Hl : i mod L < L).
  { apply Nat.mod_upper_bound. intros ->. lia. }
  set (m := i / L). set (l := i mod L) in *.
  unfold spec_contraction, spec_factor, spec_delta, fin.
  rewrite <- fsum_fin. apply fsum_ext. intros k Hk.
  cbn. rewrite !(clip_lt Hk), !(clip_lt Hl), !rpow_nat, !rpow_2. cbn.
  rewrite <- !Ropp_mult_distr_l. apply f_equal. ring.
Qed.
End Evaluation.

Lemma nth_map_seq A (f : nat -> A) n i d : i < n -> nth i (map f (seq 0 n)) d = f i.
Proof.
  intros Hi. rewrite (nth_indep _ d (f 0)) by (now rewrite length_map, length_seq).
  rewrite (map_nth f). now rewrite seq_nth.
Qed.

Lemma flat_position M L m l : m < M -> l < L ->
  m * L + l < M * L /\ (m * L + l) / L = m /\ (m * L + l) mod L = l.
Proof.
  intros Hm Hl. repeat split.
  - nia.
  - rewrite Nat.div_add_l by lia. rewrite Nat.div_small by lia. lia.
  - rewrite Nat.add_comm, Nat.Div0.mod_add. now apply Nat.mod_small.
Qed.

(** ** Sums over a reordered range *)




(** ** Claims about [eval_contractions] *)

(** C1: for a point [coords], centre scalars, an L x 3 matrix of
    non-negative integers [angmom_comps], K exponents [alphas], a K x M
    matrix [prim_coeffs] and an L x K matrix [norm], the flat output of
    [eval_contractions] has at index [m * L + l] the sum over the
    primitives [k] of
    [prim_coeffs[k,m] * norm[l,k] * prod_d (p_d - R_d)^a_{l,d} * exp(- alpha_k (p_d - R_d)^2)]. *)
Theorem C1_eval_contractions_closed_form
    (K L M : nat) (coords : ndarray R) (R_x R_y R_z : R)
    (angmom_comps : ndarray nat) (alphas prim_coeffs norm : ndarray R) (m l : nat) :
  shape coords = [3] -> shape angmom_comps = [L; 3] -> shape alphas = [K] ->
  shape prim_coeffs = [K; M] -> shape norm = [L; K] ->
  m < M -> l < L ->
  exists out,
    eval_contractions_list (finite coords) (fin R_x) (fin R_y) (fin R_z)
      (amap Z.of_nat angmom_comps) (finite alphas) (finite prim_coeffs) (finite norm)
    = Ok out
    /\ nth (m * L + l) out nan
       = fin (rsum K (fun k =>
           item prim_coeffs [k; m] * item norm [l; k]
           * (spec_factor coords R_x R_y R_z angmom_comps alphas l k 0
              * spec_factor coords R_x R_y R_z angmom_comps alphas l k 1
              * spec_factor coords R_x R_y R_z angmom_comps alphas l k 2))%R).
Proof.
  intros Hc Ha Hal Hp Hn Hm Hl.
  eexists. split.
  - exact (eval_contractions_closed coords R_x R_y R_z angmom_comps alphas
             prim_coeffs norm Hc Ha Hal Hp Hn).
  - destruct (flat_position Hm Hl) as (Hlt & Hdiv & Hmod).
    rewrite nth_map_seq by exact Hlt. now rewrite Hdiv, Hmod.
Qed.

Lemma C1_witness :
  exists out,
    eval_contractions_list (finite sample_point) (fin 0) (fin 1) (fin 2)
      (amap Z.of_nat sample_angmom) (finite sample_alphas) (finite sample_coeffs)
      (finite sample_norm)
    = Ok out
    /\ nth (1 * 2 + 0) out nan
       = fin (rsum 2 (fun k =>
           item sample_coeffs [k; 1%nat] * item sample_norm [0%nat; k]
           * (spec_factor sample_point 0 1 2 sample_angmom sample_alphas 0 k 0
              * spec_factor sample_point 0 1 2 sample_angmom sample_alphas 0 k 1
              * spec_factor sample_point 0 1 2 sample_angmom sample_alphas 0 k 2))%R).
Proof.
  apply (@C1_eval_contractions_closed_form 2 2 2); try reflexivity; lia.
Defined.

(** C3: a call for one point returns exactly [M * L] numbers, ordered
    contraction-major and angular-momentum-minor: the number at position
    [m * L + l] is the one a call returns for contraction [m] alone
    (column [m] of [prim_coeffs]) and the angular momentum vector [l]
    alone (row [l] of [angmom_comps] and of [norm]). *)
Theorem C3_eval_contractions_layout
    (K L M : nat) (coords : ndarray R) (R_x R_y R_z : R)
    (angmom_comps : ndarray nat) (alphas prim_coeffs norm : ndarray R) :
  shape coords = [3] -> shape angmom_comps = [L; 3] -> shape alphas = [K] ->
  shape prim_coeffs = [K; M] -> shape norm = [L; K] ->
  exists out,
    eval_contractions_list (finite coords) (fin R_x) (fin R_y) (fin R_z)
      (amap Z.of_nat angmom_comps) (finite alphas) (finite prim_coeffs) (finite norm)
    = Ok out
    /\ length out = M * L
    /\ forall m l, m < M -> l < L ->
       eval_contractions_list (finite coords) (fin R_x) (fin R_y) (fin R_z)
         (amap Z.of_nat (row l angmom_comps)) (finite alphas)
         (finite (column m prim_coeffs)) (finite (row l norm))
       = Ok [nth (m * L + l) out nan].
Proof.
  intros Hc Ha Hal Hp Hn.
  eexists. split; [|split].
  - exact (eval_contractions_closed coords R_x R_y R_z angmom_comps alphas
             prim_coeffs norm Hc Ha Hal Hp Hn).
  - now rewrite length_map, length_seq.
  - intros m l Hm Hl.
    destruct (flat_position Hm Hl) as (Hlt & Hdiv & Hmod).
    rewrite nth_map_seq by exact Hlt. rewrite Hdiv, Hmod.
    rewrite (@eval_contractions_closed K 1 1 coords R_x R_y R_z
               (row l angmom_comps) alphas (column m prim_coeffs) (row l norm)).
    + cbn [Nat.mul Nat.add seq map]. do 3 f_equal.
      unfold spec_contraction. apply rsum_ext. intros k Hk.
      unfold spec_factor, column. rewrite Hp. reflexivity.
    + exact Hc.
    + unfold row. now rewrite Ha.
    + exact Hal.
    + unfold column. now rewrite Hp.
    + unfold row. now rewrite Hn.
Qed.

Lemma C3_witness :
  exists out,
    eval_contractions_list (finite sample_point) (fin 0) (fin 1) (fin 2)
      (amap Z.of_nat sample_angmom) (finite sample_alphas) (finite sample_coeffs)
      (finite sample_norm)
    = Ok out
    /\ length out = 2 * 2
    /\ forall m l, m < 2 -> l < 2 ->
       eval_contractions_list (finite sample_point) (fin 0) (fin 1) (fin 2)
         (amap Z.of_nat (row l sample_angmom)) (finite sample_alphas)
         (finite (column m sample_coeffs)) (finite (row l sample_norm))
       = Ok [nth (m * 2 + l) out nan].
Proof.
  apply (@C3_eval_contractions_layout 2 2 2); reflexivity.
Defined.




(** C10 (amended): [eval_contractions] depends on the point and the
    centre only through the three differences [p_d - R_d]: two calls
    whose arguments have the same differences return the same output.  A
    translation of both by [t] is such a pair when [p + t] and [R + t] are
    passed exactly; formed in binary64 they are rounded, and the
    differences and the output can change ([C10_rounding]). *)
Theorem C10_translation_invariance
    (K L M : nat) (coords coords' : ndarray R) (R_x R_y R_z R_x' R_y' R_z' : R)
    (angmom_comps : ndarray nat) (alphas prim_coeffs norm : ndarray R) :
  shape coords = [3] -> shape coords' = [3] -> shape angmom_comps = [L; 3] ->
  shape alphas = [K] -> shape prim_coeffs = [K; M] -> shape norm = [L; K] ->
  (forall d, d < 3 ->
     (elem coords' d - nth d [R_x'; R_y'; R_z'] 0 = elem coords d - nth d [R_x; R_y; R_z] 0)%R) ->
  eval_contractions_list (finite coords') (fin R_x') (fin R_y') (fin R_z')
    (amap Z.of_nat angmom_comps) (finite alphas) (finite prim_coeffs) (finite norm)
  = eval_contractions_list (finite coords) (fin R_x) (fin R_y) (fin R_z)
      (amap Z.of_nat angmom_comps) (finite alphas) (finite prim_coeffs)
      (finite norm).
Proof.
  intros Hc Hc' Ha Hal Hp Hn Hdiff.
  rewrite (eval_contractions_closed coords R_x R_y R_z angmom_comps alphas
             prim_coeffs norm Hc Ha Hal Hp Hn).
  rewrite (eval_contractions_closed coords' R_x' R_y' R_z' angmom_comps alphas
             prim_coeffs norm Hc' Ha Hal Hp Hn).
  f_equal. apply map_ext. intros i. unfold fin. f_equal.
  assert (Hd : forall d, d < 3 ->
            spec_delta coords' R_x' R_y' R_z' d = spec_delta coords R_x R_y R_z d).
  { intros d Hd. exact (Hdiff d Hd). }
  unfold spec_contraction, spec_factor. rewrite !Hd by lia. reflexivity.
Qed.

Lemma C10_witness :
  eval_contractions_list (finite (translate sample_point sample_point))
    (fin (0 + 1)) (fin (1 + 2)) (fin (2 + 3))
    (amap Z.of_nat sample_angmom) (finite sample_alphas) (finite sample_coeffs)
    (finite sample_norm)
  = eval_contractions_list (finite sample_point) (fin 0) (fin 1) (fin 2)
      (amap Z.of_nat sample_angmom) (finite sample_alphas) (finite sample_coeffs)
      (finite sample_norm).
Proof.
  apply (@C10_translation_invariance 2 2 2); try reflexivity.
  intros [|[|[|?]]] Hd; try lia; cbn; lra.
Defined.

(** ** Binary64: where the equalities of exact arithmetic stop *)

Lemma sum_in_exact : sum_in exact = fsum.
Proof.
  apply functional_extensionality. intros n. apply functional_extensionality. intros f.
  induction n as [|n IH]; [reflexivity|].
  change (fsum (S n) f) with (fadd (fsum n f) (f n)). cbn [sum_in]. now rewrite IH.
Qed.

Lemma prod_in_exact : prod_in exact = fprod.
Proof.
  apply functional_extensionality. intros n. apply functional_extensionality. intros f.
  induction n as [|n IH]; [reflexivity|]. cbn [prod_in fprod]. now rewrite IH.
Qed.

Lemma reduce_axes_in_exact fold axes a :
  reduce_axes_in fold axes a = reduce_axes fold axes a.
Proof.
  induction axes as [|ax axes IH]; [reflexivity|].
  cbn [reduce_axes_in reduce_axes]. now rewrite IH.
Qed.

Lemma tensordot_in_exact a b : tensordot_in exact a b = tensordot_arr a b.
Proof. unfold tensordot_in, tensordot_arr. now rewrite sum_in_exact. Qed.

(** Over the exact arithmetic the forward pass is [eval_contractions]
    without traced arguments. *)
Lemma eval_contractions_in_exact (coords : ndarray float) (R_x R_y R_z : float)
    (angmom_comps : ndarray Z) (alphas prim_coeffs norm : ndarray float) :
  eval_contractions_in exact coords R_x R_y R_z angmom_comps alphas prim_coeffs norm
  = (out <- eval_contractions coords (Plain (scalar R_x)) (Plain (scalar R_y))
             (Plain (scalar R_z)) angmom_comps alphas prim_coeffs norm ;;
     Ok (val out)).
Proof.
  unfold eval_contractions_in, eval_contractions.
  destruct (reshape [1; 3] coords) as [c1|e]; [|reflexivity]. cbn [bind].
  destruct (getitem [newaxis; newaxis; all; newaxis; all] (transpose c1)) as [c2|e];
    [|reflexivity].
  cbn [bind].
  unfold np_array. cbn [forallb val shape scalar shape_eqb andb array_pull length hd].
  replace (fun idx : list nat => item (val (nth (hd 0 idx)
             [Plain (scalar R_x); Plain (scalar R_y); Plain (scalar R_z)]
             (Plain (scalar nan)))) (tl idx))
    with (fun idx : list nat => nth (hd 0 idx) [R_x; R_y; R_z] (a_nan exact)).
  2:{ apply functional_extensionality. intros idx.
      destruct (hd 0 idx) as [|[|[|[|?]]]]; reflexivity. }
  cbn [bind]. unfold np_getitem. cbn [val].
  match goal with |- context [getitem ?s ?c] =>
    match c with {| shape := [3]; item := _ |} =>
      destruct (getitem s c) as [c3|e]; [|reflexivity] end end.
  cbn [bind trace1].
  destruct (getitem [newaxis; newaxis; all; all; newaxis] (transpose angmom_comps))
    as [am|e]; [|reflexivity].
  cbn [bind].
  destruct (getitem [newaxis; all; newaxis; newaxis; newaxis] alphas) as [al|e];
    [|reflexivity].
  cbn [bind]. unfold np_subtract. cbn [val a_sub exact].
  destruct (broadcast2 fsub c2 c3) as [c4|e]; [|reflexivity].
  cbn [bind trace2]. unfold np_power. cbn [val a_pow_scalar a_pow exact].
  destruct (broadcast2 fpow c4 (scalar 2%Z)) as [sq|e]; [|reflexivity].
  cbn [bind trace1]. unfold np_multiply. cbn [val a_mul a_neg exact].
  destruct (broadcast2 fmul (amap fneg al) sq) as [ex|e]; [|reflexivity].
  cbn [bind trace2].
  destruct (broadcast2 fpow c4 am) as [mo|e]; [|reflexivity].
  cbn [bind trace1]. unfold np_exp. cbn [val trace1 a_exp exact].
  destruct (broadcast2 fmul mo (amap fexp ex)) as [fa|e]; [|reflexivity].
  cbn [bind trace2]. unfold np_prod, np_prod_arr. cbn [val].
  rewrite prod_in_exact, reduce_axes_in_exact.
  destruct (reduce_axes fprod [0; 2] fa) as [zp|e]; [|reflexivity].
  cbn [bind trace1].
  destruct (getitem [all; all; newaxis] (transpose norm)) as [nm|e]; [|reflexivity].
  cbn [bind val].
  destruct (broadcast2 fmul nm zp) as [nd|e]; [|reflexivity].
  cbn [bind trace2]. unfold np_tensordot. cbn [val]. rewrite tensordot_in_exact.
  destruct (tensordot_arr prim_coeffs nd) as [ct|e]; [|reflexivity].
  reflexivity.
Qed.

Lemma ok_singleton_inj A (x y : A) : Ok [x] = Ok [y] -> x = y.
Proof.
  intros H.
  exact (f_equal (fun r => match r with Ok (a :: _) => a | _ => x end) H).
Qed.

Lemma b64_neq (x y : PrimFloat.float) :
  PrimFloat.eqb x y = false -> PrimFloat.eqb y y = true -> x <> y.
Proof. intros H1 H2 E. rewrite E in H1. congruence. Qed.



(** In binary64, for a p_x function with exponent 0, the call at the
    point 0.1 and the centre 0.3 returns 0.1 - 0.3, and the call at the
    point 0.1 + 0.2 and the centre 0.3 + 0.2 returns the difference of the
    two rounded sums: two doubles that differ. *)
Lemma b64_translation_values (exp64 : PrimFloat.float -> PrimFloat.float)
    (pow64 : PrimFloat.float -> Z -> PrimFloat.float) :
  exp64 Binary64.neg_zero = Binary64.one ->
  (forall x, pow64 x 0%Z = Binary64.one) ->
  (forall x, pow64 x 1%Z = x) ->
  eval_contractions_list_in (Binary64.arith exp64 pow64) b64_point_x_moved
    b64_center_x_moved (PrimFloat.add Binary64.zero Binary64.zero)
    (PrimFloat.add Binary64.zero Binary64.zero) b64_angmom_px
    b64_alphas1 b64_coeffs1 b64_norm1
  = Ok [Binary64.m02_up]
  /\ eval_contractions_list_in (Binary64.arith exp64 pow64) b64_point_x
       b64_center_x Binary64.zero Binary64.zero b64_angmom_px
       b64_alphas1 b64_coeffs1 b64_norm1
     = Ok [Binary64.m02].
Proof.
  intros He Hp0 Hp1. vm_compute in He.
  split; vm_compute; rewrite !Hp0, !Hp1, !He; reflexivity.
Qed.

(** C10 as stated fails in binary64: the output changes when the point
    and the centre are translated by (0.2, 0, 0). *)
Lemma C10_rounding :
  ~ exists exp64 pow64,
      exp64 Binary64.neg_zero = Binary64.one
      /\ (forall x, pow64 x 0%Z = Binary64.one)
      /\ (forall x, pow64 x 1%Z = x)
      /\ eval_contractions_list_in (Binary64.arith exp64 pow64) b64_point_x_moved
           b64_center_x_moved (PrimFloat.add Binary64.zero Binary64.zero)
           (PrimFloat.add Binary64.zero Binary64.zero) b64_angmom_px
           b64_alphas1 b64_coeffs1 b64_norm1
         = eval_contractions_list_in (Binary64.arith exp64 pow64) b64_point_x
             b64_center_x Binary64.zero Binary64.zero b64_angmom_px
             b64_alphas1 b64_coeffs1 b64_norm1.
Proof.
  intros (exp64 & pow64 & He & Hp0 & Hp1 & H).
  destruct (b64_translation_values exp64 pow64 He Hp0 Hp1) as [H1 H2].
  rewrite H1, H2 in H. apply ok_singleton_inj in H. revert H.
  apply b64_neq; reflexivity.
Qed.

(** ** The tape of [eval_contractions]

    Every traced node of a call with one angular momentum vector and one
    contraction is described by its shape, its elements and its
    pullback; the primitives take such descriptions to such
    descriptions. *)

Lemma fadd_0_l x : fadd (Some 0%R) x = x.
Proof. destruct x as [r|]; [|reflexivity]. cbn. f_equal. ring. Qed.

Lemma fsum_1 f : fsum 1 f = f 0.
Proof. unfold fsum. apply fadd_0_l. Qed.

Lemma unbroadcast_s1 x j :
  shape x = [1; 1; 3; 1; 1] ->
  shape (unbroadcast [1; 1; 3; 1; 1] x) = [1; 1; 3; 1; 1]
  /\ item (unbroadcast [1; 1; 3; 1; 1] x) [0; 0; j; 0; 0] = item x [0; 0; j; 0; 0].
Proof.
  destruct x as [s f]. cbn [shape]. intros ->. split; [reflexivity|].
  cbn. rewrite !fsum_1. reflexivity.
Qed.

Lemma unbroadcast_sK_sum K x j :
  shape x = [1; K; 3; 1; 1] ->
  shape (unbroadcast [1; 1; 3; 1; 1] x) = [1; 1; 3; 1; 1]
  /\ item (unbroadcast [1; 1; 3; 1; 1] x) [0; 0; j; 0; 0]
     = fsum K (fun k => item x [0; k; j; 0; 0]).
Proof.
  destruct x as [s f]. cbn [shape]. intros ->. split; [reflexivity|].
  cbn. rewrite !fsum_1. apply fsum_ext. intros k _. now rewrite fsum_1.
Qed.

Lemma unbroadcast_sK_id K x k j :
  shape x = [1; K; 3; 1; 1] -> k < K ->
  shape (unbroadcast [1; K; 3; 1; 1] x) = [1; K; 3; 1; 1]
  /\ item (unbroadcast [1; K; 3; 1; 1] x) [0; k; j; 0; 0] = item x [0; k; j; 0; 0].
Proof.
  destruct x as [s f]. cbn [shape]. intros -> Hk.
  unfold unbroadcast. cbn [ndim shape length Nat.sub sum_leading sum_ones Nat.eqb].
  destruct (Nat.eqb_spec K 1) as [->|HK].
  - assert (k = 0) as -> by lia. split; [reflexivity|].
    cbn. rewrite !fsum_1. reflexivity.
  - split; [reflexivity|]. cbn. rewrite !fsum_1. reflexivity.
Qed.

Lemma unbroadcast_K11_id K x k :
  shape x = [K; 1; 1] -> k < K ->
  shape (unbroadcast [K; 1; 1] x) = [K; 1; 1]
  /\ item (unbroadcast [K; 1; 1] x) [k; 0; 0] = item x [k; 0; 0].
Proof.
  destruct x as [s f]. cbn [shape]. intros -> Hk.
  unfold unbroadcast. cbn [ndim shape length Nat.sub sum_leading sum_ones Nat.eqb].
  destruct (Nat.eqb_spec K 1) as [->|HK].
  - assert (k = 0) as -> by lia. split; [reflexivity|].
    cbn. rewrite !fsum_1. reflexivity.
  - split; [reflexivity|]. cbn. rewrite !fsum_1. reflexivity.
Qed.

Lemma unbroadcast_sK_shape K x :
  shape x = [1; K; 3; 1; 1] ->
  shape (unbroadcast [1; K; 3; 1; 1] x) = [1; K; 3; 1; 1]
  /\ forall k j, k < K ->
     item (unbroadcast [1; K; 3; 1; 1] x) [0; k; j; 0; 0] = item x [0; k; j; 0; 0].
Proof.
  intros Hx. split.
  - destruct x as [s f]. cbn [shape] in Hx. subst s.
    unfold unbroadcast. cbn [ndim shape length Nat.sub sum_leading sum_ones Nat.eqb].
    destruct (Nat.eqb_spec K 1) as [->|HK]; reflexivity.
  - intros k j Hk. now apply (@unbroadcast_sK_id K x k j Hx Hk).
Qed.

Lemma unbroadcast_K11_shape K x :
  shape x = [K; 1; 1] ->
  shape (unbroadcast [K; 1; 1] x) = [K; 1; 1]
  /\ forall k, k < K ->
     item (unbroadcast [K; 1; 1] x) [k; 0; 0] = item x [k; 0; 0].
Proof.
  intros Hx. split.
  - destruct x as [s f]. cbn [shape] in Hx. subst s.
    unfold unbroadcast. cbn [ndim shape length Nat.sub sum_leading sum_ones Nat.eqb].
    destruct (Nat.eqb_spec K 1) as [->|HK]; reflexivity.
  - intros k Hk. now apply (@unbroadcast_K11_id K x k Hx Hk).
Qed.

Lemma center_node d (R_x R_y R_z : R) :
  d < 3 ->
  exists c x,
    np_array [box_arg (S d) 1 (fin R_x); box_arg (S d) 2 (fin R_y);
              box_arg (S d) 3 (fin R_z)] = Ok c
    /\ np_getitem [newaxis; newaxis; all; newaxis; newaxis] c = Ok x
    /\ node1 d x (fun j => nth j [R_x; R_y; R_z] 0%R) (fun gd => gd).
Proof.
  intros Hd. unfold node1.
  destruct d as [|[|[|?]]]; [| | |lia];
    (eexists _, _; split; [reflexivity|]; split; [reflexivity|];
     eexists _, _; split; [reflexivity|]; split; [reflexivity|]; split;
     [ intros [|[|[|?]]] Hj; [reflexivity|reflexivity|reflexivity|lia]
     | intros g Hg; cbn; apply fadd_0_l ]).
Qed.

Lemma subtract_node d (c : ndarray float) (pp : nat -> R) x v q :
  shape c = [1; 1; 3; 1; 1] ->
  (forall j, j < 3 -> item c [0; 0; j; 0; 0] = Some (pp j)) ->
  node1 d x v q ->
  exists x', np_subtract (Plain c) x = Ok x'
    /\ node1 d x' (fun j => pp j - v j)%R (fun gd => q (fneg gd)).
Proof.
  intros Hsc Hic (A & p & -> & HsA & HiA & HpA).
  unfold np_subtract, broadcast2, broadcast_shapes. cbn [val]. rewrite Hsc, HsA.
  eexists. split; [reflexivity|].
  eexists _, _. split; [reflexivity|]. split; [reflexivity|]. split.
  - intros j Hj. cbn [item zip_at]. rewrite Hsc, HsA. bix.
    now rewrite Hic, HiA.
  - intros g Hg.
    destruct (@unbroadcast_s1 (amap fneg g) d) as [Hs Hi]; [exact Hg|].
    rewrite HpA by exact Hs. now rewrite Hi.
Qed.

Lemma power2_node d x v q :
  d < 3 -> node1 d x v q ->
  exists x', np_power x (scalar 2%Z) = Ok x'
    /\ node1 d x' (fun j => v j ^ 2)%R
         (fun gd => q (fmul (fmul gd (of_int 2)) (rpow (v d) 1))).
Proof.
  intros Hd (A & p & -> & HsA & HiA & HpA).
  unfold np_power, broadcast2, broadcast_shapes. cbn [val shape scalar]. rewrite HsA.
  eexists. split; [reflexivity|].
  eexists _, _. split; [reflexivity|]. split; [reflexivity|]. split.
  - intros j Hj. cbn [item zip_at shape amap scalar rev app]. rewrite HsA. bix.
    rewrite HiA by exact Hj. cbn [fpow]. apply rpow_2.
  - intros g Hg. cbn [shape zip_at].
    match goal with |- p (unbroadcast _ ?X) = _ =>
      destruct (@unbroadcast_s1 X d) as [Hs Hi]; [reflexivity|] end.
    rewrite HpA by exact Hs. rewrite Hi.
    cbn [item zip_at shape where_pred amap scalar rev app]. rewrite Hg, HsA. bix.
    rewrite HiA by exact Hd. reflexivity.
Qed.

Lemma power_node d (y : ndarray Z) (a : nat -> nat) x v q :
  d < 3 ->
  shape y = [1; 1; 3; 1; 1] ->
  (forall j, j < 3 -> item y [0; 0; j; 0; 0] = Z.of_nat (a j)) ->
  node1 d x v q ->
  exists x', np_power x y = Ok x'
    /\ node1 d x' (fun j => v j ^ a j)%R
         (fun gd => q (fmul (fmul gd (of_int (Z.of_nat (a d)))) (rpow (v d) (wexp (a d))))).
Proof.
  intros Hd Hsy Hiy (A & p & -> & HsA & HiA & HpA).
  unfold np_power, broadcast2, broadcast_shapes. cbn [val]. rewrite HsA, Hsy.
  eexists. split; [reflexivity|].
  eexists _, _. split; [reflexivity|]. split; [reflexivity|]. split.
  - intros j Hj. cbn [item zip_at shape amap scalar rev app]. rewrite HsA, Hsy. bix.
    rewrite HiA, Hiy by exact Hj. cbn [fpow]. apply rpow_nat.
  - intros g Hg. cbn [shape zip_at].
    match goal with |- p (unbroadcast _ ?X) = _ =>
      destruct (@unbroadcast_s1 X d) as [Hs Hi]; [reflexivity|] end.
    rewrite HpA by exact Hs. rewrite Hi.
    cbn [item zip_at shape where_pred amap scalar rev app]. rewrite Hg, HsA, Hsy. bix.
    rewrite HiA, Hiy by exact Hd. reflexivity.
Qed.

Lemma multiply_plain_node1 K d (b : ndarray float) (beta : nat -> R) x v q :
  d < 3 ->
  shape b = [1; K; 1; 1; 1] ->
  (forall k, k < K -> item b [0; k; 0; 0; 0] = Some (beta k)) ->
  node1 d x v q ->
  exists x', np_multiply (Plain b) x = Ok x'
    /\ nodeK K d x' (fun k j => beta k * v j)%R
         (fun gk => q (fsum K (fun k => fmul (Some (beta k)) (gk k)))).
Proof.
  intros Hd Hsb Hib (A & p & -> & HsA & HiA & HpA).
  unfold np_multiply, broadcast2, broadcast_shapes. cbn [val]. rewrite HsA, Hsb.
  cbn [rev app bshape_rev bind]. rewrite ?bdim_1_l, ?bdim_1_r, ?bdim_refl.
  cbn [rev app bshape_rev bind].
  eexists. split; [reflexivity|].
  eexists _, _. split; [reflexivity|]. split; [reflexivity|]. split; [|split].
  - intros k j Hk Hj. cbn [item zip_at shape amap scalar rev app]. rewrite HsA, Hsb. bix.
    rewrite (@clip_lt K k Hk). rewrite HiA, Hib by assumption. reflexivity.
  - intros g Hg. cbn [trace2 shape zip_at].
    match goal with |- p (unbroadcast _ ?X) = _ =>
      destruct (@unbroadcast_sK_sum K X d) as [Hs Hi]; [reflexivity|] end.
    rewrite HpA by exact Hs. rewrite Hi. f_equal.
    apply fsum_ext. intros k Hk.
    cbn [item zip_at shape amap scalar rev app]. rewrite Hg, Hsb. bix. rewrite !(@clip_lt K k Hk).
    rewrite Hib by exact Hk. reflexivity.
  - intros f f' Hf. f_equal. apply fsum_ext. intros k Hk. now rewrite Hf.
Qed.

Lemma exp_node K d x v q :
  d < 3 -> nodeK K d x v q ->
  nodeK K d (np_exp x) (fun k j => exp (v k j))
    (fun gk => q (fun k => fmul (Some (exp (v k d))) (gk k))).
Proof.
  intros Hd (A & p & -> & HsA & HiA & HpA & Hext).
  unfold np_exp. cbn [val trace1].
  eexists _, _. split; [reflexivity|]. split; [exact HsA|]. split; [|split].
  - intros k j Hk Hj. cbn [item amap]. now rewrite HiA.
  - intros g Hg. cbn [shape amap]. rewrite HsA.
    rewrite HpA by reflexivity. apply Hext. intros k Hk.
    cbn [item zip_at shape amap scalar rev app]. rewrite HsA, Hg. bix. rewrite !(@clip_lt K k Hk).
    rewrite HiA by assumption. reflexivity.
  - intros f f' Hf. apply Hext. intros k Hk. now rewrite Hf.
Qed.


Lemma multiply_node K d x vx qx y vy qy :
  d < 3 -> node1 d x vx qx -> nodeK K d y vy qy ->
  exists z, np_multiply x y = Ok z
    /\ nodeK K d z (fun k j => vx j * vy k j)%R
         (fun gk => fadd (qx (fsum K (fun k => fmul (Some (vy k d)) (gk k))))
                         (qy (fun k => fmul (Some (vx d)) (gk k)))).
Proof.
  intros Hd (A & p & -> & HsA & HiA & HpA) (B & pb & -> & HsB & HiB & HpB & Hext).
  unfold np_multiply, broadcast2, broadcast_shapes. cbn [val]. rewrite HsA, HsB.
  cbn [rev app bshape_rev bind]. rewrite ?bdim_1_l, ?bdim_1_r, ?bdim_refl.
  cbn [rev app bshape_rev bind].
  eexists. split; [reflexivity|].
  eexists _, _. split; [reflexivity|]. split; [reflexivity|]. split; [|split].
  - intros k j Hk Hj. zitem. rewrite HsA, HsB. bix.
    rewrite (@clip_lt K k Hk). rewrite HiA, HiB by assumption. reflexivity.
  - intros g Hg. cbn [shape zip_at]. f_equal.
    + match goal with |- p (unbroadcast _ ?X) = _ =>
        destruct (@unbroadcast_sK_sum K X d) as [Hs Hi]; [reflexivity|] end.
      rewrite HpA by exact Hs. rewrite Hi. f_equal.
      apply fsum_ext. intros k Hk.
      zitem. rewrite Hg, HsB. bix. rewrite !(@clip_lt K k Hk).
      rewrite HiB by assumption. reflexivity.
    + match goal with |- pb (unbroadcast _ ?X) = _ =>
        destruct (@unbroadcast_sK_shape K X) as [Hs Hi]; [reflexivity|] end.
      rewrite HpB by exact Hs. apply Hext. intros k Hk.
      rewrite Hi by exact Hk.
      zitem. rewrite Hg, HsA. bix. rewrite !(@clip_lt K k Hk).
      rewrite HiA by assumption. reflexivity.
  - intros f f' Hf. f_equal.
    + f_equal. apply fsum_ext. intros k Hk. now rewrite Hf.
    + apply Hext. intros k Hk. now rewrite Hf.
Qed.


Lemma prod_node K d z v q :
  d < 3 -> nodeK K d z v q ->
  exists P, np_prod [0; 2] z = Ok P
    /\ node3 K P (fun k => prod3 (v k))
         (fun gk => q (fun k =>
            fdiv (fadd (fmul (gk k) (Some (prod3 (v k)))) (Some 0%R)) (Some (v k d)))).
Proof.
  intros Hd (A & p & -> & HsA & HiA & HpA & Hext).
  unfold np_prod, np_prod_arr. cbn [val reduce_axes]. unfold ndim. rewrite HsA.
  cbn [length Nat.ltb Nat.leb bind].
  assert (Hans : forall k, k < K ->
            item (reduce_axis fprod 0 (reduce_axis fprod 2 A)) [k; 0; 0]
            = Some (prod3 (v k))).
  { intros k Hk. cbn [item reduce_axis shape]. rewrite HsA.
    cbn [nth remove_at firstn skipn app insert_at fprod].
    rewrite !HiA by (auto; lia). reflexivity. }
  assert (Hsans : shape (reduce_axis fprod 0 (reduce_axis fprod 2 A)) = [K; 1; 1]).
  { cbn [reduce_axis shape]. rewrite HsA. reflexivity. }
  eexists. split; [reflexivity|].
  eexists _, _. split; [reflexivity|]. split; [exact Hsans|]. split; [|split].
  - exact Hans.
  - intros g Hg. rewrite Hsans.
    rewrite HpA by reflexivity. apply Hext. intros k Hk.
    cbn [item zip_at shape keep_axes fold_right set_at firstn skipn app zeros].
    rewrite HsA, Hg, Hsans. bix. rewrite !(@clip_lt K k Hk).
    cbn [remove_axes remove_at firstn skipn app]. bix. rewrite !(@clip_lt K k Hk).
    rewrite Hans, HiA by assumption. reflexivity.
  - intros f f' Hf. apply Hext. intros k Hk. now rewrite Hf.
Qed.

Lemma multiply_plain_node3 K (b : ndarray float) (beta : nat -> R) x v q :
  shape b = [K; 1; 1] ->
  (forall k, k < K -> item b [k; 0; 0] = Some (beta k)) ->
  node3 K x v q ->
  exists x', np_multiply (Plain b) x = Ok x'
    /\ node3 K x' (fun k => beta k * v k)%R
         (fun gk => q (fun k => fmul (Some (beta k)) (gk k))).
Proof.
  intros Hsb Hib (A & p & -> & HsA & HiA & HpA & Hext).
  unfold np_multiply, broadcast2, broadcast_shapes. cbn [val]. rewrite HsA, Hsb.
  cbn [rev app bshape_rev bind]. rewrite ?bdim_1_l, ?bdim_1_r, ?bdim_refl.
  cbn [rev app bshape_rev bind].
  eexists. split; [reflexivity|].
  eexists _, _. split; [reflexivity|]. split; [reflexivity|]. split; [|split].
  - intros k Hk. zitem. rewrite HsA, Hsb. bix.
    rewrite !(@clip_lt K k Hk). rewrite HiA, Hib by assumption. reflexivity.
  - intros g Hg. cbn [trace2 shape zip_at].
    match goal with |- p (unbroadcast _ ?X) = _ =>
      destruct (@unbroadcast_K11_shape K X) as [Hs Hi]; [reflexivity|] end.
    rewrite HpA by exact Hs. apply Hext. intros k Hk.
    rewrite Hi by exact Hk.
    zitem. rewrite Hg, Hsb. bix. rewrite !(@clip_lt K k Hk).
    rewrite Hib by exact Hk. reflexivity.
  - intros f f' Hf. apply Hext. intros k Hk. now rewrite Hf.
Qed.

(** The contraction with the coefficients and the flattening: the
    gradient of the single output. *)
Lemma tensordot_node K (a : ndarray float) (c : nat -> R) x v q :
  shape a = [K; 1] ->
  (forall k, k < K -> item a [k; 0] = Some (c k)) ->
  node3 K x v q ->
  exists T pT, (contracted <- np_tensordot (Plain a) x ;; Ok (np_flatten contracted))
                 = Ok (Boxed T pT)
    /\ shape T = [1]
    /\ pT (ones [1]) = q (fun k => fmul (Some (c k)) (Some 1%R)).
Proof.
  intros Hsa Hia (A & p & -> & HsA & HiA & HpA & Hext).
  unfold np_tensordot, tensordot_arr. cbn [val]. rewrite HsA, Hsa.
  rewrite Nat.eqb_refl. cbn [bind trace2 np_flatten trace1 val app].
  eexists _, _. split; [reflexivity|]. split; [reflexivity|].
  rewrite HpA by (cbn [tensordot_vjp_b shape]; exact HsA).
  apply Hext. intros k Hk.
  cbn [item tensordot_vjp_b shape]. rewrite Hsa.
  cbn [tl size fold_right Nat.mul]. rewrite fsum_1.
  cbn [hd tl unravel size fold_right Nat.mul Nat.div Nat.divmod fst app item
       reshape_to ones shape ravel Nat.add].
  now rewrite Hia.
Qed.

Lemma reshape_index j : unravel [3] (ravel [1; 3] [0; j]) = [j].
Proof.
  unfold unravel, ravel, size. cbn [fold_right]. f_equal.
  rewrite Nat.div_1_r. lia.
Qed.

Lemma grad_eval_contractions_tape (K d : nat) (coords : ndarray R) (R_x R_y R_z : R)
    (angmom_comps : ndarray nat) (alphas prim_coeffs norm : ndarray R) :
  d < 3 ->
  shape coords = [3] -> shape angmom_comps = [1; 3] -> shape alphas = [K] ->
  shape prim_coeffs = [K; 1] -> shape norm = [1; K] ->
  grad_eval_contractions (S d) (finite coords) (fin R_x) (fin R_y) (fin R_z)
    (amap Z.of_nat angmom_comps) (finite alphas) (finite prim_coeffs) (finite norm)
  = Ok (ad_gradient K d
          (spec_delta coords R_x R_y R_z)
          (fun j => item angmom_comps [0; j])
          (fun k => item alphas [k])
          (fun k => item prim_coeffs [k; 0])
          (fun k => item norm [0; k])).
Proof.
  intros Hd.
  destruct coords as [s0 p], angmom_comps as [s1 am], alphas as [s2 al],
    prim_coeffs as [s3 c], norm as [s4 nm].
  cbn [shape]. intros -> -> -> -> ->.
  unfold grad_eval_contractions, eval_contractions, finite.
  cbn [bind shape amap transpose reshape getitem getitem_shape size fold_right
       Nat.mul Nat.add Nat.eqb rev app].
  destruct (@center_node d R_x R_y R_z Hd) as (c0 & x0 & Hc0 & Hx0 & N0).
  rewrite Hc0. cbn [bind]. rewrite Hx0. cbn [bind].
  (* coords - center *)
  lazymatch goal with |- context [np_subtract (Plain ?c5) x0] =>
    edestruct (@subtract_node d c5 (fun j => p [j]) x0) as (x1 & Hx1 & N1);
      [ reflexivity
      | intros j Hj; cbn [item transpose getitem_index rev app amap shape];
        now rewrite reshape_index
      | exact N0 | ] end.
  rewrite Hx1. cbn [bind].
  (* coords ** 2 *)
  destruct (@power2_node d x1 _ _ Hd N1) as (x2 & Hx2 & N2).
  rewrite Hx2. cbn [bind].
  (* -alphas * coords ** 2 *)
  lazymatch goal with |- context [np_multiply (Plain ?b) x2] =>
    edestruct (@multiply_plain_node1 K d b (fun k => - al [k])%R x2)
      as (x3 & Hx3 & N3);
      [ exact Hd | reflexivity | intros k Hk; reflexivity | exact N2 | ] end.
  rewrite Hx3. cbn [bind].
  pose proof (@exp_node K d x3 _ _ Hd N3) as N4.
  (* coords ** angmom_comps *)
  lazymatch goal with |- context [np_power x1 ?y] =>
    edestruct (@power_node d y (fun j => am [0; j]) x1)
      as (x5 & Hx5 & N5);
      [ exact Hd | reflexivity | intros j Hj; reflexivity | exact N1 | ] end.
  rewrite Hx5. cbn [bind].
  destruct (@multiply_node K d x5 _ _ (np_exp x3) _ _ Hd N5 N4) as (x6 & Hx6 & N6).
  rewrite Hx6. cbn [bind].
  destruct (@prod_node K d x6 _ _ Hd N6) as (x7 & Hx7 & N7).
  rewrite Hx7. cbn [bind].
  lazymatch goal with |- context [np_multiply (Plain ?b) x7] =>
    edestruct (@multiply_plain_node3 K b (fun k => nm [0; k]) x7)
      as (x8 & Hx8 & N8);
      [ reflexivity | intros k Hk; reflexivity | exact N7 | ] end.
  rewrite Hx8. cbn [bind].
  lazymatch goal with |- context [np_tensordot (Plain ?b) x8] =>
    edestruct (@tensordot_node K b (fun k => c [k; 0]) x8)
      as (T & pT & HT & HsT & HpT);
      [ reflexivity | intros k Hk; reflexivity | exact N8 | ] end.
  rewrite HT. cbn [bind val]. rewrite HsT. cbn [size fold_right Nat.mul Nat.eqb].
  rewrite HpT. reflexivity.
Qed.

(** ** The value of the backward pass, and the exact derivative *)

Lemma fsum_none n f k : k < n -> f k = None -> fsum n f = None.
Proof.
  induction n as [|n IH]; intros Hk Hf; [lia|].
  change (fsum (S n) f) with (fadd (fsum n f) (f n)).
  destruct (Nat.eq_dec k n) as [->|Hne].
  - rewrite Hf. now destruct (fsum n f).
  - rewrite IH by (assumption || lia). reflexivity.
Qed.

Lemma fdiv_fin a b : b <> 0%R -> fdiv (Some a) (Some b) = Some (a / b)%R.
Proof. intros Hb. unfold fdiv. now destruct (Req_dec_T b 0). Qed.

Lemma fdiv_zero a : fdiv (Some a) (Some 0%R) = None.
Proof. unfold fdiv. destruct (Req_dec_T 0 0); [reflexivity|contradiction]. Qed.


Lemma rpow_wexp x n : rpow x (wexp n) = Some (x ^ wexp_nat n)%R.
Proof.
  unfold wexp, wexp_nat. destruct n as [|n].
  - reflexivity.
  - change (Z.of_nat (S n) =? 0)%Z with false. cbn [Nat.eqb].
    replace (Z.of_nat (S n) - 1)%Z with (Z.of_nat (S n - 1)) by lia.
    apply rpow_nat.
Qed.

Section Value.
Variables (K d : nat).
Variables (delta : nat -> R) (a : nat -> nat) (alpha c n : nat -> R).

Lemma fwd_factor_nonzero k : (delta d ^ a d <> 0)%R -> fwd_factor delta a alpha k d <> 0%R.
Proof.
  intros H. unfold fwd_factor, fwd_gauss.
  apply Rmult_integral_contrapositive_currified; [exact H|].
  apply Rgt_not_eq, exp_pos.
Qed.

Lemma ad_gradient_finite :
  (delta d ^ a d <> 0)%R ->
  ad_gradient K d delta a alpha c n = Some (ad_value K d delta a alpha c n).
Proof.
  intros H.
  unfold ad_gradient, pull_normed, pull_prod, pull_factors, pull_gauss, pull_exponent,
    pull_square, pull_monomial, pull_shift.
  rewrite (@fsum_ext K _ (fun k => Some (fwd_gauss delta alpha k d * ad_weight d delta a alpha c n k)%R)).
  2:{ intros k Hk. cbn [fmul fadd lift2]. rewrite fdiv_fin by now apply fwd_factor_nonzero.
      reflexivity. }
  rewrite fsum_fin.
  rewrite (@fsum_ext K _ (fun k => Some (- alpha k * (fwd_gauss delta alpha k d
                                          * (delta d ^ a d * ad_weight d delta a alpha c n k)))%R)).
  2:{ intros k Hk. cbn [fmul fadd lift2]. rewrite fdiv_fin by now apply fwd_factor_nonzero.
      reflexivity. }
  rewrite fsum_fin, rpow_wexp. change 1%Z with (Z.of_nat 1). rewrite rpow_nat.
  reflexivity.
Qed.

Lemma ad_gradient_nan :
  (delta d ^ a d = 0)%R -> 0 < K ->
  ad_gradient K d delta a alpha c n = nan.
Proof.
  intros H HK.
  unfold ad_gradient, pull_normed, pull_prod, pull_factors, pull_monomial.
  rewrite (@fsum_none K _ 0 HK); [reflexivity|].
  cbn [fmul fadd lift2]. unfold fwd_factor at 2. rewrite H, Rmult_0_l, fdiv_zero.
  reflexivity.
Qed.
End Value.

Lemma derivable_pt_lim_ext (f g : R -> R) x l :
  (forall r, f r = g r) -> derivable_pt_lim f x l -> derivable_pt_lim g x l.
Proof.
  intros Hfg Hf eps Heps. destruct (Hf eps Heps) as [dl Hdl].
  exists dl. intros h Hh Hlt. rewrite <- !Hfg. now apply Hdl.
Qed.

Lemma derivable_pt_lim_rsum K (f : nat -> R -> R) (l : nat -> R) x :
  (forall k, k < K -> derivable_pt_lim (f k) x (l k)) ->
  derivable_pt_lim (fun r => rsum K (fun k => f k r)) x (rsum K l).
Proof.
  induction K as [|K IH]; intros H; cbn [rsum].
  - apply derivable_pt_lim_const.
  - apply (derivable_pt_lim_plus (fun r => rsum K (fun k => f k r)) (f K)).
    + apply IH. intros k Hk. apply H. lia.
    + apply H. lia.
Qed.

Lemma derivable_pt_lim_shift p r : derivable_pt_lim (fun y => p - y)%R r (-1)%R.
Proof.
  replace (-1)%R with (0 - 1)%R by ring.
  apply (derivable_pt_lim_minus (fct_cte p) id).
  - apply derivable_pt_lim_const.
  - apply derivable_pt_lim_id.
Qed.

Lemma derivable_pt_lim_factor p a alpha r :
  derivable_pt_lim (factor_of_center p a alpha) r (factor_slope p a alpha r).
Proof.
  unfold factor_of_center, factor_slope.
  assert (Hpow : derivable_pt_lim (fun y => (p - y) ^ a)%R r
                   (INR a * (p - r) ^ pred a * -1)%R).
  { apply (derivable_pt_lim_comp (fun y => p - y)%R (fun z => z ^ a)%R).
    - apply derivable_pt_lim_shift.
    - apply derivable_pt_lim_pow. }
  assert (Hsq : derivable_pt_lim (fun y => - (alpha * (p - y) ^ 2))%R r
                  (- (alpha * (INR 2 * (p - r) ^ 1 * -1)))%R).
  { apply (derivable_pt_lim_opp (fun y => alpha * (p - y) ^ 2)%R).
    apply (derivable_pt_lim_scal (fun y => (p - y) ^ 2)%R).
    apply (derivable_pt_lim_comp (fun y => p - y)%R (fun z => z ^ 2)%R).
    - apply derivable_pt_lim_shift.
    - apply (derivable_pt_lim_pow (p - r) 2). }
  assert (Hexp : derivable_pt_lim (fun y => exp (- (alpha * (p - y) ^ 2)))%R r
                   (exp (- (alpha * (p - r) ^ 2)) * - (alpha * (INR 2 * (p - r) ^ 1 * -1)))%R).
  { apply (derivable_pt_lim_comp (fun y => - (alpha * (p - y) ^ 2))%R exp).
    - exact Hsq.
    - apply derivable_pt_lim_exp. }
  pose proof (derivable_pt_lim_mult _ _ _ _ _ Hpow Hexp) as H.
  unfold mult_fct in H.
  replace (- (INR a * (p - r) ^ pred a) * exp (- (alpha * (p - r) ^ 2)) +
           (p - r) ^ a * (exp (- (alpha * (p - r) ^ 2)) * (2 * alpha * (p - r))))%R
    with (INR a * (p - r) ^ pred a * -1 * exp (- (alpha * (p - r) ^ 2)) +
          (p - r) ^ a * (exp (- (alpha * (p - r) ^ 2)) *
                          - (alpha * (INR 2 * (p - r) ^ 1 * -1))))%R.
  - exact H.
  - cbn [INR]. ring.
Qed.

Lemma rsum_scal_r K f x : (rsum K f * x)%R = rsum K (fun k => f k * x)%R.
Proof. induction K as [|K IH]; cbn [rsum]; [ring|]. rewrite <- IH. ring. Qed.

Lemma rsum_opp K f : (- rsum K f)%R = rsum K (fun k => - f k)%R.
Proof. induction K as [|K IH]; cbn [rsum]; [ring|]. rewrite <- IH. ring. Qed.

Lemma rsum_plus K f g : (rsum K f + rsum K g)%R = rsum K (fun k => f k + g k)%R.
Proof. induction K as [|K IH]; cbn [rsum]; [ring|]. rewrite <- IH. ring. Qed.

Section Exactness.
Variables (K d : nat).
Variables (coords : ndarray R) (R_x R_y R_z : R).
Variables (angmom_comps : ndarray nat) (alphas prim_coeffs norm : ndarray R).
Hypothesis d_lt : d < 3.

Lemma spec_of_center_derivative :
  derivable_pt_lim
    (spec_of_center coords R_x R_y R_z angmom_comps alphas prim_coeffs norm K d)
    (nth d [R_x; R_y; R_z] 0%R)
    (spec_slope coords R_x R_y R_z angmom_comps alphas prim_coeffs norm K d).
Proof.
  apply (@derivable_pt_lim_ext
           (fun r => rsum K (fun k =>
              entry prim_coeffs k 0 * entry norm 0 k
              * other_factors coords R_x R_y R_z angmom_comps alphas d k
              * factor_of_center (elem coords d) (entry angmom_comps 0 d)
                  (elem alphas k) r)%R)).
  { intros r. unfold spec_of_center, spec_contraction. apply rsum_ext. intros k Hk.
    unfold other_factors, spec_factor, spec_delta, factor_of_center, with_center,
      elem, entry.
    destruct d as [|[|[|?]]]; [| | |lia]; cbn [Nat.eqb nth]; ring. }
  apply (@derivable_pt_lim_rsum K
           (fun k r => entry prim_coeffs k 0 * entry norm 0 k
                       * other_factors coords R_x R_y R_z angmom_comps alphas d k
                       * factor_of_center (elem coords d) (entry angmom_comps 0 d)
                           (elem alphas k) r)%R).
  intros k Hk.
  apply (derivable_pt_lim_scal
           (factor_of_center (elem coords d) (entry angmom_comps 0 d) (elem alphas k))).
  apply derivable_pt_lim_factor.
Qed.

Lemma ad_value_exact :
  (spec_delta coords R_x R_y R_z d ^ entry angmom_comps 0 d <> 0)%R ->
  ad_value K d (spec_delta coords R_x R_y R_z)
    (fun j => entry angmom_comps 0 j) (fun k => elem alphas k)
    (fun k => entry prim_coeffs k 0) (fun k => entry norm 0 k)
  = spec_slope coords R_x R_y R_z angmom_comps alphas prim_coeffs norm K d.
Proof.
  intros Hnz. symmetry.
  unfold ad_value, spec_slope. rewrite !rsum_scal_r, !rsum_opp, rsum_plus.
  apply rsum_ext. intros k Hk.
  unfold other_factors, factor_slope, fwd_gauss, ad_weight, prod3, fwd_factor, fwd_gauss,
    spec_factor, elem, entry.
  rewrite <- !Ropp_mult_distr_l.
  assert (Hexp : forall x, exp x <> 0%R) by (intros x; apply Rgt_not_eq, exp_pos).
  unfold entry in Hnz.
  destruct (item angmom_comps [0; d]) as [|a'] eqn:Ha.
  - unfold wexp_nat. cbn [Nat.eqb pred INR Z.of_nat].
    change (?x ^ 0)%R with 1%R.
    destruct d as [|[|[|?]]]; [| | |lia]; unfold spec_delta; cbn [nth];
      rewrite ?Ha; change (?x ^ 0)%R with 1%R; field; auto.
  - unfold wexp_nat. cbn [Nat.eqb pred Nat.sub]. rewrite Nat.sub_0_r.
    rewrite <- INR_IZR_INZ.
    assert (Hd0 : spec_delta coords R_x R_y R_z d <> 0%R).
    { intros H0. apply Hnz. rewrite H0. apply pow_i. lia. }
    assert (Hy : (spec_delta coords R_x R_y R_z d ^ a')%R <> 0%R)
      by now apply pow_nonzero.
    rewrite <- !tech_pow_Rmult in *.
    destruct d as [|[|[|?]]]; [| | |lia]; unfold spec_delta in *; cbn [nth] in *;
      rewrite ?Ha; rewrite <- ?tech_pow_Rmult; field; auto.
Qed.
End Exactness.

(** ** The layout of [eval_deriv] *)

Lemma mapM_seq A (f : nat -> result A) (g : nat -> A) n s :
  (forall i, s <= i < s + n -> f i = Ok (g i)) ->
  mapM f (seq s n) = Ok (map g (seq s n)).
Proof.
  revert s. induction n as [|n IH]; intros s H; [reflexivity|].
  cbn [seq mapM map]. rewrite H by lia. cbn [bind].
  rewrite IH by (intros i Hi; apply H; lia). reflexivity.
Qed.

Lemma apply_along_rows (f : ndarray float -> result float) (g : nat -> float)
    N (coords : ndarray float) :
  shape coords = [N; 3] -> 0 < N ->
  (forall i, i < N -> f (point_of coords i) = Ok (g i)) ->
  exists r, apply_along_axis f 1 coords = Ok r
    /\ shape r = [N] /\ forall i, i < N -> item r [i] = g i.
Proof.
  intros Hs HN Hf. unfold apply_along_axis, ndim. rewrite Hs.
  cbn [length Nat.ltb Nat.leb remove_at firstn skipn app size fold_right].
  rewrite Nat.mul_1_r.
  destruct (Nat.eqb_spec N 0) as [->|_]; [lia|].
  rewrite (@mapM_seq _ _ g).
  - cbn [bind]. eexists. split; [reflexivity|]. split; [reflexivity|].
    intros i Hi. cbn [of_list item ravel size fold_right].
    rewrite Nat.mul_1_r, Nat.add_0_r. now apply nth_map_seq.
  - intros i Hi. cbn [unravel size fold_right]. rewrite Nat.div_1_r.
    apply Hf. lia.
Qed.

Lemma eval_deriv_rows (Orders : Type) (orders : Orders) N (coords : ndarray float)
    (R_x R_y R_z : float) (angmom_comps : ndarray Z)
    (alphas prim_coeffs norm : ndarray float) (v : nat -> nat -> float) :
  shape coords = [N; 3] -> 0 < N ->
  (forall i d, i < N -> d < 3 ->
     grad_eval_contractions (S d) (point_of coords i) R_x R_y R_z angmom_comps
       alphas prim_coeffs norm = Ok (v i d)) ->
  exists G, eval_deriv coords orders [R_x; R_y; R_z] angmom_comps alphas
              prim_coeffs norm = Ok G
    /\ shape G = [N; 3]
    /\ forall i d, i < N -> d < 3 -> item G [i; d] = v i d.
Proof.
  intros Hs HN Hv. unfold eval_deriv.
  destruct (@apply_along_rows
              (fun p => grad_eval_contractions 1 p R_x R_y R_z angmom_comps alphas
                          prim_coeffs norm) (fun i => v i 0) N coords Hs HN)
    as (gx & Hgx & Hsx & Hix); [intros i Hi; apply Hv; lia|].
  destruct (@apply_along_rows
              (fun p => grad_eval_contractions 2 p R_x R_y R_z angmom_comps alphas
                          prim_coeffs norm) (fun i => v i 1) N coords Hs HN)
    as (gy & Hgy & Hsy & Hiy); [intros i Hi; apply Hv; lia|].
  destruct (@apply_along_rows
              (fun p => grad_eval_contractions 3 p R_x R_y R_z angmom_comps alphas
                          prim_coeffs norm) (fun i => v i 2) N coords Hs HN)
    as (gz & Hgz & Hsz & Hiz); [intros i Hi; apply Hv; lia|].
  rewrite Hgx, Hgy, Hgz. cbn [bind].
  unfold vstack, atleast_2d. cbn [map]. rewrite Hsx, Hsy, Hsz.
  cbn [concatenate concat2 shape bind shape_eqb]. rewrite !Nat.eqb_refl.
  cbn [andb bind shape].  rewrite ?Nat.eqb_refl. cbn [andb bind].
  eexists. split; [reflexivity|]. split; [reflexivity|].
  intros i d Hi Hd.
  destruct d as [|[|[|?]]]; [| | |lia]; cbn; auto.
Qed.

(** ** Claims about [eval_deriv] *)

Lemma eval_deriv_gradient (Orders : Type) (orders : Orders) (N K : nat)
    (coords : ndarray R) (R_x R_y R_z : R)
    (angmom_comps : ndarray nat) (alphas prim_coeffs norm : ndarray R) :
  shape coords = [N; 3] -> 0 < N ->
  shape angmom_comps = [1; 3] -> shape alphas = [K] ->
  shape prim_coeffs = [K; 1] -> shape norm = [1; K] ->
  exists G,
    eval_deriv (finite coords) orders [fin R_x; fin R_y; fin R_z]
      (amap Z.of_nat angmom_comps) (finite alphas) (finite prim_coeffs) (finite norm)
    = Ok G
    /\ shape G = [N; 3]
    /\ forall i d, i < N -> d < 3 ->
       grad_eval_contractions (S d) (finite (point_of coords i))
         (fin R_x) (fin R_y) (fin R_z) (amap Z.of_nat angmom_comps)
         (finite alphas) (finite prim_coeffs) (finite norm)
       = Ok (item G [i; d])
       /\ item G [i; d]
          = ad_gradient K d (spec_delta (point_of coords i) R_x R_y R_z)
              (fun j => entry angmom_comps 0 j) (fun k => elem alphas k)
              (fun k => entry prim_coeffs k 0) (fun k => entry norm 0 k).
Proof.
  intros Hs HN Ha Hal Hp Hn.
  assert (Hg : forall i d, i < N -> d < 3 ->
            grad_eval_contractions (S d) (point_of (finite coords) i)
              (fin R_x) (fin R_y) (fin R_z) (amap Z.of_nat angmom_comps)
              (finite alphas) (finite prim_coeffs) (finite norm)
            = Ok (ad_gradient K d (spec_delta (point_of coords i) R_x R_y R_z)
                    (fun j => entry angmom_comps 0 j) (fun k => elem alphas k)
                    (fun k => entry prim_coeffs k 0) (fun k => entry norm 0 k))).
  { intros i d Hi Hd.
    change (point_of (finite coords) i) with (finite (point_of coords i)).
    apply grad_eval_contractions_tape; try assumption.
    unfold point_of, slice_along. cbn [shape]. now rewrite Hs. }
  destruct (@eval_deriv_rows Orders orders N (finite coords) (fin R_x) (fin R_y)
              (fin R_z) (amap Z.of_nat angmom_comps) (finite alphas)
              (finite prim_coeffs) (finite norm) _ Hs HN Hg) as (G & HG & HsG & HiG).
  exists G. split; [exact HG|]. split; [exact HsG|].
  intros i d Hi Hd. rewrite (HiG i d Hi Hd). split; [|reflexivity].
  change (finite (point_of coords i)) with (point_of (finite coords) i).
  now apply Hg.
Qed.

(** C2 (the code departs from it): the entries of [eval_deriv] are
    claimed to be the exact partial derivatives of the closed form.  For
    the angular momentum vector (1,0,0) and a point at the centre, the
    entry for the x scalar is [nan] (the vjp of [np.prod] divides the
    product, 0, by the factor, 0), while the closed form is derivable
    there with derivative -1. *)
Theorem C2_gradient_nan_at_center :
  exists G,
    eval_deriv (finite batch_origin) tt [fin 0; fin 0; fin 0]
      (amap Z.of_nat angmom_px) (finite unit_alphas) (finite unit_coeffs)
      (finite unit_norm) = Ok G
    /\ item G [0; 0] = nan
    /\ derivable_pt_lim
         (spec_of_center (point_of batch_origin 0) 0 0 0 angmom_px unit_alphas
            unit_coeffs unit_norm 1 0)
         0%R (-1)%R.
Proof.
  destruct (@eval_deriv_gradient unit tt 1 1 batch_origin 0 0 0 angmom_px unit_alphas
              unit_coeffs unit_norm) as (G & HG & _ & Hi); try reflexivity; [lia|].
  exists G. split; [exact HG|]. split.
  - destruct (Hi 0 0) as [_ ->]; [lia|lia|].
    apply ad_gradient_nan; [|lia].
    unfold spec_delta, entry. cbn. rewrite Rminus_0_r. apply pow_i. lia.
  - assert (Hd : 0 < 3) by lia.
    pose proof (@spec_of_center_derivative 1 0 (point_of batch_origin 0) 0 0 0
                  angmom_px unit_alphas unit_coeffs unit_norm Hd) as H.
    cbn [nth] in H.
    replace (-1)%R with (spec_slope (point_of batch_origin 0) 0 0 0 angmom_px
                           unit_alphas unit_coeffs unit_norm 1 0); [exact H|].
    unfold spec_slope, other_factors, spec_factor, spec_delta, factor_slope, elem, entry.
    cbn. rewrite !Rminus_0_r. unfold pow.
    replace (- (1 * (0 * (0 * 1))))%R with 0%R by ring.
    rewrite exp_0. ring.
Qed.

(** In exact arithmetic, where the monomial factor of axis [d] does not
    vanish ([a_d = 0] or [p_d <> R_d]), the entry of [eval_deriv] is the
    partial derivative of the closed form.  (The Gaussian factor is
    never 0 in exact arithmetic; a double [exp] can underflow to 0.) *)
Theorem eval_deriv_exact (Orders : Type) (orders : Orders) (N K : nat)
    (coords : ndarray R) (R_x R_y R_z : R)
    (angmom_comps : ndarray nat) (alphas prim_coeffs norm : ndarray R) (i d : nat) :
  shape coords = [N; 3] -> shape angmom_comps = [1; 3] -> shape alphas = [K] ->
  shape prim_coeffs = [K; 1] -> shape norm = [1; K] ->
  i < N -> d < 3 ->
  (entry angmom_comps 0 d = 0 \/ entry coords i d <> nth d [R_x; R_y; R_z] 0%R) ->
  exists G slope,
    eval_deriv (finite coords) orders [fin R_x; fin R_y; fin R_z]
      (amap Z.of_nat angmom_comps) (finite alphas) (finite prim_coeffs) (finite norm)
    = Ok G
    /\ item G [i; d] = fin slope
    /\ derivable_pt_lim
         (spec_of_center (point_of coords i) R_x R_y R_z angmom_comps alphas
            prim_coeffs norm K d)
         (nth d [R_x; R_y; R_z] 0%R) slope.
Proof.
  intros Hs Ha Hal Hp Hn Hi Hd Hnz.
  destruct (@eval_deriv_gradient Orders orders N K coords R_x R_y R_z angmom_comps
              alphas prim_coeffs norm) as (G & HG & _ & HiG); try assumption; [lia|].
  exists G, (spec_slope (point_of coords i) R_x R_y R_z angmom_comps alphas
               prim_coeffs norm K d).
  split; [exact HG|]. split.
  - destruct (HiG i d Hi Hd) as [_ ->].
    rewrite ad_gradient_finite.
    + unfold fin. f_equal. apply ad_value_exact; [exact Hd|].
      destruct Hnz as [H0|Hne].
      * rewrite H0. apply R1_neq_R0.
      * apply pow_nonzero. unfold spec_delta, point_of, slice_along. cbn [item hd insert_at firstn skipn app].
        unfold entry in Hne. lra.
    + destruct Hnz as [H0|Hne].
      * rewrite H0. apply R1_neq_R0.
      * apply pow_nonzero. unfold spec_delta, point_of, slice_along. cbn [item hd insert_at firstn skipn app].
        unfold entry in Hne. lra.
  - now apply spec_of_center_derivative.
Qed.

(** C6: one primitive of exponent 1, coefficient 1, normalisation 1,
    angular momentum vector (1,0,0), centre at the origin and point
    (1,0,0): [eval_contractions] returns the single value exp(-1), and
    the x entry of [eval_deriv] at that point is exp(-1). *)
Theorem C6_px_orbital :
  eval_contractions_list (finite point_x1) (fin 0) (fin 0) (fin 0)
    (amap Z.of_nat angmom_px) (finite unit_alphas) (finite unit_coeffs)
    (finite unit_norm) = Ok [fin (exp (-1))]
  /\ exists G,
       eval_deriv (finite batch_x1) tt [fin 0; fin 0; fin 0]
         (amap Z.of_nat angmom_px) (finite unit_alphas) (finite unit_coeffs)
         (finite unit_norm) = Ok G
       /\ item G [0; 0] = fin (exp (-1)).
Proof.
  split.
  - rewrite (@eval_contractions_closed 1 1 1) by reflexivity.
    cbn [Nat.mul Nat.add seq map]. do 3 f_equal.
    unfold spec_contraction, spec_factor, spec_delta. cbn.
    rewrite !Rminus_0_r. unfold pow.
    replace (- (1 * (0 * (0 * 1))))%R with 0%R by ring.
    replace (- (1 * (1 * (1 * 1))))%R with (-1)%R by ring.
    rewrite exp_0. ring.
  - destruct (@eval_deriv_gradient unit tt 1 1 batch_x1 0 0 0 angmom_px unit_alphas
                unit_coeffs unit_norm) as (G & HG & _ & Hi); try reflexivity; [lia|].
    exists G. split; [exact HG|].
    destruct (Hi 0 0) as [_ ->]; [lia|lia|].
    rewrite ad_gradient_finite.
    + unfold fin. f_equal.
      unfold ad_value, ad_weight, prod3, fwd_factor, fwd_gauss, spec_delta, wexp_nat,
        elem, entry.
      cbn. rewrite !Rminus_0_r. unfold pow.
      replace (- (1) * (0 * (0 * 1)))%R with 0%R by ring.
      replace (- (1) * (1 * (1 * 1)))%R with (-1)%R by ring.
      rewrite exp_0. field. apply Rgt_not_eq, exp_pos.
    + unfold spec_delta, entry. cbn. rewrite Rminus_0_r. unfold pow. lra.
Qed.

Lemma ad_gradient_zero d delta a alpha c n :
  ad_gradient 0 d delta a alpha c n = fin 0.
Proof.
  unfold ad_gradient, pull_normed, pull_prod, pull_factors, pull_gauss, pull_exponent,
    pull_square, pull_monomial, pull_shift.
  change (fsum 0 _) with (Some 0%R).
  rewrite rpow_wexp. change 1%Z with (Z.of_nat 1). rewrite rpow_nat.
  cbn [fmul fadd fneg lift1 lift2 of_int]. unfold fin. f_equal. ring.
Qed.

(** A finite value of the backward pass is the exact derivative. *)
Lemma ad_gradient_derivative (K d : nat) (coords : ndarray R) (R_x R_y R_z : R)
    (angmom_comps : ndarray nat) (alphas prim_coeffs norm : ndarray R) (v : R) :
  d < 3 ->
  ad_gradient K d (spec_delta coords R_x R_y R_z)
    (fun j => entry angmom_comps 0 j) (fun k => elem alphas k)
    (fun k => entry prim_coeffs k 0) (fun k => entry norm 0 k) = fin v ->
  derivable_pt_lim
    (spec_of_center coords R_x R_y R_z angmom_comps alphas prim_coeffs norm K d)
    (nth d [R_x; R_y; R_z] 0%R) v.
Proof.
  intros Hd Hv.
  destruct (Req_dec_T (spec_delta coords R_x R_y R_z d ^ entry angmom_comps 0 d) 0)
    as [E|E].
  - destruct K as [|K].
    + rewrite ad_gradient_zero in Hv. injection Hv as <-.
      exact (@spec_of_center_derivative 0 d coords R_x R_y R_z angmom_comps alphas
               prim_coeffs norm Hd).
    + rewrite ad_gradient_nan in Hv by (assumption || lia). discriminate Hv.
  - rewrite ad_gradient_finite in Hv by exact E. injection Hv as <-.
    rewrite (@ad_value_exact K d coords R_x R_y R_z angmom_comps alphas prim_coeffs
               norm Hd E).
    now apply spec_of_center_derivative.
Qed.





(** C9: [eval_deriv] does not depend on its argument [orders]. *)
Theorem C9_orders_unused (O1 O2 : Type) (o1 : O1) (o2 : O2)
    (coords : ndarray float) (center : list float) (angmom_comps : ndarray Z)
    (alphas prim_coeffs norm : ndarray float) :
  eval_deriv coords o1 center angmom_comps alphas prim_coeffs norm
  = eval_deriv coords o2 center angmom_comps alphas prim_coeffs norm.
Proof. reflexivity. Qed.

(** ** The store: a call only allocates *)

Lemma extends_refl st : extends st st.
Proof. exists []. now rewrite app_nil_r. Qed.

Lemma extends_trans st st1 st2 : extends st st1 -> extends st1 st2 -> extends st st2.
Proof. intros [e1 ->] [e2 ->]. exists (e1 ++ e2). now rewrite app_assoc. Qed.

Lemma extends_nth st st1 c o :
  extends st st1 -> nth_error st c = Some o -> nth_error st1 c = Some o.
Proof.
  intros [ext ->] H. rewrite nth_error_app1; [exact H|].
  apply nth_error_Some. now rewrite H.
Qed.

Lemma denotes_f_mono st st1 r a : extends st st1 -> denotes_f st r a -> denotes_f st1 r a.
Proof.
  unfold denotes_f, load. intros He H.
  destruct (nth_error st (fcell r)) as [[a0|a0]|] eqn:Hn; try discriminate.
  rewrite (@extends_nth st st1 _ _ He Hn). now inversion H.
Qed.

Lemma denotes_z_mono st st1 r a : extends st st1 -> denotes_z st r a -> denotes_z st1 r a.
Proof.
  unfold denotes_z, loadz. intros He H.
  destruct (nth_error st (zcell r)) as [[a0|a0]|] eqn:Hn; try discriminate.
  rewrite (@extends_nth st st1 _ _ He Hn). now inversion H.
Qed.

Lemma denotes_v_f st h v : denotes_v st h v -> denotes_f st (sref h) (val v).
Proof.
  unfold denotes_v, denotes_f, load_value, bindM, ret. intros H.
  destruct h as [r|r pull]; cbn [sref]; destruct (load r st) as [[a|e] st'] eqn:Hl;
    try discriminate; inversion H; subst; reflexivity.
Qed.

Lemma denotes_v_mono st st1 h v : extends st st1 -> denotes_v st h v -> denotes_v st1 h v.
Proof.
  intros He H. pose proof (@denotes_f_mono st st1 _ _ He (@denotes_v_f st h v H)) as Hf.
  unfold denotes_v, load_value, bindM, ret in *. unfold denotes_f in Hf.
  destruct h as [r|r pull]; cbn [sref] in Hf; rewrite Hf;
    destruct (load r st) as [[a|e] st'] eqn:Hl; try discriminate;
    inversion H; subst; reflexivity.
Qed.

Lemma refines_bind A B A' B' (rel : store -> A -> B -> Prop)
    (rel' : store -> A' -> B' -> Prop) m p k q st :
  refines rel m p st ->
  (forall a b st1, extends st st1 -> rel st1 a b -> refines rel' (k a) (q b) st1) ->
  refines rel' (bindM m k) (bind p q) st.
Proof.
  intros [He Hm] Hk. unfold refines, bindM in *.
  destruct (m st) as [r st1]. cbn [fst snd] in *.
  destruct p as [b|e].
  - destruct Hm as (a & -> & Hrel). cbn [bind].
    destruct (Hk a b st1 He Hrel) as [He' Hr]. split; [|exact Hr].
    eapply extends_trans; eassumption.
  - subst r. cbn [bind fst snd]. now split.
Qed.

Lemma refines_ret A B (rel : store -> A -> B -> Prop) a b st :
  rel st a b -> refines rel (ret a) (Ok b) st.
Proof.
  intros H. split; [apply extends_refl|]. exists a. split; [reflexivity|exact H].
Qed.

Lemma refines_raise A B (rel : store -> A -> B -> Prop) e st :
  refines rel (raise e) (Raise e) st.
Proof. split; [apply extends_refl|reflexivity]. Qed.

Lemma refines_lift A (p : result A) st : refines (@same A) (lift p) p st.
Proof.
  split; [apply extends_refl|]. destruct p as [a|e]; [|reflexivity].
  exists a. split; reflexivity.
Qed.

Lemma refines_load st r a : denotes_f st r a -> refines (@same _) (load r) (Ok a) st.
Proof.
  intros H. red in H. unfold refines. rewrite H. split; [apply extends_refl|].
  exists a. split; reflexivity.
Qed.

Lemma refines_loadz st r a : denotes_z st r a -> refines (@same _) (loadz r) (Ok a) st.
Proof.
  intros H. red in H. unfold refines. rewrite H. split; [apply extends_refl|].
  exists a. split; reflexivity.
Qed.

Lemma refines_load_value st h v :
  denotes_v st h v -> refines (@same _) (load_value h) (Ok v) st.
Proof.
  intros H. red in H. unfold refines. rewrite H. split; [apply extends_refl|].
  exists v. split; reflexivity.
Qed.

Lemma refines_alloc st a : refines denotes_f (alloc a) (Ok a) st.
Proof.
  split; [now exists [FloatArray a]|].
  eexists. split; [reflexivity|]. cbn [alloc fst snd].
  unfold denotes_f, load. cbn [fcell fview].
  rewrite nth_error_app2 by lia. now rewrite Nat.sub_diag.
Qed.

Lemma refines_alloc_value st v : refines denotes_v (alloc_value v) (Ok v) st.
Proof.
  destruct (refines_alloc st (val v)) as [He (r & Hr & Hd)].
  cbn [alloc fst snd] in *. inversion Hr; subst r.
  destruct v as [a|a pull]; (split; [exact He|]); eexists; (split; [reflexivity|]);
    cbn [alloc_value bindM alloc ret fst snd val] in *;
    unfold denotes_v, load_value, bindM, ret; unfold denotes_f in Hd; now rewrite Hd.
Qed.

Lemma denotes_view st r a f : denotes_f st r a -> denotes_f st (view_of f r) (f a).
Proof.
  unfold denotes_f, load. cbn [view_of fcell fview]. intros H.
  destruct (nth_error st (fcell r)) as [[a0|a0]|]; try discriminate.
  inversion H. reflexivity.
Qed.

Lemma denotes_zview st r a f : denotes_z st r a -> denotes_z st (zview_of f r) (f a).
Proof.
  unfold denotes_z, loadz. cbn [zview_of zcell zview]. intros H.
  destruct (nth_error st (zcell r)) as [[a0|a0]|]; try discriminate.
  inversion H. reflexivity.
Qed.

Lemma denotes_plain st r a : denotes_f st r a -> denotes_v st (SPlain r) (Plain a).
Proof. unfold denotes_f, denotes_v, load_value, bindM, ret. now intros ->. Qed.

Lemma refines_st_reshape st s r a :
  denotes_f st r a -> refines denotes_f (st_reshape s r) (reshape s a) st.
Proof.
  intros H. pose proof H as H'. red in H'.
  unfold refines, st_reshape, reshape, bindM. rewrite H'.
  destruct (size s =? size (shape a)).
  - split; [apply extends_refl|]. eexists. split; [reflexivity|].
    exact (denotes_view (reshape_to s) H).
  - split; [apply extends_refl|reflexivity].
Qed.

Lemma refines_st_getitem st spec r a :
  denotes_f st r a -> refines denotes_f (st_getitem spec r) (getitem spec a) st.
Proof.
  intros H. pose proof H as H'. red in H'.
  unfold refines, st_getitem, getitem, bindM, lift. rewrite H'.
  destruct (getitem_shape spec (shape a)) as [s|e]; cbn [bind fst snd ret].
  - split; [apply extends_refl|]. eexists. split; [reflexivity|].
    exact (denotes_view (getitem_to s spec) H).
  - split; [apply extends_refl|reflexivity].
Qed.

Lemma refines_st_getitemz st spec r a :
  denotes_z st r a -> refines denotes_z (st_getitemz spec r) (getitem spec a) st.
Proof.
  intros H. pose proof H as H'. red in H'.
  unfold refines, st_getitemz, getitem, bindM, lift. rewrite H'.
  destruct (getitem_shape spec (shape a)) as [s|e]; cbn [bind fst snd ret].
  - split; [apply extends_refl|]. eexists. split; [reflexivity|].
    exact (denotes_zview (getitem_to s spec) H).
  - split; [apply extends_refl|reflexivity].
Qed.

Lemma refines_st_np_getitem st spec h v :
  denotes_v st h v -> refines denotes_v (st_np_getitem spec h) (np_getitem spec v) st.
Proof.
  intros H. pose proof (denotes_v_f H) as Hf. red in H.
  unfold refines, st_np_getitem, np_getitem, getitem, bindM, lift. rewrite H.
  destruct (getitem_shape spec (shape (val v))) as [s|e]; cbn [bind fst snd ret].
  - split; [apply extends_refl|]. eexists. split; [reflexivity|].
    pose proof (denotes_view (getitem_to s spec) Hf) as Hv. red in Hv.
    destruct v as [a|a pull]; cbn [trace1 val shape] in *;
      unfold denotes_v, load_value, bindM, ret; now rewrite Hv.
  - split; [apply extends_refl|reflexivity].
Qed.

Lemma refines_lift_alloc st (p : result value) :
  refines denotes_v (r <~ lift p ;; alloc_value r) p st.
Proof.
  destruct p as [v|e].
  - exact (refines_alloc_value st v).
  - split; [apply extends_refl|reflexivity].
Qed.

Lemma refines_step A A' B (rel : store -> A' -> B -> Prop) (m : M A) a
    (k : A -> M A') (p : result B) st :
  m st = (Ok a, st) -> refines rel (k a) p st -> refines rel (bindM m k) p st.
Proof. intros H. unfold refines, bindM. now rewrite H. Qed.

Lemma refines_st_op1 st f h v :
  denotes_v st h v -> refines denotes_v (st_op1 f h) (f v) st.
Proof.
  intros H. apply (refines_step _ _ H). exact (refines_lift_alloc st (f v)).
Qed.

Lemma refines_st_op2 st f h1 h2 v1 v2 :
  denotes_v st h1 v1 -> denotes_v st h2 v2 ->
  refines denotes_v (st_op2 f h1 h2) (f v1 v2) st.
Proof.
  intros H1 H2. apply (refines_step _ _ H1), (refines_step _ _ H2).
  exact (refines_lift_alloc st (f v1 v2)).
Qed.

Lemma refines_st_power st h v y :
  denotes_v st h v -> refines denotes_v (st_power h y) (np_power v y) st.
Proof.
  intros H. apply (refines_step _ _ H). exact (refines_lift_alloc st (np_power v y)).
Qed.

Lemma refines_st_negative st r a :
  denotes_f st r a -> refines denotes_f (st_negative r) (Ok (amap fneg a)) st.
Proof.
  intros H. apply (refines_step _ _ H). exact (refines_alloc st (amap fneg a)).
Qed.

Lemma refines_bind_ok A A' B B' (rel : store -> A -> B -> Prop)
    (rel' : store -> A' -> B' -> Prop) m b k (q : result B') st :
  refines rel m (Ok b) st ->
  (forall a st1, extends st st1 -> rel st1 a b -> refines rel' (k a) q st1) ->
  refines rel' (bindM m k) q st.
Proof.
  intros [He (a & Ha & Hrel)] Hk. unfold refines, bindM in *.
  destruct (m st) as [r st1]. cbn [fst snd] in *. subst r.
  destruct (Hk a st1 He Hrel) as [He' Hr]. split; [|exact Hr].
  eapply extends_trans; eassumption.
Qed.

Ltac lift_store :=
  repeat match goal with
  | E : extends ?s ?s', H : denotes_f ?s _ _ |- _ =>
      apply (@denotes_f_mono s s' _ _ E) in H
  | E : extends ?s ?s', H : denotes_z ?s _ _ |- _ =>
      apply (@denotes_z_mono s s' _ _ E) in H
  | E : extends ?s ?s', H : denotes_v ?s _ _ |- _ =>
      apply (@denotes_v_mono s s' _ _ E) in H
  end.

(** [eval_contractions_st] only allocates, and returns what
    [eval_contractions] returns on the arrays its references denote. *)
Lemma eval_contractions_refines st (coords_r : fref) (R_x R_y R_z : value)
    (angmom_r : zref) (alphas_r coeffs_r norm_r : fref)
    (coords : ndarray float) (angmom_comps : ndarray Z)
    (alphas prim_coeffs norm : ndarray float) :
  denotes_f st coords_r coords -> denotes_z st angmom_r angmom_comps ->
  denotes_f st alphas_r alphas -> denotes_f st coeffs_r prim_coeffs ->
  denotes_f st norm_r norm ->
  refines denotes_v
    (eval_contractions_st coords_r R_x R_y R_z angmom_r alphas_r coeffs_r norm_r)
    (eval_contractions coords R_x R_y R_z angmom_comps alphas prim_coeffs norm) st.
Proof.
  intros Hc Hz Hal Hp Hn. unfold eval_contractions_st, eval_contractions.
  eapply refines_bind; [exact (refines_st_reshape [1; 3] Hc)|].
  intros c1 a1 st1 E1 D1. lift_store. clear E1.
  eapply refines_bind; [exact (refines_st_getitem _ (denotes_view transpose D1))|].
  intros c2 a2 st2 E2 D2. lift_store. clear E2.
  eapply refines_bind; [exact (refines_lift_alloc st2 (np_array [R_x; R_y; R_z]))|].
  intros h3 v3 st3 E3 D3. lift_store. clear E3.
  eapply refines_bind; [exact (refines_st_np_getitem _ D3)|].
  intros h4 v4 st4 E4 D4. lift_store. clear E4.
  eapply refines_bind; [exact (refines_st_getitemz _ (denotes_zview transpose Hz))|].
  intros z5 a5 st5 E5 D5. lift_store. clear E5.
  eapply refines_bind; [exact (refines_st_getitem _ Hal)|].
  intros c6 a6 st6 E6 D6. lift_store. clear E6.
  eapply refines_bind; [exact (refines_st_op2 np_subtract (denotes_plain D2) D4)|].
  intros h7 v7 st7 E7 D7. lift_store. clear E7.
  eapply refines_bind; [exact (refines_st_power (scalar 2%Z) D7)|].
  intros h8 v8 st8 E8 D8. lift_store. clear E8.
  eapply refines_bind_ok; [exact (refines_st_negative D6)|].
  intros c9 st9 E9 D9. lift_store. clear E9.
  eapply refines_bind; [exact (refines_st_op2 np_multiply (denotes_plain D9) D8)|].
  intros h10 v10 st10 E10 D10. lift_store. clear E10.
  eapply refines_bind_ok; [exact (refines_st_op1 (fun x => Ok (np_exp x)) D10)|].
  intros h11 st11 E11 D11. lift_store. clear E11.
  eapply refines_bind_ok; [exact (refines_loadz D5)|].
  intros a12 st12 E12 D12. lift_store. clear E12. red in D12. subst a12.
  eapply refines_bind; [exact (refines_st_power a5 D7)|].
  intros h13 v13 st13 E13 D13. lift_store. clear E13.
  eapply refines_bind; [exact (refines_st_op2 np_multiply D13 D11)|].
  intros h14 v14 st14 E14 D14. lift_store. clear E14.
  eapply refines_bind; [exact (refines_st_op1 (np_prod [0; 2]) D14)|].
  intros h15 v15 st15 E15 D15. lift_store. clear E15.
  eapply refines_bind; [exact (refines_st_getitem _ (denotes_view transpose Hn))|].
  intros c16 a16 st16 E16 D16. lift_store. clear E16.
  eapply refines_bind; [exact (refines_st_op2 np_multiply (denotes_plain D16) D15)|].
  intros h17 v17 st17 E17 D17. lift_store. clear E17.
  eapply refines_bind; [exact (refines_st_op2 np_tensordot (denotes_plain Hp) D17)|].
  intros h18 v18 st18 E18 D18. lift_store. clear E18.
  exact (refines_st_op1 (fun x => Ok (np_flatten x)) D18).
Qed.

Lemma refines_mapM A B (f : A -> M B) (g : A -> result B) l st :
  (forall x st1, extends st st1 -> refines (@same B) (f x) (g x) st1) ->
  refines (@same (list B)) (mapM_st f l) (mapM g l) st.
Proof.
  revert st. induction l as [|x l IH]; intros st H; cbn [mapM_st mapM].
  - now apply refines_ret.
  - eapply refines_bind; [exact (H x st (extends_refl st))|].
    intros y y' st1 E1 ->.
    eapply refines_bind.
    + apply IH. intros x0 st2 E2. apply H. eapply extends_trans; eassumption.
    + intros ys ys' st2 E2 ->. now apply refines_ret.
Qed.

Section Gradient.
Variables (R_x R_y R_z : float).
Variables (angmom_r : zref) (alphas_r coeffs_r norm_r : fref).
Variables (angmom_comps : ndarray Z) (alphas prim_coeffs norm : ndarray float).

Lemma grad_refines argnum st coords_r coords :
  denotes_f st coords_r coords -> denotes_z st angmom_r angmom_comps ->
  denotes_f st alphas_r alphas -> denotes_f st coeffs_r prim_coeffs ->
  denotes_f st norm_r norm ->
  refines (@same float)
    (grad_st argnum coords_r R_x R_y R_z angmom_r alphas_r coeffs_r norm_r)
    (grad_eval_contractions argnum coords R_x R_y R_z angmom_comps alphas
       prim_coeffs norm) st.
Proof.
  intros Hc Hz Hal Hp Hn. unfold grad_st, grad_eval_contractions.
  eapply refines_bind;
    [exact (eval_contractions_refines (box_arg argnum 1 R_x) (box_arg argnum 2 R_y)
              (box_arg argnum 3 R_z) Hc Hz Hal Hp Hn)|].
  intros h v st1 E1 D1.
  apply (refines_step _ _ D1).
  destruct (size (shape (val v)) =? 1).
  - now apply refines_ret.
  - apply refines_raise.
Qed.

Lemma apply_along_axis_refines argnum st coords_r coords :
  denotes_f st coords_r coords -> denotes_z st angmom_r angmom_comps ->
  denotes_f st alphas_r alphas -> denotes_f st coeffs_r prim_coeffs ->
  denotes_f st norm_r norm ->
  refines denotes_f
    (apply_along_axis_st
       (fun p => grad_st argnum p R_x R_y R_z angmom_r alphas_r coeffs_r norm_r)
       1 coords_r)
    (apply_along_axis
       (fun p => grad_eval_contractions argnum p R_x R_y R_z angmom_comps alphas
                   prim_coeffs norm)
       1 coords) st.
Proof.
  intros Hc Hz Hal Hp Hn.
  unfold apply_along_axis_st, apply_along_axis.
  apply (refines_step _ _ Hc).
  destruct (1 <? ndim coords); [|apply refines_raise].
  destruct (size (remove_at 1 (shape coords)) =? 0); [apply refines_raise|].
  eapply refines_bind.
  - apply (@refines_mapM _ _ _
             (fun i => grad_eval_contractions argnum
                         (slice_along 1 coords (unravel (remove_at 1 (shape coords)) i))
                         R_x R_y R_z angmom_comps alphas prim_coeffs norm)).
    intros i st1 E1. lift_store.
    apply grad_refines; try assumption.
    exact (denotes_view _ Hc).
  - intros res res' st1 E1 ->. apply refines_alloc.
Qed.
End Gradient.

Lemma refines_lift_alloc_f st (p : result (ndarray float)) :
  refines denotes_f (r <~ lift p ;; alloc r) p st.
Proof.
  destruct p as [a|e].
  - exact (refines_alloc st a).
  - split; [apply extends_refl|reflexivity].
Qed.

Lemma eval_deriv_refines (Orders : Type) (orders : Orders) st
    (coords_r center_r : fref) (angmom_r : zref) (alphas_r coeffs_r norm_r : fref)
    (coords center : ndarray float) (angmom_comps : ndarray Z)
    (alphas prim_coeffs norm : ndarray float) :
  denotes_f st coords_r coords -> denotes_f st center_r center ->
  denotes_z st angmom_r angmom_comps ->
  denotes_f st alphas_r alphas -> denotes_f st coeffs_r prim_coeffs ->
  denotes_f st norm_r norm ->
  refines denotes_f
    (eval_deriv_st coords_r orders center_r angmom_r alphas_r coeffs_r norm_r)
    (eval_deriv coords orders (to_list center) angmom_comps alphas prim_coeffs norm) st.
Proof.
  intros Hc Hce Hz Hal Hp Hn. unfold eval_deriv_st, eval_deriv.
  apply (refines_step _ _ Hce).
  destruct (to_list center) as [|R_x [|R_y [|R_z [|? ?]]]]; try apply refines_raise.
  eapply refines_bind;
    [exact (apply_along_axis_refines R_x R_y R_z 1 Hc Hz Hal Hp Hn)|].
  intros gx ax st1 E1 Dx. lift_store. clear E1.
  eapply refines_bind;
    [exact (apply_along_axis_refines R_x R_y R_z 2 Hc Hz Hal Hp Hn)|].
  intros gy ay st2 E2 Dy. lift_store. clear E2.
  eapply refines_bind;
    [exact (apply_along_axis_refines R_x R_y R_z 3 Hc Hz Hal Hp Hn)|].
  intros gz az st3 E3 Dz. lift_store. clear E3.
  eapply refines_bind.
  - assert (Hm : mapM_st load [gx; gy; gz] st3 = (Ok [ax; ay; az], st3)).
    { cbn [mapM_st]. unfold bindM, ret. red in Dx, Dy, Dz.
      now rewrite Dx, Dy, Dz. }
    unfold vstack_st. apply (refines_step _ _ Hm).
    exact (refines_lift_alloc_f st3 (vstack [ax; ay; az])).
  - intros r a st4 E4 D4. apply refines_ret. exact (denotes_view transpose D4).
Qed.

(** C8: neither function assigns into an array it receives.  On a store
    that holds the arguments, a call leaves every object of the store as
    it was (it only allocates), whether it returns or raises, and what it
    returns or raises is what the function of the values returns or
    raises: it depends on nothing else. *)
Theorem C8_inputs_not_mutated (Orders : Type) (orders : Orders) (st : store)
    (point_r coords_r center_r : fref) (angmom_r : zref)
    (alphas_r coeffs_r norm_r : fref)
    (point coords center : ndarray float) (R_x R_y R_z : float)
    (angmom_comps : ndarray Z) (alphas prim_coeffs norm : ndarray float) :
  denotes_f st point_r point -> denotes_f st coords_r coords ->
  denotes_f st center_r center -> denotes_z st angmom_r angmom_comps ->
  denotes_f st alphas_r alphas -> denotes_f st coeffs_r prim_coeffs ->
  denotes_f st norm_r norm ->
  let run1 := eval_contractions_st point_r (Plain (scalar R_x)) (Plain (scalar R_y))
                (Plain (scalar R_z)) angmom_r alphas_r coeffs_r norm_r st in
  let run2 := eval_deriv_st coords_r orders center_r angmom_r alphas_r coeffs_r
                norm_r st in
  ((forall c o, nth_error st c = Some o -> nth_error (snd run1) c = Some o)
   /\ match eval_contractions point (Plain (scalar R_x)) (Plain (scalar R_y))
              (Plain (scalar R_z)) angmom_comps alphas prim_coeffs norm with
      | Ok out => exists h, fst run1 = Ok h /\ denotes_v (snd run1) h out
      | Raise e => fst run1 = Raise e
      end)
  /\ ((forall c o, nth_error st c = Some o -> nth_error (snd run2) c = Some o)
      /\ match eval_deriv coords orders (to_list center) angmom_comps alphas
                 prim_coeffs norm with
         | Ok out => exists r, fst run2 = Ok r /\ denotes_f (snd run2) r out
         | Raise e => fst run2 = Raise e
         end).
Proof.
  intros Hpt Hc Hce Hz Hal Hp Hn run1 run2.
  destruct (eval_contractions_refines (Plain (scalar R_x)) (Plain (scalar R_y))
              (Plain (scalar R_z)) Hpt Hz Hal Hp Hn) as [E1 H1].
  destruct (eval_deriv_refines orders Hc Hce Hz Hal Hp Hn) as [E2 H2].
  split; split.
  - intros c o Ho. exact (@extends_nth _ _ c o E1 Ho).
  - exact H1.
  - intros c o Ho. exact (@extends_nth _ _ c o E2 Ho).
  - exact H2.
Qed.

Lemma C8_witness :
  let run1 := eval_contractions_st (cell_ref 0) (Plain (scalar (fin 0)))
                (Plain (scalar (fin 1))) (Plain (scalar (fin 2))) (cell_zref 3)
                (cell_ref 4) (cell_ref 5) (cell_ref 6) sample_store in
  let run2 := eval_deriv_st (cell_ref 1) tt (cell_ref 2) (cell_zref 3) (cell_ref 4)
                (cell_ref 5) (cell_ref 6) sample_store in
  ((forall c o, nth_error sample_store c = Some o -> nth_error (snd run1) c = Some o)
   /\ match eval_contractions (finite sample_point) (Plain (scalar (fin 0)))
              (Plain (scalar (fin 1))) (Plain (scalar (fin 2)))
              (amap Z.of_nat sample_angmom1) (finite sample_alphas)
              (finite sample_coeffs1) (finite sample_norm1) with
      | Ok out => exists h, fst run1 = Ok h /\ denotes_v (snd run1) h out
      | Raise e => fst run1 = Raise e
      end)
  /\ ((forall c o, nth_error sample_store c = Some o -> nth_error (snd run2) c = Some o)
      /\ match eval_deriv (finite sample_batch) tt
                 (to_list (finite (vector 0%R [0; 1; 2]%R)))
                 (amap Z.of_nat sample_angmom1) (finite sample_alphas)
                 (finite sample_coeffs1) (finite sample_norm1) with
         | Ok out => exists r, fst run2 = Ok r /\ denotes_f (snd run2) r out
         | Raise e => fst run2 = Raise e
         end).
Proof.
  apply (@C8_inputs_not_mutated unit tt sample_store (cell_ref 0) (cell_ref 1)
           (cell_ref 2) (cell_zref 3) (cell_ref 4) (cell_ref 5) (cell_ref 6));
    reflexivity.
Defined.

(** ** Further properties of the two functions, and the script *)

Lemma pow_eq_0_iff (x : R) (n : nat) : (x ^ n = 0)%R <-> (n <> 0 /\ x = 0%R).
Proof.
  split.
  - intros H. split.
    + intros ->. cbn in H. lra.
    + destruct (Req_dec_T x 0) as [E|E]; [exact E|].
      exfalso. exact (pow_nonzero x n E H).
  - intros [Hn ->]. apply pow_i. lia.
Qed.

(** X2: at the centre the gradient is [nan]: for a basis with one output and
    a primitive at least, the entry [i, d] of [eval_deriv] is [nan]
    whenever the angular momentum component of axis [d] is not 0 and the
    point [coords[i]] has the coordinate of the centre on that axis. *)
Theorem eval_deriv_nan_at_center (Orders : Type) (orders : Orders) (N K : nat)
    (coords : ndarray R) (R_x R_y R_z : R)
    (angmom_comps : ndarray nat) (alphas prim_coeffs norm : ndarray R) (i d : nat) :
  shape coords = [N; 3] -> shape angmom_comps = [1; 3] -> shape alphas = [K] ->
  shape prim_coeffs = [K; 1] -> shape norm = [1; K] ->
  i < N -> d < 3 -> 0 < K ->
  entry angmom_comps 0 d <> 0 -> entry coords i d = nth d [R_x; R_y; R_z] 0%R ->
  exists G,
    eval_deriv (finite coords) orders [fin R_x; fin R_y; fin R_z]
      (amap Z.of_nat angmom_comps) (finite alphas) (finite prim_coeffs) (finite norm)
    = Ok G
    /\ item G [i; d] = nan.
Proof.
  intros Hs Ha Hal Hp Hn Hi Hd HK Hnz Heq.
  destruct (@eval_deriv_gradient Orders orders N K coords R_x R_y R_z angmom_comps
              alphas prim_coeffs norm) as (G & HG & _ & HiG); try assumption; [lia|].
  exists G. split; [exact HG|].
  destruct (HiG i d Hi Hd) as [_ ->].
  apply ad_gradient_nan; [|exact HK].
  apply pow_eq_0_iff. split; [exact Hnz|].
  change (spec_delta (point_of coords i) R_x R_y R_z d)
    with (entry coords i d - nth d [R_x; R_y; R_z] 0)%R.
  rewrite Heq. ring.
Qed.

Lemma eval_deriv_nan_at_center_witness :
  exists G,
    eval_deriv (finite sample_batch) tt [fin 1; fin 1; fin 2]
      (amap Z.of_nat sample_angmom1) (finite sample_alphas) (finite sample_coeffs1)
      (finite sample_norm1)
    = Ok G
    /\ item G [0; 0] = nan.
Proof.
  apply (@eval_deriv_nan_at_center unit tt 2 2 sample_batch 1 1 2 sample_angmom1
           sample_alphas sample_coeffs1 sample_norm1 0 0); try reflexivity; try lia.
  cbn. lia.
Defined.

Lemma ad_gradient_delta_ext K d (delta delta' : nat -> R) a alpha c n :
  d < 3 -> (forall j, j < 3 -> delta j = delta' j) ->
  ad_gradient K d delta a alpha c n = ad_gradient K d delta' a alpha c n.
Proof.
  intros Hd H.
  unfold ad_gradient, pull_normed, pull_prod, pull_factors, pull_gauss, pull_exponent,
    pull_square, pull_monomial, pull_shift, prod3, fwd_factor, fwd_gauss.
  rewrite (H d Hd), (H 0), (H 1), (H 2) by lia. reflexivity.
Qed.

(** X3: [eval_deriv] depends on the points and the centre only through the
    differences [coords[i, d] - R_d]: two calls whose arguments have the
    same differences, and the same basis, return gradients with the same
    shape and the same entries, the [nan] entries included. *)
Theorem eval_deriv_depends_on_differences (Orders : Type) (orders : Orders) (N K : nat)
    (coords coords' : ndarray R) (R_x R_y R_z R_x' R_y' R_z' : R)
    (angmom_comps : ndarray nat) (alphas prim_coeffs norm : ndarray R) :
  shape coords = [N; 3] -> shape coords' = [N; 3] -> 0 < N ->
  shape angmom_comps = [1; 3] -> shape alphas = [K] ->
  shape prim_coeffs = [K; 1] -> shape norm = [1; K] ->
  (forall i d, i < N -> d < 3 ->
     (entry coords' i d - nth d [R_x'; R_y'; R_z'] 0
      = entry coords i d - nth d [R_x; R_y; R_z] 0)%R) ->
  exists G G',
    eval_deriv (finite coords) orders [fin R_x; fin R_y; fin R_z]
      (amap Z.of_nat angmom_comps) (finite alphas) (finite prim_coeffs) (finite norm)
    = Ok G
    /\ eval_deriv (finite coords') orders [fin R_x'; fin R_y'; fin R_z']
         (amap Z.of_nat angmom_comps) (finite alphas) (finite prim_coeffs) (finite norm)
       = Ok G'
    /\ shape G' = shape G
    /\ forall i d, i < N -> d < 3 -> item G' [i; d] = item G [i; d].
Proof.
  intros Hs Hs' HN Ha Hal Hp Hn Hdiff.
  destruct (@eval_deriv_gradient Orders orders N K coords R_x R_y R_z angmom_comps
              alphas prim_coeffs norm Hs HN Ha Hal Hp Hn) as (G & HG & HsG & HiG).
  destruct (@eval_deriv_gradient Orders orders N K coords' R_x' R_y' R_z' angmom_comps
              alphas prim_coeffs norm Hs' HN Ha Hal Hp Hn) as (G' & HG' & HsG' & HiG').
  exists G, G'. split; [exact HG|]. split; [exact HG'|].
  split; [now rewrite HsG, HsG'|].
  intros i d Hi Hd.
  destruct (HiG i d Hi Hd) as [_ ->]. destruct (HiG' i d Hi Hd) as [_ ->].
  apply ad_gradient_delta_ext; [exact Hd|].
  intros j Hj. exact (Hdiff i j Hi Hj).
Qed.

Lemma eval_deriv_depends_on_differences_witness :
  exists G G',
    eval_deriv (finite sample_batch) tt [fin 0; fin 1; fin 2]
      (amap Z.of_nat sample_angmom1) (finite sample_alphas) (finite sample_coeffs1)
      (finite sample_norm1)
    = Ok G
    /\ eval_deriv (finite (translate sample_batch sample_point)) tt
         [fin (0 + 1); fin (1 + 2); fin (2 + 3)]
         (amap Z.of_nat sample_angmom1) (finite sample_alphas) (finite sample_coeffs1)
         (finite sample_norm1)
       = Ok G'
    /\ shape G' = shape G
    /\ forall i d, i < 2 -> d < 3 -> item G' [i; d] = item G [i; d].
Proof.
  apply (@eval_deriv_depends_on_differences unit tt 2 2); try reflexivity; [lia|].
  intros [|[|?]] [|[|[|?]]] Hi Hd; try lia; cbn; lra.
Defined.

Lemma mapM_raise_first A (f : nat -> result A) n e :
  0 < n -> f 0 = Raise e -> mapM f (seq 0 n) = Raise e.
Proof.
  intros Hn Hf. destruct n as [|n]; [lia|].
  cbn [seq mapM]. rewrite Hf. reflexivity.
Qed.

Lemma apply_along_rows_raise (f : ndarray float -> result float) e N C
    (coords : ndarray float) :
  shape coords = [N; C] -> 0 < N -> f (point_of coords 0) = Raise e ->
  apply_along_axis f 1 coords = Raise e.
Proof.
  intros Hs HN Hf. unfold apply_along_axis, ndim. rewrite Hs.
  cbn [length Nat.ltb Nat.leb remove_at firstn skipn app size fold_right].
  rewrite Nat.mul_1_r.
  destruct (Nat.eqb_spec N 0) as [->|_]; [lia|].
  rewrite (@mapM_raise_first _ _ N e); [reflexivity|exact HN|].
  cbn [unravel size fold_right]. rewrite Nat.div_1_r. exact Hf.
Qed.

Lemma grad_eval_contractions_not_scalar (K L M d : nat) (coords : ndarray float)
    (R_x R_y R_z : float) (angmom_comps : ndarray Z)
    (alphas prim_coeffs norm : ndarray float) :
  d < 3 ->
  shape coords = [3] -> shape angmom_comps = [L; 3] -> shape alphas = [K] ->
  shape prim_coeffs = [K; M] -> shape norm = [L; K] ->
  M * L <> 1 ->
  grad_eval_contractions (S d) coords R_x R_y R_z angmom_comps alphas prim_coeffs norm
  = Raise TypeError.
Proof.
  intros Hd.
  destruct coords as [s0 p], angmom_comps as [s1 am], alphas as [s2 al],
    prim_coeffs as [s3 c], norm as [s4 nm].
  cbn [shape]. intros -> -> -> -> -> HML.
  unfold grad_eval_contractions, eval_contractions. open_ops.
  destruct d as [|[|[|?]]]; [| | |lia]; do 12 shapes;
    (lazymatch goal with
     | |- (if ?b then _ else _) = _ =>
         assert (Hb : b = false)
           by (apply Nat.eqb_neq; rewrite !Nat.mul_1_r; exact HML);
         rewrite Hb
     end; reflexivity).
Qed.

(** X5: [grad] refuses a function whose output is not a single number: for
    a batch with a point at least, and a basis whose number of outputs
    [M * L] is not 1, [eval_deriv] raises [TypeError]. *)
Theorem eval_deriv_not_scalar (Orders : Type) (orders : Orders) (N K L M : nat)
    (coords : ndarray float) (R_x R_y R_z : float) (angmom_comps : ndarray Z)
    (alphas prim_coeffs norm : ndarray float) :
  shape coords = [N; 3] -> 0 < N ->
  shape angmom_comps = [L; 3] -> shape alphas = [K] ->
  shape prim_coeffs = [K; M] -> shape norm = [L; K] ->
  M * L <> 1 ->
  eval_deriv coords orders [R_x; R_y; R_z] angmom_comps alphas prim_coeffs norm
  = Raise TypeError.
Proof.
  intros Hs HN Ha Hal Hp Hn HML. unfold eval_deriv.
  rewrite (@apply_along_rows_raise _ TypeError N 3 coords Hs HN); [reflexivity|].
  apply (@grad_eval_contractions_not_scalar K L M 0); try assumption; [lia|].
  unfold point_of, slice_along. cbn [shape]. now rewrite Hs.
Qed.

Lemma eval_deriv_not_scalar_witness :
  eval_deriv (finite sample_batch) tt [fin 0; fin 1; fin 2]
    (amap Z.of_nat sample_angmom) (finite sample_alphas) (finite sample_coeffs)
    (finite sample_norm)
  = Raise TypeError.
Proof.
  apply (@eval_deriv_not_scalar unit tt 2 2 2 2); try reflexivity; lia.
Defined.

(** X6: a single point given as a 1-d array is not a batch: [eval_deriv]
    visits axis 1 of [coords], and raises [AxisError] when [coords] has
    fewer than two axes. *)
Theorem eval_deriv_needs_batch (Orders : Type) (orders : Orders)
    (coords : ndarray float) (R_x R_y R_z : float) (angmom_comps : ndarray Z)
    (alphas prim_coeffs norm : ndarray float) :
  ndim coords < 2 ->
  eval_deriv coords orders [R_x; R_y; R_z] angmom_comps alphas prim_coeffs norm
  = Raise AxisError.
Proof.
  intros H. unfold eval_deriv, apply_along_axis.
  destruct (Nat.ltb_spec 1 (ndim coords)); [lia|reflexivity].
Qed.

Lemma eval_deriv_needs_batch_witness :
  eval_deriv (finite sample_point) tt [fin 0; fin 1; fin 2]
    (amap Z.of_nat sample_angmom1) (finite sample_alphas) (finite sample_coeffs1)
    (finite sample_norm1)
  = Raise AxisError.
Proof.
  apply (@eval_deriv_needs_batch unit tt). cbn. lia.
Defined.

Lemma grad_eval_contractions_bad_point argnum (coords : ndarray float)
    (R_x R_y R_z : float) (angmom_comps : ndarray Z)
    (alphas prim_coeffs norm : ndarray float) :
  size (shape coords) <> 3 ->
  grad_eval_contractions argnum coords R_x R_y R_z angmom_comps alphas prim_coeffs norm
  = Raise ValueError.
Proof.
  intros H. unfold grad_eval_contractions, eval_contractions, reshape.
  change (size [1; 3]) with 3.
  destruct (Nat.eqb_spec 3 (size (shape coords))) as [E|_]; [now rewrite <- E in H|].
  reflexivity.
Qed.

(** X7: the rows of the batch must have three columns: for a batch with a
    row at least whose rows have another length, the first call of the
    gradient fails at [coords.reshape(1, 3)] and [eval_deriv] raises
    [ValueError], whatever the basis. *)
Theorem eval_deriv_row_length (Orders : Type) (orders : Orders) (N C : nat)
    (coords : ndarray float) (R_x R_y R_z : float) (angmom_comps : ndarray Z)
    (alphas prim_coeffs norm : ndarray float) :
  shape coords = [N; C] -> 0 < N -> C <> 3 ->
  eval_deriv coords orders [R_x; R_y; R_z] angmom_comps alphas prim_coeffs norm
  = Raise ValueError.
Proof.
  intros Hs HN HC. unfold eval_deriv.
  rewrite (@apply_along_rows_raise _ ValueError N C coords Hs HN); [reflexivity|].
  apply grad_eval_contractions_bad_point.
  unfold point_of, slice_along. cbn [shape]. rewrite Hs.
  cbn [nth size fold_right]. lia.
Qed.

Lemma eval_deriv_row_length_witness :
  eval_deriv (finite (matrix 0%R 3 2 [1; 2; 3; 4; 5; 6]%R)) tt [fin 0; fin 1; fin 2]
    (amap Z.of_nat sample_angmom1) (finite sample_alphas) (finite sample_coeffs1)
    (finite sample_norm1)
  = Raise ValueError.
Proof.
  apply (@eval_deriv_row_length unit tt 3 2); [reflexivity|lia|lia].
Defined.

Lemma reshape_flatten A (s : list nat) (a : ndarray A) :
  reshape s (flatten_arr a) = reshape s a.
Proof.
  unfold reshape, flatten_arr. cbn [shape item size fold_right].
  rewrite Nat.mul_1_r.
  destruct (size s =? size (shape a)); [|reflexivity].
  do 2 f_equal. apply functional_extensionality. intros idx.
  cbn [unravel size fold_right hd]. now rewrite Nat.div_1_r.
Qed.

(** X8: [eval_contractions] reads the point through [coords.reshape(1, 3)]
    only: an array of any shape is taken as the sequence of its elements
    in C order, so a 1 x 3 or a 3 x 1 array gives what the 3-vector of its
    elements gives (also under tracing, and also the error when it has
    not three elements). *)
Theorem eval_contractions_flat_point (coords : ndarray float) (R_x R_y R_z : value)
    (angmom_comps : ndarray Z) (alphas prim_coeffs norm : ndarray float) :
  eval_contractions (flatten_arr coords) R_x R_y R_z angmom_comps alphas prim_coeffs norm
  = eval_contractions coords R_x R_y R_z angmom_comps alphas prim_coeffs norm.
Proof.
  unfold eval_contractions. now rewrite reshape_flatten.
Qed.

Lemma clip_idem d i : clip d (clip d i) = clip d i.
Proof. unfold clip. now destruct (d =? 1). Qed.

Section Broadcast.
Variables (K L M Ka Kn La Ln : nat).
Variables (coords : ndarray R) (R_x R_y R_z : R).
Variables (angmom_comps : ndarray nat) (alphas prim_coeffs norm : ndarray R).
Hypothesis coords_shape : shape coords = [3].
Hypothesis angmom_shape : shape angmom_comps = [La; 3].
Hypothesis alphas_shape : shape alphas = [Ka].
Hypothesis coeffs_shape : shape prim_coeffs = [K; M].
Hypothesis norm_shape : shape norm = [Ln; Kn].
Hypothesis primitives : bdim Kn Ka = Ok K.
Hypothesis vectors : bdim Ln La = Ok L.

Lemma eval_contractions_broadcast_closed :
  eval_contractions_list (finite coords) (fin R_x) (fin R_y) (fin R_z)
    (amap Z.of_nat angmom_comps) (finite alphas) (finite prim_coeffs)
    (finite norm)
  = Ok (map (fun i => fin (spec_contraction coords R_x R_y R_z
                             (broadcast_to [L; 3] angmom_comps)
                             (broadcast_to [K] alphas) prim_coeffs
                             (broadcast_to [L; K] norm) K (i / L) (i mod L)))
            (seq 0 (M * L))).
Proof.
  unfold finite.
  destruct coords as [s0 p], angmom_comps as [s1 am], alphas as [s2 al],
    prim_coeffs as [s3 c], norm as [s4 nm].
  cbn [shape] in *. subst s0 s1 s2 s3 s4.
  unfold eval_contractions_list, eval_contractions. open_ops.
  do 10 shapes. rewrite primitives, vectors. do 4 shapes.
  rewrite to_list_flatten. unfold to_list. cbn [shape size fold_right].
  rewrite !Nat.mul_1_r. f_equal.
  apply map_ext_in. intros i Hi. apply in_seq in Hi.
  rewrite (unravel_rows M L i). cbn [item].
  assert (Hl : i mod L < L).
  { apply Nat.mod_upper_bound. intros ->. lia. }
  set (m := i / L). set (l := i mod L) in *.
  unfold spec_contraction, spec_factor, spec_delta, fin.
  rewrite <- fsum_fin. apply fsum_ext. intros k Hk.
  cbn. rewrite !clip_idem, !rpow_nat, !rpow_2. cbn.
  rewrite <- !Ropp_mult_distr_l. apply f_equal. ring.
Qed.
End Broadcast.

Lemma broadcast_shapes_1 a b : broadcast_shapes [a] [b] = d <- bdim a b ;; Ok [d].
Proof. unfold broadcast_shapes. cbn. now destruct (bdim a b). Qed.

Lemma broadcast_shapes_bdim a b d : broadcast_shapes [a] [b] = Ok [d] -> bdim a b = Ok d.
Proof.
  rewrite broadcast_shapes_1. destruct (bdim a b); cbn [bind]; congruence.
Qed.

(** X9: axes of length one are broadcast: when the numbers of primitives of
    [norm] and [alphas] broadcast to the [K] rows of [prim_coeffs], and
    the numbers of vectors of [norm] and [angmom_comps] broadcast to [L],
    a call returns what it returns for the arrays [np.broadcast_to]
    extends to [K] primitives and [L] vectors: a single exponent is the
    exponent of every primitive, and so on. *)
Theorem eval_contractions_broadcasts
    (K L M Ka Kn La Ln : nat) (coords : ndarray R) (R_x R_y R_z : R)
    (angmom_comps : ndarray nat) (alphas prim_coeffs norm : ndarray R) :
  shape coords = [3] -> shape angmom_comps = [La; 3] -> shape alphas = [Ka] ->
  shape prim_coeffs = [K; M] -> shape norm = [Ln; Kn] ->
  broadcast_shapes [Kn] [Ka] = Ok [K] -> broadcast_shapes [Ln] [La] = Ok [L] ->
  exists out,
    eval_contractions_list (finite coords) (fin R_x) (fin R_y) (fin R_z)
      (amap Z.of_nat angmom_comps) (finite alphas) (finite prim_coeffs) (finite norm)
    = Ok out
    /\ length out = M * L
    /\ eval_contractions_list (finite coords) (fin R_x) (fin R_y) (fin R_z)
         (amap Z.of_nat (broadcast_to [L; 3] angmom_comps))
         (finite (broadcast_to [K] alphas)) (finite prim_coeffs)
         (finite (broadcast_to [L; K] norm))
       = Ok out.
Proof.
  intros Hc Ha Hal Hp Hn HK HL.
  apply broadcast_shapes_bdim in HK, HL.
  rewrite (@eval_contractions_broadcast_closed K L M Ka Kn La Ln coords R_x R_y R_z
             angmom_comps alphas prim_coeffs norm Hc Ha Hal Hp Hn HK HL).
  eexists. split; [reflexivity|]. split; [now rewrite length_map, length_seq|].
  apply (@eval_contractions_closed K L M coords R_x R_y R_z
           (broadcast_to [L; 3] angmom_comps) (broadcast_to [K] alphas) prim_coeffs
           (broadcast_to [L; K] norm)); try assumption; reflexivity.
Qed.

Lemma eval_contractions_broadcasts_witness :
  exists out,
    eval_contractions_list (finite sample_point) (fin 0) (fin 1) (fin 2)
      (amap Z.of_nat sample_angmom) (finite unit_alphas) (finite sample_coeffs)
      (finite sample_norm)
    = Ok out
    /\ length out = 2 * 2
    /\ eval_contractions_list (finite sample_point) (fin 0) (fin 1) (fin 2)
         (amap Z.of_nat (broadcast_to [2; 3] sample_angmom))
         (finite (broadcast_to [2] unit_alphas)) (finite sample_coeffs)
         (finite (broadcast_to [2; 2] sample_norm))
       = Ok out.
Proof.
  apply (@eval_contractions_broadcasts 2 2 2 1 2 2 2); reflexivity.
Defined.

Lemma bdim_error a b e : bdim a b = Raise e -> e = ValueError.
Proof.
  unfold bdim. destruct (a =? b), (a =? 1), (b =? 1); congruence.
Qed.

(** X10: axis lengths that do not fit are reported: when the numbers of
    angular momentum vectors of [angmom_comps] and [norm] do not
    broadcast, or the numbers of primitives of [alphas] and [norm] do not
    broadcast to the number of rows of [prim_coeffs], [eval_contractions]
    raises [ValueError]. *)
Theorem eval_contractions_shape_mismatch
    (Kc M Ka Kn La Ln : nat) (coords : ndarray float) (R_x R_y R_z : float)
    (angmom_comps : ndarray Z) (alphas prim_coeffs norm : ndarray float) :
  shape coords = [3] -> shape angmom_comps = [La; 3] -> shape alphas = [Ka] ->
  shape prim_coeffs = [Kc; M] -> shape norm = [Ln; Kn] ->
  broadcast_shapes [Ln] [La] = Raise ValueError
  \/ broadcast_shapes [Kn] [Ka] <> Ok [Kc] ->
  eval_contractions_list coords R_x R_y R_z angmom_comps alphas prim_coeffs norm
  = Raise ValueError.
Proof.
  destruct coords as [s0 p], angmom_comps as [s1 am], alphas as [s2 al],
    prim_coeffs as [s3 c], norm as [s4 nm].
  cbn [shape]. intros -> -> -> -> -> H.
  rewrite !broadcast_shapes_1 in H.
  unfold eval_contractions_list, eval_contractions. open_ops.
  do 10 shapes.
  destruct (bdim Ln La) as [L|e] eqn:HL.
  - destruct (bdim Kn Ka) as [K|e] eqn:HK.
    + do 2 shapes.
      destruct (Nat.eqb_spec Kc K) as [->|Hne].
      * destruct H as [H|H]; [discriminate H|]. now elim H.
      * reflexivity.
    + apply bdim_error in HK. subst e. reflexivity.
  - apply bdim_error in HL. subst e. reflexivity.
Qed.

Lemma eval_contractions_shape_mismatch_witness :
  eval_contractions_list (finite sample_point) (fin 0) (fin 1) (fin 2)
    (amap Z.of_nat sample_angmom) (finite (vector 0%R [1; 2; 3]%R))
    (finite sample_coeffs) (finite sample_norm)
  = Raise ValueError.
Proof.
  apply (@eval_contractions_shape_mismatch 2 2 3 2 2 2); try reflexivity.
  right. discriminate.
Defined.

(** X11: the angular momentum components must be a 2-d array, also for one
    vector: with a 1-d (or 0-d) [angmom_comps], the indexing
    [angmom_comps.T[np.newaxis, np.newaxis, :, :, np.newaxis]] raises
    [IndexError]. *)
Theorem eval_contractions_angmom_1d (coords : ndarray float) (R_x R_y R_z : float)
    (angmom_comps : ndarray Z) (alphas prim_coeffs norm : ndarray float) :
  size (shape coords) = 3 -> ndim angmom_comps < 2 ->
  eval_contractions_list coords R_x R_y R_z angmom_comps alphas prim_coeffs norm
  = Raise IndexError.
Proof.
  intros Hc Ha.
  unfold eval_contractions_list, eval_contractions, reshape. rewrite Hc.
  open_ops. do 4 shapes.
  unfold ndim in Ha. destruct angmom_comps as [[|n [|? ?]] am]; cbn [shape length] in Ha;
    try lia; reflexivity.
Qed.

Lemma eval_contractions_angmom_1d_witness :
  eval_contractions_list (finite sample_point) (fin 0) (fin 1) (fin 2)
    (vector 0%Z [1; 0; 0]%Z) (finite sample_alphas) (finite sample_coeffs1)
    (finite sample_norm1)
  = Raise IndexError.
Proof.
  apply eval_contractions_angmom_1d; [reflexivity|cbn; lia].
Defined.

Lemma unbroadcast_K11_sum K x :
  shape x = [K; 1; 1] ->
  shape (unbroadcast [1; 1; 1] x) = [1; 1; 1]
  /\ item (unbroadcast [1; 1; 1] x) [0; 0; 0] = fsum K (fun k => item x [k; 0; 0]).
Proof.
  destruct x as [s f]. cbn [shape]. intros ->. split; [reflexivity|].
  cbn. rewrite !fsum_1. apply fsum_ext. intros k _. reflexivity.
Qed.

(** [norm * zeroth_part] when the exponents are one and the
    normalisation has [K] columns: the product is broadcast to the [K]
    primitives, and the cotangents of the [K] primitives are summed. *)
Lemma multiply_plain_node3_shared K (b : ndarray float) (beta : nat -> R) x v q :
  shape b = [K; 1; 1] ->
  (forall k, k < K -> item b [k; 0; 0] = Some (beta k)) ->
  node3 1 x v q ->
  exists x', np_multiply (Plain b) x = Ok x'
    /\ node3 K x' (fun k => beta k * v 0%nat)%R
         (fun gk => q (fun _ => fsum K (fun k => fmul (Some (beta k)) (gk k)))).
Proof.
  intros Hsb Hib (A & p & -> & HsA & HiA & HpA & Hext).
  unfold np_multiply, broadcast2, broadcast_shapes. cbn [val]. rewrite HsA, Hsb.
  cbn [rev app bshape_rev bind]. rewrite ?bdim_1_l, ?bdim_1_r, ?bdim_refl.
  cbn [rev app bshape_rev bind].
  eexists. split; [reflexivity|].
  eexists _, _. split; [reflexivity|]. split; [reflexivity|]. split; [|split].
  - intros k Hk. zitem. rewrite HsA, Hsb. bix.
    rewrite !(@clip_lt K k Hk). rewrite HiA, Hib by (assumption || lia). reflexivity.
  - intros g Hg. cbn [trace2 shape zip_at].
    match goal with |- p (unbroadcast _ ?X) = _ =>
      destruct (@unbroadcast_K11_sum K X) as [Hs Hi]; [reflexivity|] end.
    rewrite HpA by exact Hs. apply Hext. intros k Hk.
    assert (k = 0) as -> by lia. rewrite Hi.
    apply fsum_ext. intros k Hk'.
    zitem. rewrite Hg, Hsb. bix. rewrite !(@clip_lt K k Hk').
    rewrite Hib by exact Hk'. reflexivity.
  - intros f f' Hf. f_equal.
    apply functional_extensionality. intros _.
    apply fsum_ext. intros k Hk. now rewrite Hf.
Qed.

Lemma grad_eval_contractions_tape_shared (K d : nat) (coords : ndarray R) (R_x R_y R_z : R)
    (angmom_comps : ndarray nat) (alphas prim_coeffs norm : ndarray R) :
  d < 3 ->
  shape coords = [3] -> shape angmom_comps = [1; 3] -> shape alphas = [1] ->
  shape prim_coeffs = [K; 1] -> shape norm = [1; K] ->
  grad_eval_contractions (S d) (finite coords) (fin R_x) (fin R_y) (fin R_z)
    (amap Z.of_nat angmom_comps) (finite alphas) (finite prim_coeffs) (finite norm)
  = Ok (pull_prod 1 d
          (spec_delta coords R_x R_y R_z)
          (fun j => item angmom_comps [0; j])
          (fun k => item alphas [k])
          (fun _ => fsum K (fun k =>
             fmul (Some (item norm [0; k]))
                  (fmul (Some (item prim_coeffs [k; 0])) (Some 1%R))))).
Proof.
  intros Hd.
  destruct coords as [s0 p], angmom_comps as [s1 am], alphas as [s2 al],
    prim_coeffs as [s3 c], norm as [s4 nm].
  cbn [shape]. intros -> -> -> -> ->.
  unfold grad_eval_contractions, eval_contractions, finite.
  cbn [bind shape amap transpose reshape getitem getitem_shape size fold_right
       Nat.mul Nat.add Nat.eqb rev app].
  destruct (@center_node d R_x R_y R_z Hd) as (c0 & x0 & Hc0 & Hx0 & N0).
  rewrite Hc0. cbn [bind]. rewrite Hx0. cbn [bind].
  lazymatch goal with |- context [np_subtract (Plain ?c5) x0] =>
    edestruct (@subtract_node d c5 (fun j => p [j]) x0) as (x1 & Hx1 & N1);
      [ reflexivity
      | intros j Hj; cbn [item transpose getitem_index rev app amap shape];
        now rewrite reshape_index
      | exact N0 | ] end.
  rewrite Hx1. cbn [bind].
  destruct (@power2_node d x1 _ _ Hd N1) as (x2 & Hx2 & N2).
  rewrite Hx2. cbn [bind].
  lazymatch goal with |- context [np_multiply (Plain ?b) x2] =>
    edestruct (@multiply_plain_node1 1 d b (fun k => - al [k])%R x2)
      as (x3 & Hx3 & N3);
      [ exact Hd | reflexivity | intros k Hk; reflexivity | exact N2 | ] end.
  rewrite Hx3. cbn [bind].
  pose proof (@exp_node 1 d x3 _ _ Hd N3) as N4.
  lazymatch goal with |- context [np_power x1 ?y] =>
    edestruct (@power_node d y (fun j => am [0; j]) x1)
      as (x5 & Hx5 & N5);
      [ exact Hd | reflexivity | intros j Hj; reflexivity | exact N1 | ] end.
  rewrite Hx5. cbn [bind].
  destruct (@multiply_node 1 d x5 _ _ (np_exp x3) _ _ Hd N5 N4) as (x6 & Hx6 & N6).
  rewrite Hx6. cbn [bind].
  destruct (@prod_node 1 d x6 _ _ Hd N6) as (x7 & Hx7 & N7).
  rewrite Hx7. cbn [bind].
  lazymatch goal with |- context [np_multiply (Plain ?b) x7] =>
    edestruct (@multiply_plain_node3_shared K b (fun k => nm [0; k]) x7)
      as (x8 & Hx8 & N8);
      [ reflexivity | intros k Hk; reflexivity | exact N7 | ] end.
  rewrite Hx8. cbn [bind].
  lazymatch goal with |- context [np_tensordot (Plain ?b) x8] =>
    edestruct (@tensordot_node K b (fun k => c [k; 0]) x8)
      as (T & pT & HT & HsT & HpT);
      [ reflexivity | intros k Hk; reflexivity | exact N8 | ] end.
  rewrite HT. cbn [bind val]. rewrite HsT. cbn [size fold_right Nat.mul Nat.eqb].
  rewrite HpT. reflexivity.
Qed.

Lemma pull_prod_shared K d delta a alpha (c n : nat -> R) :
  pull_prod 1 d delta a alpha
    (fun _ => fsum K (fun k => fmul (Some (n k)) (fmul (Some (c k)) (Some 1%R))))
  = ad_gradient 1 d delta a alpha (fun _ => rsum K (fun k => c k * n k)%R) (fun _ => 1%R).
Proof.
  unfold ad_gradient, pull_normed. f_equal.
  apply functional_extensionality. intros _.
  cbn [fmul lift2]. rewrite fsum_fin. f_equal.
  rewrite (@rsum_ext K _ (fun k => c k * n k)%R) by (intros; ring). ring.
Qed.

(** The arrays of a basis whose [K] primitives share the exponent: one
    primitive, with the sum of the products of the coefficients and the
    normalisations as its coefficient. *)
Lemma spec_of_center_shared K d (coords : ndarray R) (R_x R_y R_z : R)
    (angmom_comps : ndarray nat) (alphas prim_coeffs norm : ndarray R) r :
  shape alphas = [1] ->
  spec_of_center coords R_x R_y R_z angmom_comps alphas
    (mkarray [1; 1] (fun _ => rsum K (fun k => entry prim_coeffs k 0 * entry norm 0 k)%R))
    (mkarray [1; 1] (fun _ => 1%R)) 1 d r
  = spec_of_center coords R_x R_y R_z angmom_comps (broadcast_to [K] alphas)
      prim_coeffs norm K d r.
Proof.
  intros Hal. unfold spec_of_center, spec_contraction, spec_factor, broadcast_to, entry.
  cbn [item rsum]. rewrite Hal. cbn [bindex clips skipn length Nat.sub clip Nat.eqb].
  rewrite Rplus_0_l, Rmult_1_r, rsum_scal_r. apply rsum_ext. intros k Hk. reflexivity.
Qed.

Lemma eval_deriv_gradient_shared (Orders : Type) (orders : Orders) (N K : nat)
    (coords : ndarray R) (R_x R_y R_z : R)
    (angmom_comps : ndarray nat) (alphas prim_coeffs norm : ndarray R) :
  shape coords = [N; 3] -> 0 < N ->
  shape angmom_comps = [1; 3] -> shape alphas = [1] ->
  shape prim_coeffs = [K; 1] -> shape norm = [1; K] ->
  exists G,
    eval_deriv (finite coords) orders [fin R_x; fin R_y; fin R_z]
      (amap Z.of_nat angmom_comps) (finite alphas) (finite prim_coeffs) (finite norm)
    = Ok G
    /\ shape G = [N; 3]
    /\ forall i d, i < N -> d < 3 ->
       item G [i; d]
       = ad_gradient 1 d (spec_delta (point_of coords i) R_x R_y R_z)
           (fun j => entry angmom_comps 0 j) (fun k => elem alphas k)
           (fun _ => rsum K (fun k => entry prim_coeffs k 0 * entry norm 0 k)%R)
           (fun _ => 1%R).
Proof.
  intros Hs HN Ha Hal Hp Hn.
  destruct (@eval_deriv_rows Orders orders N (finite coords) (fin R_x) (fin R_y)
              (fin R_z) (amap Z.of_nat angmom_comps) (finite alphas)
              (finite prim_coeffs) (finite norm)
              (fun i d => ad_gradient 1 d (spec_delta (point_of coords i) R_x R_y R_z)
                 (fun j => entry angmom_comps 0 j) (fun k => elem alphas k)
                 (fun _ => rsum K (fun k => entry prim_coeffs k 0 * entry norm 0 k)%R)
                 (fun _ => 1%R)) Hs HN) as (G & HG & HsG & HiG).
  { intros i d Hi Hd.
    change (point_of (finite coords) i) with (finite (point_of coords i)).
    rewrite (@grad_eval_contractions_tape_shared K d); try assumption.
    - f_equal. apply pull_prod_shared.
    - unfold point_of, slice_along. cbn [shape]. now rewrite Hs. }
  exists G. split; [exact HG|]. split; [exact HsG|]. exact HiG.
Qed.

(** The entries of the gradient for a shared exponent. *)
Lemma eval_deriv_shared_entries (Orders : Type) (orders : Orders) (N K : nat)
    (coords : ndarray R) (R_x R_y R_z : R)
    (angmom_comps : ndarray nat) (alphas prim_coeffs norm : ndarray R) (i d : nat) :
  shape coords = [N; 3] -> shape angmom_comps = [1; 3] -> shape alphas = [1] ->
  shape prim_coeffs = [K; 1] -> shape norm = [1; K] ->
  i < N -> d < 3 ->
  exists G,
    eval_deriv (finite coords) orders [fin R_x; fin R_y; fin R_z]
      (amap Z.of_nat angmom_comps) (finite alphas) (finite prim_coeffs) (finite norm)
    = Ok G
    /\ shape G = [N; 3]
    /\ item G [i; d]
       = ad_gradient 1 d (spec_delta (point_of coords i) R_x R_y R_z)
           (fun j => entry angmom_comps 0 j) (fun k => elem alphas k)
           (fun _ => rsum K (fun k => entry prim_coeffs k 0 * entry norm 0 k)%R)
           (fun _ => 1%R)
    /\ (forall v, item G [i; d] = fin v ->
        derivable_pt_lim
          (spec_of_center (point_of coords i) R_x R_y R_z angmom_comps
             (broadcast_to [K] alphas) prim_coeffs norm K d)
          (nth d [R_x; R_y; R_z] 0%R) v)
    /\ (entry angmom_comps 0 d <> 0 /\ entry coords i d = nth d [R_x; R_y; R_z] 0%R ->
        item G [i; d] = nan).
Proof.
  intros Hs Ha Hal Hp Hn Hi Hd.
  destruct (@eval_deriv_gradient_shared Orders orders N K coords R_x R_y R_z angmom_comps
              alphas prim_coeffs norm) as (G & HG & HsG & HiG); try assumption; [lia|].
  exists G. split; [exact HG|]. split; [exact HsG|]. split; [exact (HiG i d Hi Hd)|].
  rewrite (HiG i d Hi Hd). split.
  - intros v Hv.
    apply (@derivable_pt_lim_ext
             (spec_of_center (point_of coords i) R_x R_y R_z angmom_comps alphas
                (mkarray [1; 1]
                   (fun _ => rsum K (fun k => entry prim_coeffs k 0 * entry norm 0 k)%R))
                (mkarray [1; 1] (fun _ => 1%R)) 1 d)).
    + intros r. now apply spec_of_center_shared.
    + exact (@ad_gradient_derivative 1 d (point_of coords i) R_x R_y R_z angmom_comps
               alphas
               (mkarray [1; 1]
                  (fun _ => rsum K (fun k => entry prim_coeffs k 0 * entry norm 0 k)%R))
               (mkarray [1; 1] (fun _ => 1%R)) v Hd Hv).
  - intros [H1 H2]. apply ad_gradient_nan; [|lia].
    apply pow_eq_0_iff. split; [exact H1|].
    change (spec_delta (point_of coords i) R_x R_y R_z d)
      with (entry coords i d - nth d [R_x; R_y; R_z] 0)%R.
    rewrite H2. ring.
Qed.

(** X13: one exponent for [K] primitives ([alphas] of length one, as in the
    script of the module): the entry [i, d] of [eval_deriv] is the value
    of the backward pass for one primitive whose coefficient is the sum
    of the products of the coefficients and the normalisations; when it
    is a finite number it is the partial derivative of the closed form in
    which the exponent is broadcast to the primitives; it is [nan] where
    the angular momentum component is not 0 and the point is at the
    centre on that axis. *)
Theorem eval_deriv_shared_exponent (Orders : Type) (orders : Orders) (N K : nat)
    (coords : ndarray R) (R_x R_y R_z : R)
    (angmom_comps : ndarray nat) (alphas prim_coeffs norm : ndarray R) (i d : nat) :
  shape coords = [N; 3] -> shape angmom_comps = [1; 3] -> shape alphas = [1] ->
  shape prim_coeffs = [K; 1] -> shape norm = [1; K] ->
  i < N -> d < 3 ->
  exists G,
    eval_deriv (finite coords) orders [fin R_x; fin R_y; fin R_z]
      (amap Z.of_nat angmom_comps) (finite alphas) (finite prim_coeffs) (finite norm)
    = Ok G
    /\ shape G = [N; 3]
    /\ item G [i; d]
       = ad_gradient 1 d (spec_delta (point_of coords i) R_x R_y R_z)
           (fun j => entry angmom_comps 0 j) (fun k => elem alphas k)
           (fun _ => rsum K (fun k => entry prim_coeffs k 0 * entry norm 0 k)%R)
           (fun _ => 1%R)
    /\ (forall v, item G [i; d] = fin v ->
        derivable_pt_lim
          (spec_of_center (point_of coords i) R_x R_y R_z angmom_comps
             (broadcast_to [K] alphas) prim_coeffs norm K d)
          (nth d [R_x; R_y; R_z] 0%R) v)
    /\ (entry angmom_comps 0 d <> 0 /\ entry coords i d = nth d [R_x; R_y; R_z] 0%R ->
        item G [i; d] = nan).
Proof.
  exact (@eval_deriv_shared_entries Orders orders N K coords R_x R_y R_z angmom_comps
           alphas prim_coeffs norm i d).
Qed.

Lemma eval_deriv_shared_exponent_witness :
  exists G,
    eval_deriv (finite sample_batch) tt [fin 0; fin 1; fin 2]
      (amap Z.of_nat sample_angmom1) (finite unit_alphas) (finite sample_coeffs1)
      (finite sample_norm1)
    = Ok G
    /\ shape G = [2; 3]
    /\ item G [0; 0]
       = ad_gradient 1 0 (spec_delta (point_of sample_batch 0) 0 1 2)
           (fun j => entry sample_angmom1 0 j) (fun k => elem unit_alphas k)
           (fun _ => rsum 2 (fun k => entry sample_coeffs1 k 0 * entry sample_norm1 0 k)%R)
           (fun _ => 1%R)
    /\ (forall v, item G [0; 0] = fin v ->
        derivable_pt_lim
          (spec_of_center (point_of sample_batch 0) 0 1 2 sample_angmom1
             (broadcast_to [2] unit_alphas) sample_coeffs1 sample_norm1 2 0)
          (nth 0 [0; 1; 2]%R 0%R) v)
    /\ (entry sample_angmom1 0 0 <> 0 /\ entry sample_batch 0 0 = nth 0 [0; 1; 2]%R 0%R ->
        item G [0; 0] = nan).
Proof.
  apply (@eval_deriv_shared_exponent unit tt 2 2); try reflexivity; lia.
Defined.

Lemma fit_same n r : length r = n -> fit n r = Ok r.
Proof. intros H. unfold fit. now rewrite H, Nat.eqb_refl. Qed.

Lemma apply_along_rows_1d (f : ndarray float -> result (list float))
    (g : nat -> list float) n N (coords : ndarray float) :
  shape coords = [N; 3] -> 0 < N ->
  (forall i, i < N -> f (point_of coords i) = Ok (g i)) ->
  (forall i, i < N -> length (g i) = n) ->
  exists O, apply_along_axis_1d f 1 coords = Ok O
    /\ shape O = [N; n]
    /\ forall i j, i < N -> item O [i; j] = nth j (g i) nan.
Proof.
  intros Hs HN Hf Hg. unfold apply_along_axis_1d, ndim. rewrite Hs.
  cbn [length Nat.ltb Nat.leb remove_at firstn skipn app size fold_right].
  rewrite Nat.mul_1_r.
  destruct (Nat.eqb_spec N 0) as [->|_]; [lia|].
  cbn [unravel size fold_right]. rewrite Nat.div_1_r.
  change (slice_along 1 coords [0]) with (point_of coords 0).
  rewrite (Hf 0 HN). cbn [bind]. rewrite (Hg 0 HN).
  rewrite (@mapM_seq _ _ g).
  - cbn [bind]. eexists. split; [reflexivity|]. split; [reflexivity|].
    intros i j Hi. cbn [item nth remove_at firstn skipn app ravel size fold_right].
    rewrite Nat.mul_1_r, Nat.add_0_r. now rewrite nth_map_seq.
  - intros i Hi. rewrite Nat.div_1_r.
    change (slice_along 1 coords [i]) with (point_of coords i).
    rewrite Hf by lia. cbn [bind]. apply fit_same, Hg. lia.
Qed.

(** The rows of [output]. *)
Lemma output_closed (N K L M Ka Kn La Ln : nat) (coords : ndarray R) (R_x R_y R_z : R)
    (angmom_comps : ndarray nat) (alphas prim_coeffs norm : ndarray R) :
  shape coords = [N; 3] -> 0 < N ->
  shape angmom_comps = [La; 3] -> shape alphas = [Ka] ->
  shape prim_coeffs = [K; M] -> shape norm = [Ln; Kn] ->
  broadcast_shapes [Kn] [Ka] = Ok [K] -> broadcast_shapes [Ln] [La] = Ok [L] ->
  exists O,
    output (finite coords) (fin R_x) (fin R_y) (fin R_z) (amap Z.of_nat angmom_comps)
      (finite alphas) (finite prim_coeffs) (finite norm)
    = Ok O
    /\ shape O = [N; M * L]
    /\ (forall i, i < N ->
        eval_contractions_list (finite (point_of coords i)) (fin R_x) (fin R_y) (fin R_z)
          (amap Z.of_nat angmom_comps) (finite alphas) (finite prim_coeffs) (finite norm)
        = Ok (to_list (point_of O i)))
    /\ (forall i m l, i < N -> m < M -> l < L ->
        item O [i; m * L + l]
        = fin (spec_contraction (point_of coords i) R_x R_y R_z
                 (broadcast_to [L; 3] angmom_comps) (broadcast_to [K] alphas)
                 prim_coeffs (broadcast_to [L; K] norm) K m l)).
Proof.
  intros Hs HN Ha Hal Hp Hn HK HL.
  apply broadcast_shapes_bdim in HK, HL.
  assert (Hrow : forall i, i < N ->
            eval_contractions_list (point_of (finite coords) i) (fin R_x) (fin R_y)
              (fin R_z) (amap Z.of_nat angmom_comps) (finite alphas)
              (finite prim_coeffs) (finite norm)
            = Ok (map (fun j => fin (spec_contraction (point_of coords i) R_x R_y R_z
                                       (broadcast_to [L; 3] angmom_comps)
                                       (broadcast_to [K] alphas) prim_coeffs
                                       (broadcast_to [L; K] norm) K (j / L) (j mod L)))
                      (seq 0 (M * L)))).
  { intros i Hi.
    change (point_of (finite coords) i) with (finite (point_of coords i)).
    apply (@eval_contractions_broadcast_closed K L M Ka Kn La Ln); try assumption.
    unfold point_of, slice_along. cbn [shape]. now rewrite Hs. }
  destruct (@apply_along_rows_1d
              (fun p => eval_contractions_list p (fin R_x) (fin R_y) (fin R_z)
                          (amap Z.of_nat angmom_comps) (finite alphas)
                          (finite prim_coeffs) (finite norm))
              _ (M * L) N (finite coords) Hs HN Hrow)
    as (O & HO & HsO & HiO).
  { intros i Hi. now rewrite length_map, length_seq. }
  exists O. split; [exact HO|]. split; [exact HsO|]. split.
  - intros i Hi.
    change (finite (point_of coords i)) with (point_of (finite coords) i).
    rewrite (Hrow i Hi). f_equal.
    unfold to_list, point_of, slice_along. cbn [shape item]. rewrite HsO.
    cbn [nth size fold_right]. rewrite Nat.mul_1_r.
    apply map_ext_in. intros j Hj. apply in_seq in Hj.
    cbn [unravel size fold_right hd insert_at firstn skipn app].
    rewrite Nat.div_1_r. rewrite (HiO i j Hi).
    rewrite nth_map_seq by lia. reflexivity.
  - intros i m l Hi Hm Hl.
    destruct (flat_position Hm Hl) as (Hlt & Hdiv & Hmod).
    rewrite (HiO i _ Hi). rewrite nth_map_seq by exact Hlt. now rewrite Hdiv, Hmod.
Qed.

(** X14: [output], the first thing the script prints: for a batch of N >= 1
    points it is the N x (M L) matrix whose row [i] is what
    [eval_contractions] returns at the point [coords[i]], the closed form
    with the axes of length one broadcast. *)
Theorem output_rows (N K L M Ka Kn La Ln : nat) (coords : ndarray R) (R_x R_y R_z : R)
    (angmom_comps : ndarray nat) (alphas prim_coeffs norm : ndarray R) :
  shape coords = [N; 3] -> 0 < N ->
  shape angmom_comps = [La; 3] -> shape alphas = [Ka] ->
  shape prim_coeffs = [K; M] -> shape norm = [Ln; Kn] ->
  broadcast_shapes [Kn] [Ka] = Ok [K] -> broadcast_shapes [Ln] [La] = Ok [L] ->
  exists O,
    output (finite coords) (fin R_x) (fin R_y) (fin R_z) (amap Z.of_nat angmom_comps)
      (finite alphas) (finite prim_coeffs) (finite norm)
    = Ok O
    /\ shape O = [N; M * L]
    /\ (forall i, i < N ->
        eval_contractions_list (finite (point_of coords i)) (fin R_x) (fin R_y) (fin R_z)
          (amap Z.of_nat angmom_comps) (finite alphas) (finite prim_coeffs) (finite norm)
        = Ok (to_list (point_of O i)))
    /\ (forall i m l, i < N -> m < M -> l < L ->
        item O [i; m * L + l]
        = fin (spec_contraction (point_of coords i) R_x R_y R_z
                 (broadcast_to [L; 3] angmom_comps) (broadcast_to [K] alphas)
                 prim_coeffs (broadcast_to [L; K] norm) K m l)).
Proof.
  exact (@output_closed N K L M Ka Kn La Ln coords R_x R_y R_z angmom_comps alphas prim_coeffs norm).
Qed.

Lemma output_rows_witness :
  exists O,
    output (finite sample_batch) (fin 0) (fin 1) (fin 2) (amap Z.of_nat sample_angmom)
      (finite unit_alphas) (finite sample_coeffs) (finite sample_norm)
    = Ok O
    /\ shape O = [2; 2 * 2]
    /\ (forall i, i < 2 ->
        eval_contractions_list (finite (point_of sample_batch i)) (fin 0) (fin 1) (fin 2)
          (amap Z.of_nat sample_angmom) (finite unit_alphas) (finite sample_coeffs)
          (finite sample_norm)
        = Ok (to_list (point_of O i)))
    /\ (forall i m l, i < 2 -> m < 2 -> l < 2 ->
        item O [i; m * 2 + l]
        = fin (spec_contraction (point_of sample_batch i) 0 1 2
                 (broadcast_to [2; 3] sample_angmom) (broadcast_to [2] unit_alphas)
                 sample_coeffs (broadcast_to [2; 2] sample_norm) 2 m l)).
Proof.
  apply (@output_rows 2 2 2 2 1 2 2 2); try reflexivity. lia.
Defined.

Lemma central_difference_rows dx N (plus minus : ndarray float) :
  shape plus = [N; 1] -> shape minus = [N; 1] ->
  exists D, central_difference dx plus minus = Ok D
    /\ shape D = [N; 1]
    /\ forall i, i < N ->
       item D [i; 0]
       = fdiv (fsub (item plus [i; 0]) (item minus [i; 0])) (fmul (of_int 2) dx).
Proof.
  intros Hp Hm. unfold central_difference, broadcast2, broadcast_shapes.
  rewrite Hp, Hm. cbn [rev app bshape_rev bind]. rewrite !bdim_refl.
  cbn [bind rev app shape zip_at scalar bshape_rev].
  eexists. split; [reflexivity|]. split; [reflexivity|].
  intros i Hi. cbn [item zip_at shape scalar]. rewrite Hp, Hm. bix.
  rewrite !(clip_lt Hi). reflexivity.
Qed.

Lemma concat2_columns A N a b (x y : ndarray A) :
  shape x = [N; a] -> shape y = [N; b] ->
  concat2_at 1 x y
  = Ok (mkarray [N; a + b]
          (fun idx => let i := nth 1 idx 0 in
             if i <? a then item x idx else item y (set_at 1 (i - a) idx))).
Proof.
  intros Hx Hy. unfold concat2_at, ndim. rewrite Hx, Hy.
  cbn [length Nat.ltb Nat.leb Nat.eqb remove_at firstn skipn app shape_eqb andb nth
       set_at].
  now rewrite Nat.eqb_refl.
Qed.

Lemma hstack_columns A N (gx gy gz : ndarray A) :
  shape gx = [N; 1] -> shape gy = [N; 1] -> shape gz = [N; 1] ->
  exists H, hstack [gx; gy; gz] = Ok H
    /\ shape H = [N; 3]
    /\ forall i, item H [i; 0] = item gx [i; 0]
              /\ item H [i; 1] = item gy [i; 0]
              /\ item H [i; 2] = item gz [i; 0].
Proof.
  intros Hx Hy Hz. unfold hstack, atleast_1d. cbn [map]. rewrite Hx, Hy, Hz.
  unfold ndim. rewrite Hx. cbn [length Nat.eqb concatenate_at].
  unfold ndim. rewrite Hz. cbn [length Nat.ltb Nat.leb bind].
  rewrite (@concat2_columns A N 1 1 gy gz Hy Hz). cbn [bind].
  rewrite (@concat2_columns A N 1 (1 + 1) gx _ Hx) by reflexivity.
  eexists. split; [reflexivity|]. split; [reflexivity|].
  intros i. cbn [item nth Nat.ltb Nat.leb Nat.sub set_at firstn skipn app].
  repeat split; reflexivity.
Qed.

(** The entries of [grad_numerical]. *)
Lemma grad_numerical_closed (N K Ka Kn : nat) (coords : ndarray R) (R_x R_y R_z h : R)
    (angmom_comps : ndarray nat) (alphas prim_coeffs norm : ndarray R) :
  shape coords = [N; 3] -> 0 < N ->
  shape angmom_comps = [1; 3] -> shape alphas = [Ka] ->
  shape prim_coeffs = [K; 1] -> shape norm = [1; Kn] ->
  broadcast_shapes [Kn] [Ka] = Ok [K] -> h <> 0%R ->
  exists Gn,
    grad_numerical (fin h) (finite coords) (fin R_x) (fin R_y) (fin R_z)
      (amap Z.of_nat angmom_comps) (finite alphas) (finite prim_coeffs) (finite norm)
    = Ok Gn
    /\ shape Gn = [N; 3]
    /\ forall i d, i < N -> d < 3 ->
       item Gn [i; d]
       = fin (difference_quotient
                (spec_of_center (point_of coords i) R_x R_y R_z
                   (broadcast_to [1; 3] angmom_comps) (broadcast_to [K] alphas)
                   prim_coeffs (broadcast_to [1; K] norm) K d)
                (nth d [R_x; R_y; R_z] 0%R) h).
Proof.
  intros Hs HN Ha Hal Hp Hn HK Hh.
  assert (HL : broadcast_shapes [1] [1] = Ok [1]) by reflexivity.
  assert (H2h : (2 * h)%R <> 0%R) by lra.
  assert (Hout : forall Rx Ry Rz, exists O,
            output (finite coords) (fin Rx) (fin Ry) (fin Rz) (amap Z.of_nat angmom_comps)
              (finite alphas) (finite prim_coeffs) (finite norm) = Ok O
            /\ shape O = [N; 1]
            /\ forall i, i < N ->
               item O [i; 0]
               = fin (spec_contraction (point_of coords i) Rx Ry Rz
                        (broadcast_to [1; 3] angmom_comps) (broadcast_to [K] alphas)
                        prim_coeffs (broadcast_to [1; K] norm) K 0 0)).
  { intros Rx Ry Rz.
    destruct (@output_closed N K 1 1 Ka Kn 1 1 coords Rx Ry Rz angmom_comps alphas
                prim_coeffs norm Hs HN Ha Hal Hp Hn HK HL) as (O & HO & HsO & _ & HiO).
    exists O. split; [exact HO|]. split; [exact HsO|].
    intros i Hi. apply (HiO i 0 0); lia. }
  unfold grad_numerical, grad_numerical_x, grad_numerical_y, grad_numerical_z.
  cbn [fadd fsub lift2 fin].
  destruct (Hout (R_x + h)%R R_y R_z) as (Oxp & HOxp & Hsxp & Hixp).
  destruct (Hout (R_x - h)%R R_y R_z) as (Oxm & HOxm & Hsxm & Hixm).
  destruct (Hout R_x (R_y + h)%R R_z) as (Oyp & HOyp & Hsyp & Hiyp).
  destruct (Hout R_x (R_y - h)%R R_z) as (Oym & HOym & Hsym & Hiym).
  destruct (Hout R_x R_y (R_z + h)%R) as (Ozp & HOzp & Hszp & Hizp).
  destruct (Hout R_x R_y (R_z - h)%R) as (Ozm & HOzm & Hszm & Hizm).
  unfold fin in *.
  rewrite HOxp, HOxm, HOyp, HOym, HOzp, HOzm. cbn [bind].
  destruct (@central_difference_rows (Some h) N Oxp Oxm Hsxp Hsxm) as (Dx & HDx & HsDx & HiDx).
  destruct (@central_difference_rows (Some h) N Oyp Oym Hsyp Hsym) as (Dy & HDy & HsDy & HiDy).
  destruct (@central_difference_rows (Some h) N Ozp Ozm Hszp Hszm) as (Dz & HDz & HsDz & HiDz).
  rewrite HDx, HDy, HDz. cbn [bind].
  destruct (@hstack_columns _ N Dx Dy Dz HsDx HsDy HsDz) as (H & HH & HsH & HiH).
  exists H. split; [exact HH|]. split; [exact HsH|].
  intros i d Hi Hd. destruct (HiH i) as (H0 & H1 & H2).
  destruct d as [|[|[|?]]]; [| | |lia].
  - rewrite H0, (HiDx i Hi), (Hixp i Hi), (Hixm i Hi).
    cbn [fsub fmul lift2 of_int nth]. now rewrite fdiv_fin.
  - rewrite H1, (HiDy i Hi), (Hiyp i Hi), (Hiym i Hi).
    cbn [fsub fmul lift2 of_int nth]. now rewrite fdiv_fin.
  - rewrite H2, (HiDz i Hi), (Hizp i Hi), (Hizm i Hi).
    cbn [fsub fmul lift2 of_int nth]. now rewrite fdiv_fin.
Qed.

(** X15: [grad_numerical]: for a basis with one output, a batch of N >= 1
    points and a step [h] that is not 0, its entry [i, d] is the central
    difference quotient, in the centre scalar [d], of the closed form at
    the point [coords[i]]. *)
Theorem grad_numerical_quotients (N K Ka Kn : nat) (coords : ndarray R) (R_x R_y R_z h : R)
    (angmom_comps : ndarray nat) (alphas prim_coeffs norm : ndarray R) :
  shape coords = [N; 3] -> 0 < N ->
  shape angmom_comps = [1; 3] -> shape alphas = [Ka] ->
  shape prim_coeffs = [K; 1] -> shape norm = [1; Kn] ->
  broadcast_shapes [Kn] [Ka] = Ok [K] -> h <> 0%R ->
  exists Gn,
    grad_numerical (fin h) (finite coords) (fin R_x) (fin R_y) (fin R_z)
      (amap Z.of_nat angmom_comps) (finite alphas) (finite prim_coeffs) (finite norm)
    = Ok Gn
    /\ shape Gn = [N; 3]
    /\ forall i d, i < N -> d < 3 ->
       item Gn [i; d]
       = fin (difference_quotient
                (spec_of_center (point_of coords i) R_x R_y R_z
                   (broadcast_to [1; 3] angmom_comps) (broadcast_to [K] alphas)
                   prim_coeffs (broadcast_to [1; K] norm) K d)
                (nth d [R_x; R_y; R_z] 0%R) h).
Proof.
  exact (@grad_numerical_closed N K Ka Kn coords R_x R_y R_z h angmom_comps alphas prim_coeffs norm).
Qed.

Lemma grad_numerical_quotients_witness :
  exists Gn,
    grad_numerical (fin 1) (finite sample_batch) (fin 0) (fin 1) (fin 2)
      (amap Z.of_nat sample_angmom1) (finite unit_alphas) (finite sample_coeffs1)
      (finite sample_norm1)
    = Ok Gn
    /\ shape Gn = [2; 3]
    /\ forall i d, i < 2 -> d < 3 ->
       item Gn [i; d]
       = fin (difference_quotient
                (spec_of_center (point_of sample_batch i) 0 1 2
                   (broadcast_to [1; 3] sample_angmom1) (broadcast_to [2] unit_alphas)
                   sample_coeffs1 (broadcast_to [1; 2] sample_norm1) 2 d)
                (nth d [0; 1; 2]%R 0%R) 1).
Proof.
  apply (@grad_numerical_quotients 2 2 1 2); try reflexivity; [lia|lra].
Defined.

Lemma unravel_matrix N C k : unravel [N; C] k = [k / C; k mod C].
Proof.
  cbn [unravel size fold_right]. now rewrite !Nat.mul_1_r, Nat.div_1_r.
Qed.

Lemma allclose_entries N (G Gn : ndarray float) :
  shape G = [N; 3] -> shape Gn = [N; 3] ->
  exists c, allclose G Gn = Ok (forallb (fun x => x) c)
    /\ (forall x, In x c ->
        exists i d, i < N /\ d < 3 /\ x = isclose (item G [i; d]) (item Gn [i; d]))
    /\ (forall i d, i < N -> d < 3 -> In (isclose (item G [i; d]) (item Gn [i; d])) c).
Proof.
  intros HG HGn. unfold allclose, broadcast2, broadcast_shapes. rewrite HG, HGn.
  cbn [rev app bshape_rev bind]. rewrite !bdim_refl. cbn [bind rev app].
  eexists. split; [reflexivity|].
  unfold to_list. cbn [shape zip_at item]. rewrite HG, HGn.
  assert (Hel : forall k, k < N * 3 ->
            isclose (item G (bindex [N; 3] (unravel [N; 3] k)))
                    (item Gn (bindex [N; 3] (unravel [N; 3] k)))
            = isclose (item G [k / 3; k mod 3]) (item Gn [k / 3; k mod 3])).
  { intros k Hk. rewrite unravel_matrix. bix.
    rewrite clip_lt; [reflexivity|]. apply Nat.Div0.div_lt_upper_bound. lia. }
  split.
  - intros x Hx. apply in_map_iff in Hx. destruct Hx as (k & <- & Hk).
    apply in_seq in Hk. cbn [size fold_right] in Hk. rewrite Nat.mul_1_r in Hk.
    exists (k / 3), (k mod 3). split; [|split].
    + apply Nat.Div0.div_lt_upper_bound. lia.
    + apply Nat.mod_upper_bound. lia.
    + apply Hel. lia.
  - intros i d Hi Hd. apply in_map_iff. exists (i * 3 + d).
    assert (Hd3 : d < 3) by exact Hd.
    destruct (flat_position Hi Hd3) as (Hlt & Hdiv & Hmod).
    split.
    + rewrite Hel by exact Hlt. now rewrite Hdiv, Hmod.
    + apply in_seq. cbn [size fold_right]. lia.
Qed.

Lemma spec_of_center_one_vector K d (coords : ndarray R) (R_x R_y R_z : R)
    (angmom_comps : ndarray nat) (alphas prim_coeffs norm : ndarray R) r :
  shape angmom_comps = [1; 3] -> shape norm = [1; K] ->
  spec_of_center coords R_x R_y R_z (broadcast_to [1; 3] angmom_comps) alphas
    prim_coeffs (broadcast_to [1; K] norm) K d r
  = spec_of_center coords R_x R_y R_z angmom_comps alphas prim_coeffs norm K d r.
Proof.
  intros Ha Hn. unfold spec_of_center, spec_contraction, spec_factor, broadcast_to.
  apply rsum_ext. intros k Hk. cbn [item]. rewrite Ha, Hn. bix.
  rewrite (clip_lt Hk). reflexivity.
Qed.

Lemma to_list_vector3 A (a : ndarray A) :
  shape a = [3] -> to_list a = [item a [0]; item a [1]; item a [2]].
Proof. intros H. unfold to_list. rewrite H. reflexivity. Qed.

Section Script.
Variables (N K : nat).
Variables (coords center : ndarray R).
Variables (angmom_comps : ndarray nat) (alphas prim_coeffs norm : ndarray R).
Hypothesis coords_shape : shape coords = [N; 3].
Hypothesis batch : 0 < N.
Hypothesis center_shape : shape center = [3].
Hypothesis angmom_shape : shape angmom_comps = [1; 3].
Hypothesis alphas_shape : shape alphas = [1].
Hypothesis coeffs_shape : shape prim_coeffs = [K; 1].
Hypothesis norm_shape : shape norm = [1; K].

(** The statements of the script up to the comparison. *)
Lemma script_from_runs h :
  h <> 0%R ->
  exists O G Gn,
    shape O = [N; 1] /\ shape G = [N; 3] /\ shape Gn = [N; 3]
    /\ eval_deriv (finite coords) 1%Z [fin (elem center 0); fin (elem center 1);
                                       fin (elem center 2)]
         (amap Z.of_nat angmom_comps) (finite alphas) (finite prim_coeffs) (finite norm)
       = Ok G
    /\ (forall i d, i < N -> d < 3 ->
        item Gn [i; d]
        = fin (difference_quotient
                 (spec_of_center (point_of coords i) (elem center 0) (elem center 1)
                    (elem center 2) angmom_comps (broadcast_to [K] alphas)
                    prim_coeffs norm K d)
                 (elem center d) h))
    /\ script_from (fin h) (finite coords) (finite center) (amap Z.of_nat angmom_comps)
         (finite alphas) (finite prim_coeffs) (finite norm)
       = (close <- allclose G Gn ;; Ok (O, (G, [N; 3]), close)).
Proof.
  intros Hh.
  assert (HK : broadcast_shapes [K] [1] = Ok [K]).
  { rewrite broadcast_shapes_1, bdim_1_r. reflexivity. }
  assert (HL : broadcast_shapes [1] [1] = Ok [1]) by reflexivity.
  destruct (@output_closed N K 1 1 1 K 1 1 coords (elem center 0) (elem center 1)
              (elem center 2) angmom_comps alphas prim_coeffs norm coords_shape batch
              angmom_shape alphas_shape coeffs_shape norm_shape HK HL)
    as (O & HO & HsO & _ & _).
  destruct (@eval_deriv_gradient_shared Z 1%Z N K coords (elem center 0) (elem center 1)
              (elem center 2) angmom_comps alphas prim_coeffs norm coords_shape batch
              angmom_shape alphas_shape coeffs_shape norm_shape)
    as (G & HG & HsG & _).
  destruct (@grad_numerical_closed N K 1 K coords (elem center 0) (elem center 1)
              (elem center 2) h angmom_comps alphas prim_coeffs norm coords_shape batch
              angmom_shape alphas_shape coeffs_shape norm_shape HK Hh)
    as (Gn & HGn & HsGn & HiGn).
  exists O, G, Gn. split; [exact HsO|]. split; [exact HsG|]. split; [exact HsGn|].
  split; [exact HG|]. split.
  - intros i d Hi Hd. rewrite (HiGn i d Hi Hd). unfold fin. f_equal.
    unfold difference_quotient.
    rewrite !(@spec_of_center_one_vector K d (point_of coords i) _ _ _ angmom_comps
                (broadcast_to [K] alphas) prim_coeffs norm _ angmom_shape norm_shape).
    destruct d as [|[|[|?]]]; [| | |lia]; reflexivity.
  - unfold script_from.
    rewrite (@to_list_vector3 _ (finite center) center_shape).
    change (item (finite center) [0]) with (fin (elem center 0)).
    change (item (finite center) [1]) with (fin (elem center 1)).
    change (item (finite center) [2]) with (fin (elem center 2)).
    rewrite HO. cbn [bind]. rewrite HG. cbn [bind]. rewrite HGn. cbn [bind].
    rewrite HsG. reflexivity.
Qed.
End Script.

Lemma forallb_id_false (c : list bool) :
  In false c -> forallb (fun x => x) c = false.
Proof.
  intros H. destruct (forallb (fun x => x) c) eqn:E; [|reflexivity].
  rewrite forallb_forall in E. symmetry. exact (E false H).
Qed.

(** X17: the comparison fails on a [nan]: when a point has the coordinate of
    the centre on an axis whose angular momentum component is not 0, the
    script prints [False], whatever the step. *)
Theorem script_check_fails (N K : nat) (coords center : ndarray R)
    (angmom_comps : ndarray nat) (alphas prim_coeffs norm : ndarray R) (i d : nat) (h : R) :
  shape coords = [N; 3] -> shape center = [3] ->
  shape angmom_comps = [1; 3] -> shape alphas = [1] ->
  shape prim_coeffs = [K; 1] -> shape norm = [1; K] ->
  i < N -> d < 3 ->
  entry angmom_comps 0 d <> 0 -> entry coords i d = elem center d ->
  h <> 0%R ->
  exists O G,
    script_from (fin h) (finite coords) (finite center)
      (amap Z.of_nat angmom_comps) (finite alphas) (finite prim_coeffs) (finite norm)
    = Ok (O, (G, [N; 3]), false).
Proof.
  intros Hs Hc Ha Hal Hp Hn Hi Hd Hnz Heq Hh.
  assert (HN : 0 < N) by lia.
  destruct (@script_from_runs N K coords center angmom_comps alphas prim_coeffs norm
              Hs HN Hc Ha Hal Hp Hn h Hh)
    as (O & G & Gn & _ & HsG & HsGn & HG & _ & Hrun).
  exists O, G. rewrite Hrun.
  destruct (@allclose_entries N G Gn HsG HsGn) as (c & -> & _ & Hc2).
  cbn [bind]. rewrite forallb_id_false; [reflexivity|].
  destruct (@eval_deriv_shared_entries Z 1%Z N K coords (elem center 0)
              (elem center 1) (elem center 2) angmom_comps alphas prim_coeffs norm
              i d Hs Ha Hal Hp Hn Hi Hd) as (G' & HG' & _ & _ & _ & Hnan).
  rewrite HG in HG'. injection HG' as <-.
  specialize (Hc2 i d Hi Hd). rewrite Hnan in Hc2; [exact Hc2|].
  split; [exact Hnz|]. rewrite Heq.
  destruct d as [|[|[|?]]]; [| | |lia]; reflexivity.
Qed.

Lemma script_check_fails_witness :
  exists O G,
    script_from (fin 1) (finite batch_origin) (finite point_origin)
      (amap Z.of_nat angmom_px) (finite unit_alphas) (finite unit_coeffs)
      (finite unit_norm)
    = Ok (O, (G, [1; 3]), false).
Proof.
  apply (@script_check_fails 1 1 batch_origin point_origin angmom_px unit_alphas
           unit_coeffs unit_norm 0 0 1); try reflexivity; try lia.
  - cbn. lia.
  - lra.
Defined.

(** X18: the script, for every draw: it runs to its end, prints a 10 x 1
    [output], the gradient and its shape (10, 3), and prints [True]
    exactly when every entry of the gradient is close, with the
    tolerances of [np.allclose], to the central difference quotient of
    the closed form for the step 1e-5. *)
Theorem script_prints (coords center : ndarray R) (angmom_comps : ndarray nat)
    (alphas prim_coeffs : ndarray R) :
  shape coords = [10; 3] -> shape center = [3] -> shape angmom_comps = [1; 3] ->
  shape alphas = [1] -> shape prim_coeffs = [2; 1] ->
  exists O G close,
    script (finite coords) (finite center) (amap Z.of_nat angmom_comps) (finite alphas)
      (finite prim_coeffs)
    = Ok (O, (G, [10; 3]), close)
    /\ shape O = [10; 1]
    /\ eval_deriv (finite coords) 1%Z (to_list (finite center))
         (amap Z.of_nat angmom_comps) (finite alphas) (finite prim_coeffs)
         (ones [1; 2])
       = Ok G
    /\ (close = true
        <-> forall i d, i < 10 -> d < 3 ->
            isclose (item G [i; d])
              (fin (difference_quotient
                      (spec_of_center (point_of coords i) (elem center 0)
                         (elem center 1) (elem center 2) angmom_comps
                         (broadcast_to [2] alphas) prim_coeffs (ones_R [1; 2]) 2 d)
                      (elem center d) (/ 100000)))
            = true).
Proof.
  intros Hs Hc Ha Hal Hp.
  assert (HN : 0 < 10) by lia.
  assert (Hh : (/ 100000)%R <> 0%R) by lra.
  destruct (@script_from_runs 10 2 coords center angmom_comps alphas prim_coeffs
              (ones_R [1; 2]) Hs HN Hc Ha Hal Hp eq_refl (/ 100000)%R Hh)
    as (O & G & Gn & HsO & HsG & HsGn & HG & HiGn & Hrun).
  destruct (@allclose_entries 10 G Gn HsG HsGn) as (c & Hc0 & Hc1 & Hc2).
  exists O, G, (forallb (fun x => x) c).
  split; [|split; [exact HsO|split]].
  - unfold script, dx. change (ones [1; 2]) with (finite (ones_R [1; 2])).
    rewrite Hrun, Hc0. reflexivity.
  - rewrite (@to_list_vector3 _ (finite center) Hc). exact HG.
  - rewrite forallb_forall. split.
    + intros H i d Hi Hd. rewrite <- (HiGn i d Hi Hd). apply H. now apply Hc2.
    + intros H x Hx. destruct (Hc1 x Hx) as (i & d & Hi & Hd & ->).
      rewrite (HiGn i d Hi Hd). now apply H.
Qed.

Lemma script_prints_witness :
  exists O G close,
    script (finite (ones_R [10; 3])) (finite point_origin) (amap Z.of_nat angmom_px)
      (finite unit_alphas) (finite sample_coeffs1)
    = Ok (O, (G, [10; 3]), close)
    /\ shape O = [10; 1]
    /\ eval_deriv (finite (ones_R [10; 3])) 1%Z (to_list (finite point_origin))
         (amap Z.of_nat angmom_px) (finite unit_alphas) (finite sample_coeffs1)
         (ones [1; 2])
       = Ok G
    /\ (close = true
        <-> forall i d, i < 10 -> d < 3 ->
            isclose (item G [i; d])
              (fin (difference_quotient
                      (spec_of_center (point_of (ones_R [10; 3]) i) (elem point_origin 0)
                         (elem point_origin 1) (elem point_origin 2) angmom_px
                         (broadcast_to [2] unit_alphas) sample_coeffs1 (ones_R [1; 2])
                         2 d)
                      (elem point_origin d) (/ 100000)))
            = true).
Proof.
  apply script_prints; reflexivity.
Defined.

(** X12: a basis without primitives: for every point of a batch,
    [eval_contractions] returns 0, and [eval_deriv] returns a gradient of
    zeros, also at the centre. *)
Theorem no_primitive (Orders : Type) (orders : Orders) (N : nat)
    (coords : ndarray R) (R_x R_y R_z : R)
    (angmom_comps : ndarray nat) (alphas prim_coeffs norm : ndarray R) :
  shape coords = [N; 3] -> 0 < N ->
  shape angmom_comps = [1; 3] -> shape alphas = [0] ->
  shape prim_coeffs = [0; 1] -> shape norm = [1; 0] ->
  (forall i, i < N ->
     eval_contractions_list (finite (point_of coords i)) (fin R_x) (fin R_y) (fin R_z)
       (amap Z.of_nat angmom_comps) (finite alphas) (finite prim_coeffs) (finite norm)
     = Ok [fin 0])
  /\ exists G,
       eval_deriv (finite coords) orders [fin R_x; fin R_y; fin R_z]
         (amap Z.of_nat angmom_comps) (finite alphas) (finite prim_coeffs) (finite norm)
       = Ok G
       /\ shape G = [N; 3]
       /\ forall i d, i < N -> d < 3 -> item G [i; d] = fin 0.
Proof.
  intros Hs HN Ha Hal Hp Hn. split.
  - intros i Hi.
    rewrite (@eval_contractions_closed 0 1 1 (point_of coords i)); try assumption.
    + reflexivity.
    + unfold point_of, slice_along. cbn [shape]. now rewrite Hs.
  - destruct (@eval_deriv_gradient Orders orders N 0 coords R_x R_y R_z angmom_comps
                alphas prim_coeffs norm Hs HN Ha Hal Hp Hn) as (G & HG & HsG & HiG).
    exists G. split; [exact HG|]. split; [exact HsG|].
    intros i d Hi Hd. destruct (HiG i d Hi Hd) as [_ ->]. apply ad_gradient_zero.
Qed.

Lemma no_primitive_witness :
  (forall i, i < 1 ->
     eval_contractions_list (finite (point_of batch_origin i)) (fin 0) (fin 0) (fin 0)
       (amap Z.of_nat angmom_px) (finite (vector 0%R [])) (finite (matrix 0%R 0 1 []))
       (finite (matrix 0%R 1 0 []))
     = Ok [fin 0])
  /\ exists G,
       eval_deriv (finite batch_origin) tt [fin 0; fin 0; fin 0]
         (amap Z.of_nat angmom_px) (finite (vector 0%R [])) (finite (matrix 0%R 0 1 []))
         (finite (matrix 0%R 1 0 []))
       = Ok G
       /\ shape G = [1; 3]
       /\ forall i d, i < 1 -> d < 3 -> item G [i; d] = fin 0.
Proof.
  apply (@no_primitive unit tt 1); try reflexivity. lia.
Defined.
